(** * AiNiee: the Ren'Py reader (ModuleFolders/FileReader/RenpyReader.py)

    A shallow embedding of [RenpyReader] and the verification of its
    extraction pass.  Text is modelled as lists of 8-bit characters read as
    the code points U+0000..U+00FF; the character classes are those of
    Python 3 ([str.isspace], and [\s], [\w] of the [re] module on [str]
    patterns) on that range.

    The request limiter (Module_Folders/Request_Limiter/Request_limit.py)
    and the cache item (Module_Folders/Cache/CacheItem.py) follow the
    reader, each in a module of its own. *)

From Stdlib Require Import List Ascii String ZArith Lia Bool Arith Sorted.
From Stdlib Require QArith.
Import ListNotations.

Local Open Scope Z_scope.

(** ** Python's [str] operations used by the reader *)

Module PyStr.

Definition str := list ascii.

(** A string literal of the source, as a [str]. *)
Definition lit (x : string) : str := list_ascii_of_string x.

(** The double-quote character and the one-character string holding it. *)
Definition dquote : ascii := "034"%char.
Definition hash : ascii := "#"%char.

Definition code (c : ascii) : N := N_of_ascii c.

Definition in_range (lo hi : N) (c : ascii) : bool :=
  (N.leb lo (code c) && N.leb (code c) hi)%bool.

(** [str.isspace] on one character; also the class [\s]. *)
Definition is_space (c : ascii) : bool :=
  (in_range 9 13 c || in_range 28 32 c
   || N.eqb (code c) 133 || N.eqb (code c) 160)%bool.

(** The class [[a-zA-Z]]. *)
Definition is_letter (c : ascii) : bool :=
  (in_range 65 90 c || in_range 97 122 c)%bool.

(** The class [\w]: alphanumeric characters and the underscore. *)
Definition is_word (c : ascii) : bool :=
  (in_range 48 57 c || is_letter c || N.eqb (code c) 95
   || N.eqb (code c) 170 || in_range 178 179 c || N.eqb (code c) 181
   || in_range 185 186 c || in_range 188 190 c || in_range 192 214 c
   || in_range 216 246 c || in_range 248 255 c)%bool.

Definition len (s : str) : Z := Z.of_nat (List.length s).

(** [s.find(c)]: the lowest index of [c], or -1. *)
Fixpoint find_from (c : ascii) (s : str) (k : Z) : Z :=
  match s with
  | [] => -1
  | x :: t => if Ascii.eqb x c then k else find_from c t (k + 1)
  end.

Definition find (c : ascii) (s : str) : Z := find_from c s 0.

(** [s.rfind(c)]: the highest index of [c], or -1. *)
Fixpoint rfind_from (c : ascii) (s : str) (k last : Z) : Z :=
  match s with
  | [] => last
  | x :: t => rfind_from c t (k + 1) (if Ascii.eqb x c then k else last)
  end.

Definition rfind (c : ascii) (s : str) : Z := rfind_from c s 0 (-1).

(** A slice bound, as Python normalises it against the length. *)
Definition clamp (n k : Z) : Z :=
  if k <? 0 then Z.max (k + n) 0 else Z.min k n.

(** [s[lo:hi]]. *)
Definition slice (s : str) (lo hi : Z) : str :=
  let lo' := clamp (len s) lo in
  let hi' := clamp (len s) hi in
  firstn (Z.to_nat (hi' - lo')) (skipn (Z.to_nat lo') s).

(** [s.startswith(p)]. *)
Fixpoint startswith (s p : str) : bool :=
  match p, s with
  | [], _ => true
  | _ :: _, [] => false
  | a :: p', b :: s' => (Ascii.eqb b a && startswith s' p')%bool
  end.

(** [s.lstrip()], [s.rstrip()], [s.strip()] without argument. *)
Fixpoint lstrip (s : str) : str :=
  match s with
  | [] => []
  | x :: t => if is_space x then lstrip t else s
  end.

Definition rstrip (s : str) : str := rev (lstrip (rev s)).

Definition strip (s : str) : str := rstrip (lstrip s).

(** [s.split(c, 1)[-1]]: the text after the first [c], or all of [s]
    when [c] does not occur. *)
Definition split1_last (c : ascii) (s : str) : str :=
  let k := find c s in
  if k =? -1 then s else skipn (Z.to_nat (k + 1)) s.

Definition str_eqb (a b : str) : bool :=
  if list_eq_dec ascii_dec a b then true else false.

End PyStr.

(** ** The fragment of [re] the reader's patterns are written in

    Greedy, backtracking matching in continuation-passing style: the
    continuation receives the position reached, the text left and the
    content of group 1 (if it took part so far). *)

Module Re.
Import PyStr.

Inductive regex : Type :=
| Caret                              (* start of text *)
| Cls (c : ascii -> bool)            (* one character of a class *)
| Star (c : ascii -> bool)           (* zero or more of a class, greedy *)
| Plus (c : ascii -> bool)           (* one or more of a class, greedy *)
| Seq (r1 r2 : regex)
| Opt (r : regex)                    (* optional non-capturing group, greedy *)
| Group (r : regex).                 (* capturing group 1 *)

Definition cont := nat -> str -> option str -> option (option str).

Definition orelse (a : option (option str)) (b : option (option str)) :=
  match a with Some _ => a | None => b end.

Fixpoint star (c : ascii -> bool) (pos : nat) (s : str) (cap : option str)
  (k : cont) : option (option str) :=
  match s with
  | [] => k pos [] cap
  | x :: t =>
      if c x then orelse (star c (S pos) t cap k) (k pos s cap)
      else k pos s cap
  end.

Fixpoint run (r : regex) (pos : nat) (s : str) (cap : option str)
  (k : cont) : option (option str) :=
  match r with
  | Caret => if Nat.eqb pos 0 then k pos s cap else None
  | Cls c =>
      match s with
      | x :: t => if c x then k (S pos) t cap else None
      | [] => None
      end
  | Star c => star c pos s cap k
  | Plus c =>
      match s with
      | x :: t => if c x then star c (S pos) t cap k else None
      | [] => None
      end
  | Seq r1 r2 => run r1 pos s cap (fun pos' s' cap' => run r2 pos' s' cap' k)
  | Opt r' => orelse (run r' pos s cap k) (k pos s cap)
  | Group r' =>
      run r' pos s cap
        (fun pos' s' _ => k pos' s' (Some (firstn (pos' - pos) s)))
  end.

(** [pattern.match(s)]: [None] when there is no match, otherwise the match
    object, of which only [group(1)] is kept ([None] inside when the group
    took no part in the match). *)
Definition re_match (r : regex) (s : str) : option (option str) :=
  run r 0 s None (fun _ _ cap => Some cap).

Definition is_char (a : ascii) (c : ascii) : bool := Ascii.eqb c a.

(** The class [[\w\s@]]. *)
Definition tag_char (c : ascii) : bool :=
  (is_word c || is_space c || is_char "@"%char c)%bool.

Fixpoint seq (rs : list regex) : regex :=
  match rs with
  | [] => Star (fun _ => false)
  | [r] => r
  | r :: rs' => Seq r (seq rs')
  end.

End Re.

(** ** The reader *)

Module RenpyReader.
Import PyStr Re.

(** [TAG_PATTERN]: start of text, any whitespace, then group 1 (a letter
    and any run of [\w], [\s] or [@]), then whitespace (one or more) and a
    double quote. *)
Definition TAG_PATTERN : regex :=
  seq [Caret; Star is_space;
       Group (Seq (Cls is_letter) (Star tag_char));
       Plus is_space; Cls (is_char dquote)].

(** [COMMENT_TRANSLATION_START_PATTERN]: start of text, any whitespace, a
    hash sign, any whitespace. *)
Definition COMMENT_TRANSLATION_START_PATTERN : regex :=
  seq [Caret; Star is_space; Cls (is_char hash); Star is_space].

(** [CODE_TRANSLATION_START_PATTERN]: start of text, any whitespace, then
    optionally (a letter, any run of [\w], [\s] or [@], and whitespace, one
    or more), then a double quote. *)
Definition CODE_TRANSLATION_START_PATTERN : regex :=
  seq [Caret; Star is_space;
       Opt (seq [Cls is_letter; Star tag_char; Plus is_space]);
       Cls (is_char dquote)].

(** A match object is truthy, [None] is not. *)
Definition matches (r : regex) (s : str) : bool :=
  match re_match r s with Some _ => true | None => false end.

(** [_extract_quoted_robust] (lines 44-56). *)
Definition _extract_quoted_robust (line : str) : option str :=
  let first_quote_index := find dquote line in
  if first_quote_index =? -1 then None
  else
    let last_quote_index := rfind dquote line in
    if last_quote_index =? first_quote_index then None
    else Some (slice line (first_quote_index + 1) last_quote_index).

(** The strings stored under ["format_type"]. *)
Inductive FormatType : Type :=
| fmt_old_new          (* "old_new" *)
| fmt_comment_tag      (* "comment_tag" *)
| fmt_comment_no_tag.  (* "comment_no_tag" *)

(** One element of [entries]: the dict built at lines 104-110 and 171-177. *)
Record Entry : Type := mkEntry {
  source : str;
  translated : str;
  new_line_num : nat;
  format_type : FormatType;
  tag : option str
}.

(** What running a piece of the reader ends in: a value, a Python
    exception, or (for the model of the [while] loop only) no fuel left. *)
Inductive exn : Type := AttributeError.

Inductive outcome (A : Type) : Type :=
| Ok (a : A)
| Raise (e : exn)
| OutOfFuel.
Arguments Ok {A} a.
Arguments Raise {A} e.
Arguments OutOfFuel {A}.

Definition bind {A B} (m : outcome A) (f : A -> outcome B) : outcome B :=
  match m with
  | Ok a => f a
  | Raise e => Raise e
  | OutOfFuel => OutOfFuel
  end.

Notation "x <- m ;; k" := (bind m (fun x => k))
  (at level 61, m at next level, right associativity).

(** [m.group(1).strip()]: [group(1)] is [None] when the group took no part,
    and [None] has no [strip]. *)
Definition group1_strip (m : option str) : outcome str :=
  match m with
  | Some g => Ok (strip g)
  | None => Raise AttributeError
  end.

(** [_find_next_relevant_line] (lines 58-80); [rest] is [lines[i:]]. *)
Fixpoint find_next_from (rest : list str) (i : nat) : option (nat * str) :=
  match rest with
  | [] => None
  | line :: rest' =>
      let stripped := strip line in
      if startswith stripped (lit "translate ") then None
      else if matches CODE_TRANSLATION_START_PATTERN stripped
           then Some (i, line)
           else find_next_from rest' (S i)
  end.

Definition _find_next_relevant_line (lines : list str) (start_index : nat)
  : option (nat * str) :=
  find_next_from (skipn start_index lines) start_index.

(** The inner [for j] loop of the [old] branch (lines 98-118), with how it
    ended: at [j] with a translation ([found_new]), at [j] by the [break] of
    line 118, or by running off the end of [lines]. *)
Inductive scan_result : Type :=
| Found (j : nat) (translated : str)
| Broke (j : nat)
| Exhausted.

Fixpoint scan_new (rest : list str) (j : nat) : scan_result :=
  match rest with
  | [] => Exhausted
  | next_line :: rest' =>
      let next_stripped := strip next_line in
      if startswith next_stripped (lit "new ") then
        match _extract_quoted_robust next_line with
        | Some translated => Found j translated
        | None => scan_new rest' (S j)
        end
      else if (startswith next_stripped (lit "old ")
               || matches COMMENT_TRANSLATION_START_PATTERN next_stripped
               || matches CODE_TRANSLATION_START_PATTERN next_stripped)%bool
           then Broke j
           else scan_new rest' (S j)
  end.

(** Lines 150-168: the format and the tag of a comment/code pair. *)
Definition classify (comment_rest potential_source_line code_stripped : str)
  : outcome (option FormatType * option str) :=
  let comment_tag_match := re_match TAG_PATTERN comment_rest in
  let code_tag_match := re_match TAG_PATTERN code_stripped in
  match comment_tag_match, code_tag_match with
  | Some m1, Some m2 =>
      comment_tag <- group1_strip m1 ;;
      code_tag <- group1_strip m2 ;;
      if str_eqb comment_tag code_tag
      then Ok (Some fmt_comment_tag, Some code_tag)
      else Ok (None, None)
  | _, _ =>
      if (startswith potential_source_line [dquote]
          && startswith code_stripped [dquote])%bool
      then Ok (Some fmt_comment_no_tag, None)
      else Ok (None, None)
  end.

(** Lines 139-143: the source text a comment line supplies. *)
Definition comment_source_of (comment_line : str) : option str :=
  let potential_source_line := lstrip (split1_last hash comment_line) in
  if negb (startswith potential_source_line (lit "game/")
           || startswith potential_source_line (lit "renpy/"))
  then _extract_quoted_robust comment_line
  else None.

(** One turn of the [while] loop (lines 89-182) at cursor [i], where
    [line = lines[i]]: the next cursor and the entries so far. *)
Definition loop_body (lines : list str) (i : nat) (line : str)
  (entries : list Entry) : outcome (nat * list Entry) :=
  let stripped := strip line in
  if startswith stripped (lit "old ") then
    let '(i1, entries1) :=
      match _extract_quoted_robust line with
      | Some source =>
          match scan_new (skipn (i + 1) lines) (i + 1) with
          | Found j translated =>
              (j, entries ++ [mkEntry source translated j fmt_old_new None])
          | Broke _ | Exhausted => (i, entries)
          end
      | None => (i, entries)
      end in
    let i2 := (i1 + 1)%nat in          (* line 123 *)
    Ok ((i2 + 1)%nat, entries1)        (* line 182 *)
  else if matches COMMENT_TRANSLATION_START_PATTERN stripped then
    match _find_next_relevant_line lines (i + 1) with
    | Some (code_line_num, code_line) =>
        let code_stripped := strip code_line in
        let potential_source_line := lstrip (split1_last hash line) in
        let comment_source := comment_source_of line in
        let code_text := _extract_quoted_robust code_line in
        match comment_source, code_text with
        | Some comment_source, Some code_text =>
            ft <- classify (split1_last hash line) potential_source_line
                    code_stripped ;;
            match ft with
            | (Some format_type, tag) =>
                Ok ((code_line_num + 1)%nat,
                    entries ++ [mkEntry comment_source code_text
                                  code_line_num format_type tag])
            | (None, _) => Ok ((i + 1)%nat, entries)
            end
        | _, _ => Ok ((i + 1)%nat, entries)
        end
    | None => Ok ((i + 1)%nat, entries)
    end
  else Ok ((i + 1)%nat, entries).

(** The [while i < len(lines)] loop (lines 88-182). *)
Fixpoint while_loop (fuel : nat) (lines : list str) (i : nat)
  (entries : list Entry) : outcome (list Entry) :=
  match nth_error lines i with
  | None => Ok entries
  | Some line =>
      match fuel with
      | O => OutOfFuel
      | S fuel' =>
          st <- loop_body lines i line entries ;;
          while_loop fuel' lines (fst st) (snd st)
      end
  end.

(** Lines 86-182 of [on_read_source]: the entries of the decoded lines. *)
Definition read_entries (lines : list str) : outcome (list Entry) :=
  while_loop (List.length lines) lines 0%nat [].

(** Lines 185-196: each entry is wrapped as a cache item. *)
Record Extra : Type := mkExtra {
  extra_new_line_num : nat;
  extra_format_type : FormatType;
  extra_tag : option str
}.

Record CacheItem : Type := mkCacheItem {
  source_text : str;
  translated_text : str;
  extra : Extra
}.

Definition to_item (entry : Entry) : CacheItem :=
  mkCacheItem (source entry) (translated entry)
    (mkExtra (new_line_num entry) (format_type entry) (tag entry)).

Definition on_read_source (lines : list str) : outcome (list CacheItem) :=
  entries <- read_entries lines ;;
  Ok (map to_item entries).

End RenpyReader.

Import PyStr Re RenpyReader.

(** * Verification *)

(** ** Vocabulary of the statements *)

(** Whether every match of the pattern goes through its capturing group. *)
Fixpoint captures (r : regex) : bool :=
  match r with
  | Group _ => true
  | Seq r1 r2 => (captures r1 || captures r2)%bool
  | _ => false
  end.

(** What one turn of the [while] loop at cursor [i], leaving it at [i'],
    may add to [entries]: nothing, or one entry whose target line lies
    strictly between the two cursors and inside the [n] input lines. *)
Definition emitted_ok (i i' n : nat) (new : list Entry) : Prop :=
  new = [] \/
  exists e, new = [e] /\ (i < new_line_num e < i')%nat
            /\ (new_line_num e < n)%nat.

(** The target lines of a list of entries. *)
Definition targets (entries : list Entry) : list nat :=
  map new_line_num entries.

(** Building the text of an example line: [quoted x] is [x] between quotes. *)
Definition quoted (x : string) : str := dquote :: lit x ++ [dquote].

(** A block boundary, as the lookahead recognises it (line 70). *)
Definition is_boundary (line : str) : bool :=
  startswith (strip line) (lit "translate ").

(** The shapes of line the loops tell apart (lines 93, 101, 126 and 75),
    and the test of line 140. *)
Definition is_old_line (line : str) : bool :=
  startswith (strip line) (lit "old ").

Definition is_new_line (line : str) : bool :=
  startswith (strip line) (lit "new ").

Definition is_comment_line (line : str) : bool :=
  matches COMMENT_TRANSLATION_START_PATTERN (strip line).

Definition is_code_candidate (line : str) : bool :=
  matches CODE_TRANSLATION_START_PATTERN (strip line).

Definition is_metadata_comment (line : str) : bool :=
  let content := lstrip (split1_last hash line) in
  (startswith content (lit "game/") || startswith content (lit "renpy/"))%bool.

(** A line the inner scan of the [old] branch steps over: a [new] line
    without a quoted span, or a line of none of the four shapes. *)
Definition stepped_over (line : str) : Prop :=
  (is_new_line line = true /\ _extract_quoted_robust line = None)
  \/ (is_new_line line = false /\ is_old_line line = false
      /\ is_comment_line line = false /\ is_code_candidate line = false).

(** A line the lookahead steps over. *)
Definition looked_past (line : str) : Prop :=
  is_boundary line = false /\ is_code_candidate line = false.

(** The run of the [while] loop from cursor [i], as the list of entries it
    emits: each turn is [loop_body] on the line under the cursor. *)
Inductive parse_from (lines : list str) : nat -> list Entry -> Prop :=
| parse_done (i : nat) :
    nth_error lines i = None -> parse_from lines i []
| parse_turn (i : nat) (line : str) (i' : nat) (new rest : list Entry) :
    nth_error lines i = Some line ->
    loop_body lines i line [] = Ok (i', new) ->
    parse_from lines i' rest ->
    parse_from lines i (new ++ rest).

(** Where an [old_new] entry comes from: an [old] line [t] holding the
    source, the [new] line holding the translation, and only lines the scan
    steps over in between. *)
Definition old_new_origin (lines : list str) (t : nat) (e : Entry) : Prop :=
  exists tl cl,
    (t < new_line_num e)%nat
    /\ nth_error lines t = Some tl
    /\ nth_error lines (new_line_num e) = Some cl
    /\ is_old_line tl = true
    /\ _extract_quoted_robust tl = Some (source e)
    /\ is_new_line cl = true
    /\ _extract_quoted_robust cl = Some (translated e)
    /\ format_type e = fmt_old_new /\ tag e = None
    /\ forall m l, (t < m < new_line_num e)%nat ->
                   nth_error lines m = Some l -> stepped_over l.

(** Where an entry of a comment format comes from: a comment line [t]
    that is no metadata comment and holds the source, the first code
    candidate after it, which holds the translation, no boundary in
    between, and the format and tag that lines 150-168 give the pair. *)
Definition comment_origin (lines : list str) (t : nat) (e : Entry) : Prop :=
  exists tl cl,
    (t < new_line_num e)%nat
    /\ nth_error lines t = Some tl
    /\ nth_error lines (new_line_num e) = Some cl
    /\ is_old_line tl = false
    /\ is_comment_line tl = true
    /\ is_metadata_comment tl = false
    /\ _extract_quoted_robust tl = Some (source e)
    /\ is_boundary cl = false
    /\ is_code_candidate cl = true
    /\ _extract_quoted_robust cl = Some (translated e)
    /\ classify (split1_last hash tl) (lstrip (split1_last hash tl))
         (strip cl) = Ok (Some (format_type e), tag e)
    /\ forall m l, (t < m < new_line_num e)%nat ->
                   nth_error lines m = Some l -> looked_past l.

Definition entry_origin (lines : list str) (e : Entry) : Prop :=
  exists t, old_new_origin lines t e \/ comment_origin lines t e.

(** The line an entry takes its source from: an [old] line for the
    [old_new] format, otherwise a comment line that is no metadata
    comment; it stands before the target. *)
Definition has_trigger (lines : list str) (t : nat) (e : Entry) : Prop :=
  (t < new_line_num e)%nat
  /\ exists tl,
       nth_error lines t = Some tl
       /\ _extract_quoted_robust tl = Some (source e)
       /\ ((format_type e = fmt_old_new /\ is_old_line tl = true)
           \/ (format_type e <> fmt_old_new /\ is_old_line tl = false
               /\ is_comment_line tl = true
               /\ is_metadata_comment tl = false)).

(** The pairs of a list of entries follow each other in the input: each
    trigger is at or after [from], and after the target before it. *)
Fixpoint pairs_in_order (lines : list str) (from : nat)
  (entries : list Entry) : Prop :=
  match entries with
  | [] => True
  | e :: rest =>
      (exists t, (from <= t)%nat /\ has_trigger lines t e)
      /\ pairs_in_order lines (S (new_line_num e)) rest
  end.

(** The shape of a tag: a letter, then word characters, whitespace or
    [@], with no whitespace at either end. *)
Definition tag_shaped (tg : str) : Prop :=
  (exists x w, tg = x :: w /\ is_letter x = true
               /\ Forall (fun c => tag_char c = true) w)
  /\ strip tg = tg.

(** Whitespace only: the indentation of a line, or what trails it. *)
Definition all_space (ws : str) : Prop :=
  Forall (fun c => is_space c = true) ws.

(** A line on which the inner scan of the [old] branch stops without a
    pair (lines 115-118). *)
Definition ends_scan (line : str) : Prop :=
  is_new_line line = false
  /\ (is_old_line line || is_comment_line line || is_code_candidate line)%bool
     = true.

(** A line of the input with its parts: indentation [ws], what stands
    before the quoted text ([p]: a keyword, a tag, a hash sign), the text
    [a] between quotes, and trailing whitespace [ws']. *)
Definition framed (ws p a ws' : str) : str :=
  ws ++ p ++ dquote :: a ++ dquote :: ws'.

Definition head_not_space (p : str) : Prop :=
  match p with
  | [] => True
  | x :: _ => is_space x = false
  end.

(** A tagged text and its tag part [g]: leading whitespace, a letter and
    tag characters (these make [g]), one more whitespace character, and
    a quote. *)
Definition tagged_text (s g : str) : Prop :=
  exists ws x u sp rest,
    s = ws ++ x :: u ++ sp :: dquote :: rest
    /\ all_space ws /\ is_letter x = true
    /\ Forall (fun c => tag_char c = true) u
    /\ is_space sp = true /\ g = x :: u.

(** ** How a call ends

    A call of the limiter's or of the cache item's code returns a value
    or raises an exception. *)

Module Py.

Inductive exn : Type :=
| AttributeError
| KeyError
| TypeError
| ValueError
| OtherError (id : nat).   (* an exception of any other class *)

Inductive result (A : Type) : Type :=
| Returns (a : A)
| Raises (e : exn).
Arguments Returns {A} a.
Arguments Raises {A} e.

End Py.

(** ** The tokenizer

    [tiktoken] is taken as given: an encoding is what [encoding.encode]
    gives for each text, the list of tokens or the exception raised
    ([ValueError] for a text that holds a special token, such as the
    end-of-text marker). *)

Module Tiktoken.
Import PyStr.

Definition Encoding : Type := str -> Py.result (list nat).

(** [len(encoding.encode(text))]. *)
Definition len_encode (encoding : Encoding) (text : str) : Py.result nat :=
  match encoding text with
  | Py.Returns tokens => Py.Returns (List.length tokens)
  | Py.Raises e => Py.Raises e
  end.

End Tiktoken.

(** ** The request limiter (Module_Folders/Request_Limiter/Request_limit.py)

    The numbers of the limiter (token counts, rates, times read from the
    clock) are Python numbers; their arithmetic is taken as given: a type
    with the operations the code uses.  The lock and the configurator
    hold no number and are left out; the clock is read by the caller of
    the model and passed in. *)

Module RequestLimiter.

Record Numbers : Type := {
  num : Type;
  zero : num;
  sixty : num;
  add : num -> num -> num;
  sub : num -> num -> num;
  mul : num -> num -> num;
  div : num -> num -> num;          (* a / b for b that is not zero *)
  lt : num -> num -> bool;          (* a < b *)
  is_zero : num -> bool             (* b == 0, when a / b raises *)
}.

Section Limiter.

Context {N : Numbers}.

Record Request_Limiter : Type := mkLimiter {
  max_tokens : num N;
  remaining_tokens : num N;
  tokens_rate : num N;
  last_time : num N;
  last_request_time : num N;
  request_interval : num N
}.

(** [__init__] (lines 13-26); [now] is [time.time()]. *)
Definition init (now : num N) : Request_Limiter :=
  mkLimiter (zero N) (zero N) (zero N) now (zero N) (zero N).

(** How a method that may raise ends, with the object as it then is. *)
Inductive ended : Type :=
| Returned (self : Request_Limiter)
| ZeroDivisionError (self : Request_Limiter).

(** [a / b]: raises when [b] is zero. *)
Definition py_div (a b : num N) : option (num N) :=
  if is_zero N b then None else Some (div N a b).

(** [min(a, b)]: [b] when [b < a], otherwise [a]. *)
Definition py_min (a b : num N) : num N := if lt N b a then b else a.

(** [set_limit] (lines 30-43). *)
Definition set_limit (self : Request_Limiter) (max_tokens' TPM RPM : num N)
  : ended :=
  let TPs := div N TPM (sixty N) in
  match py_div (sixty N) RPM with
  | None => ZeroDivisionError self
  | Some request_interval' =>
      Returned
        (mkLimiter max_tokens' max_tokens' TPs (last_time self)
           (last_request_time self) request_interval')
  end.

(** [RPM_limit] (lines 46-55); [current_time] is [time.time()]. *)
Definition RPM_limit (self : Request_Limiter) (current_time : num N)
  : bool * Request_Limiter :=
  let time_since_last_request := sub N current_time (last_request_time self) in
  if lt N time_since_last_request (request_interval self)
  then (false, self)
  else (true,
        mkLimiter (max_tokens self) (remaining_tokens self)
          (tokens_rate self) (last_time self) current_time
          (request_interval self)).

(** [TPM_limit] (lines 59-70); [now] is [time.time()]. *)
Definition TPM_limit (self : Request_Limiter) (now tokens : num N)
  : bool * Request_Limiter :=
  let tokens_to_add := mul N (sub N now (last_time self)) (tokens_rate self) in
  let remaining :=
    py_min (max_tokens self) (add N (remaining_tokens self) tokens_to_add) in
  let self' :=
    mkLimiter (max_tokens self) remaining (tokens_rate self) now
      (last_request_time self) (request_interval self) in
  if lt N remaining tokens then (false, self') else (true, self').

(** [RPM_and_TPM_limit] (lines 72-78); the clock is read once in
    [RPM_limit] ([t1]) and once in [TPM_limit] ([t2]). *)
Definition RPM_and_TPM_limit (self : Request_Limiter) (t1 t2 tokens : num N)
  : bool * Request_Limiter :=
  let (ok1, self1) := RPM_limit self t1 in
  if ok1 then
    let (ok2, self2) := TPM_limit self1 t2 tokens in
    if ok2 then
      (true,
       mkLimiter (max_tokens self2) (sub N (remaining_tokens self2) tokens)
         (tokens_rate self2) (last_time self2) (last_request_time self2)
         (request_interval self2))
    else (false, self2)
  else (false, self1).

End Limiter.

(** *** Counting tokens (lines 83-110)

    What loading an encoding gives is taken as given, like the encodings
    themselves.  The warning printed at line 88 is left out. *)

Section Tokens.

Import PyStr.

(** The value of a message field: a [str], or anything else. *)
Inductive value : Type :=
| VStr (s : str)
| VOther.

(** A message: the items of a dict, in order. *)
Definition message : Type := list (str * value).

(** [tiktoken.encoding_for_model("gpt-3.5-turbo")] and
    [tiktoken.get_encoding("cl100k_base")]. *)
Variable encoding_for_model : Py.result Tiktoken.Encoding.
Variable get_encoding : Py.result Tiktoken.Encoding.

Definition tokens_per_message : nat := 3.
Definition tokens_per_name : nat := 1.

(** The inner [for key, value in message.items()] loop. *)
Fixpoint count_items (encoding : Tiktoken.Encoding) (items : message)
  (num_tokens : nat) : Py.result nat :=
  match items with
  | [] => Py.Returns num_tokens
  | (key, value) :: items' =>
      match
        match value with
        | VStr s =>
            match Tiktoken.len_encode encoding s with
            | Py.Returns n => Py.Returns (num_tokens + n)%nat
            | Py.Raises e => Py.Raises e
            end
        | VOther => Py.Returns num_tokens
        end
      with
      | Py.Raises e => Py.Raises e
      | Py.Returns num_tokens =>
          let num_tokens :=
            if str_eqb key (lit "name")
            then (num_tokens + tokens_per_name)%nat
            else num_tokens in
          count_items encoding items' num_tokens
      end
  end.

(** The outer [for message in messages] loop. *)
Fixpoint count_messages (encoding : Tiktoken.Encoding) (messages : list message)
  (num_tokens : nat) : Py.result nat :=
  match messages with
  | [] => Py.Returns num_tokens
  | message :: messages' =>
      match count_items encoding message
              (num_tokens + tokens_per_message)%nat with
      | Py.Raises e => Py.Raises e
      | Py.Returns num_tokens => count_messages encoding messages' num_tokens
      end
  end.

(** Lines 85-89: the encoding of the model, or [cl100k_base] when looking
    the model up raises [KeyError]; any other exception goes on. *)
Definition chosen_encoding : Py.result Tiktoken.Encoding :=
  match encoding_for_model with
  | Py.Raises Py.KeyError => get_encoding
  | r => r
  end.

Definition num_tokens_from_messages (messages : list message)
  : Py.result nat :=
  match chosen_encoding with
  | Py.Raises e => Py.Raises e
  | Py.Returns encoding =>
      match count_messages encoding messages 0 with
      | Py.Raises e => Py.Raises e
      | Py.Returns num_tokens => Py.Returns (num_tokens + 3)%nat
      end
  end.

Definition num_tokens_from_string (string : str) : Py.result nat :=
  match get_encoding with
  | Py.Raises e => Py.Raises e
  | Py.Returns encoding => Tiktoken.len_encode encoding string
  end.

End Tokens.

End RequestLimiter.

(** The rationals as numbers: an interpretation to compute examples
    with. *)
Definition rationals : RequestLimiter.Numbers :=
  {| RequestLimiter.num := QArith_base.Q;
     RequestLimiter.zero := QArith_base.Qmake 0 1;
     RequestLimiter.sixty := QArith_base.Qmake 60 1;
     RequestLimiter.add := QArith_base.Qplus;
     RequestLimiter.sub := QArith_base.Qminus;
     RequestLimiter.mul := QArith_base.Qmult;
     RequestLimiter.div := QArith_base.Qdiv;
     RequestLimiter.lt := fun a b => negb (QArith_base.Qle_bool b a);
     RequestLimiter.is_zero :=
       fun a => QArith_base.Qeq_bool a (QArith_base.Qmake 0 1) |}.

(** A limiter of capacity 100 holding 10 tokens, refilled by 1 token a
    second, with 2 seconds between requests, at time 0. *)
Definition example_limiter : @RequestLimiter.Request_Limiter rationals :=
  @RequestLimiter.mkLimiter rationals (QArith_base.Qmake 100 1)
    (QArith_base.Qmake 10 1) (QArith_base.Qmake 1 1)
    (QArith_base.Qmake 0 1) (QArith_base.Qmake 0 1)
    (QArith_base.Qmake 2 1).

(** The bucket as [TPM_limit] refills it at time [now] (line 61). *)
Definition refilled {N : RequestLimiter.Numbers}
  (self : RequestLimiter.Request_Limiter) (now : RequestLimiter.num N)
  : RequestLimiter.num N :=
  RequestLimiter.py_min (RequestLimiter.max_tokens self)
    (RequestLimiter.add N (RequestLimiter.remaining_tokens self)
       (RequestLimiter.mul N
          (RequestLimiter.sub N now (RequestLimiter.last_time self))
          (RequestLimiter.tokens_rate self))).

(** ** The cache item (Module_Folders/Cache/CacheItem.py)

    An object is its attribute dict ([vars(self)]), in insertion order;
    the class attribute [token_cache], shared by all items, is passed in
    and out.  Calls follow one another (no two threads are inside a
    method at once), and the lock of an item is free when a method is
    entered. *)

Module CacheItem.
Import PyStr.

(** The values an item is made from: what a JSON document holds, tuples,
    and locks.  The keys of a dict are [str]s.  Every list and dict is an
    object of its own: no object is held twice. *)
#[warnings="-register-all"]
Inductive pyval : Type :=
| PNone
| PBool (b : bool)
| PInt (z : Z)
| PFloat (bits : N)           (* a float, by its 64 bits *)
| PStr (s : str)
| PList (items : list pyval)
| PTuple (items : list pyval)
| PDict (items : list (str * pyval))
| PLock.                      (* a [threading.Lock()] *)

Definition pydict (V : Type) : Type := list (str * V).

(** [d[k]] / [getattr]: the value under [k], if any. *)
Fixpoint lookup {V : Type} (d : pydict V) (k : str) : option V :=
  match d with
  | [] => None
  | (k', v) :: d' => if str_eqb k' k then Some v else lookup d' k
  end.

(** [d[k] = v]: replaces the value where [k] stands, or adds the item at
    the end. *)
Fixpoint store {V : Type} (d : pydict V) (k : str) (v : V) : pydict V :=
  match d with
  | [] => [(k, v)]
  | (k', v') :: d' =>
      if str_eqb k' k then (k', v) :: d' else (k', v') :: store d' k v
  end.

(** [setattr(self, k, v)] on an item.  The class and [object] hold three
    data descriptors, which stand before the attribute dict: [__class__]
    takes a class only, and no value is one; [__weakref__] cannot be
    written; [__dict__] takes a dict, which becomes the attribute dict of
    the item.  Any other name is stored in the attribute dict. *)
Definition setattr (self : pydict pyval) (k : str) (v : pyval)
  : Py.result (pydict pyval) :=
  if str_eqb k (lit "__class__") then Py.Raises Py.TypeError
  else if str_eqb k (lit "__weakref__") then Py.Raises Py.AttributeError
  else if str_eqb k (lit "__dict__") then
    match v with
    | PDict items => Py.Returns items
    | _ => Py.Raises Py.TypeError
    end
  else Py.Returns (store self k v).

(** The defaults of lines 21-28, in order. *)
Definition defaults : pydict pyval :=
  [(lit "row_index", PInt 0); (lit "text_index", PInt 0);
   (lit "translation_status", PInt 0); (lit "model", PStr []);
   (lit "source_text", PStr []); (lit "translated_text", PStr []);
   (lit "file_name", PStr []); (lit "storage_path", PStr [])].

(** The loop of lines 31-32. *)
Fixpoint set_all (self args : pydict pyval) : Py.result (pydict pyval) :=
  match args with
  | [] => Py.Returns self
  | (k, v) :: args' =>
      match setattr self k v with
      | Py.Raises e => Py.Raises e
      | Py.Returns self' => set_all self' args'
      end
  end.

(** [__init__] (lines 17-38): the new object, and the class's
    [token_cache], which line 38 sets to the empty dict; when the loop
    raises, line 38 is not reached. *)
Definition init (args : pydict pyval) (token_cache : pydict nat)
  : Py.result (pydict pyval) * pydict nat :=
  match set_all defaults args with
  | Py.Raises e => (Py.Raises e, token_cache)
  | Py.Returns self => (Py.Returns (store self (lit "lock") PLock), [])
  end.

(** [item.name(...)]: an attribute of the item called [name] stands
    before the method of the class, and no value can be called. *)
Definition call {A : Type} (self : pydict pyval) (name : str)
  (method : Py.result A) : Py.result A :=
  match lookup self name with
  | Some _ => Py.Raises Py.TypeError
  | None => method
  end.

(** [with self.lock:].  A value that is no lock is no context manager
    ([TypeError] as of Python 3.11). *)
Definition with_lock {A : Type} (self : pydict pyval)
  (body : Py.result A) : Py.result A :=
  match lookup self (lit "lock") with
  | None => Py.Raises Py.AttributeError
  | Some PLock => body
  | Some _ => Py.Raises Py.TypeError
  end.

(** [isinstance(v, (int, str, bool, float, list, dict, tuple))]. *)
Definition is_plain (v : pyval) : bool :=
  match v with
  | PNone | PLock => false
  | _ => true
  end.

(** Whether [hash(v)] returns: lists and dicts have no hash, a tuple has
    one when its items have. *)
Fixpoint hashable (v : pyval) : bool :=
  match v with
  | PList _ | PDict _ => false
  | PTuple items => forallb hashable items
  | _ => true
  end.

(** [get_vars] (lines 45-50). *)
Definition get_vars (self : pydict pyval) : Py.result (pydict pyval) :=
  call self (lit "get_vars")
    (Py.Returns (filter (fun kv => is_plain (snd kv)) self)).

(** [get_source_text] and [set_source_text] (lines 93-101); the other
    getters and setters differ in the name of the attribute only. *)
Definition get_source_text (self : pydict pyval) : Py.result pyval :=
  call self (lit "get_source_text")
    (with_lock self
       match lookup self (lit "source_text") with
       | Some v => Py.Returns v
       | None => Py.Raises Py.AttributeError
       end).

Definition set_source_text (self : pydict pyval) (source_text : pyval)
  : Py.result (pydict pyval) :=
  call self (lit "set_source_text")
    (with_lock self (Py.Returns (store self (lit "source_text") source_text))).

Section TokenCount.

(** [tiktoken.get_encoding("cl100k_base")]. *)
Variable get_encoding : Py.result Tiktoken.Encoding.

(** [get_token_count] (lines 133-138): what the call returns or raises,
    and the class's [token_cache] after it.  The keys of the cache are
    [str]s, so a [source_text] of another type is not in it: it has no
    hash, or the tokenizer, which takes a [str] only, refuses it. *)
Definition get_token_count (self : pydict pyval) (token_cache : pydict nat)
  : Py.result nat * pydict nat :=
  match call self (lit "get_token_count")
          (with_lock self (Py.Returns tt)) with
  | Py.Raises e => (Py.Raises e, token_cache)
  | Py.Returns _ =>
      match lookup self (lit "source_text") with
      | None => (Py.Raises Py.AttributeError, token_cache)
      | Some (PStr source_text) =>
          match lookup token_cache source_text with
          | Some n => (Py.Returns n, token_cache)
          | None =>
              match get_encoding with
              | Py.Raises e => (Py.Raises e, token_cache)
              | Py.Returns encoding =>
                  match Tiktoken.len_encode encoding source_text with
                  | Py.Raises e => (Py.Raises e, token_cache)
                  | Py.Returns n =>
                      let token_cache := store token_cache source_text n in
                      match lookup token_cache source_text with
                      | Some n => (Py.Returns n, token_cache)
                      | None => (Py.Raises Py.KeyError, token_cache)
                      end
                  end
              end
          end
      | Some v =>
          if hashable v then
            match get_encoding with
            | Py.Raises e => (Py.Raises e, token_cache)
            | Py.Returns _ => (Py.Raises Py.TypeError, token_cache)
            end
          else (Py.Raises Py.TypeError, token_cache)
      end
  end.

End TokenCount.

End CacheItem.

(** The names [setattr] does not store in the attribute dict. *)
Definition is_special (k : str) : bool :=
  (str_eqb k (lit "__class__") || str_eqb k (lit "__weakref__")
   || str_eqb k (lit "__dict__"))%bool.

(** The exception [setattr(self, k, v)] raises on an item, if any. *)
Definition refusal (k : str) (v : CacheItem.pyval) : option Py.exn :=
  if str_eqb k (lit "__class__") then Some Py.TypeError
  else if str_eqb k (lit "__weakref__") then Some Py.AttributeError
  else if str_eqb k (lit "__dict__") then
    match v with
    | CacheItem.PDict _ => None
    | _ => Some Py.TypeError
    end
  else None.

Definition accepted (kv : str * CacheItem.pyval) : Prop :=
  refusal (fst kv) (snd kv) = None.

(** The tokenizer gives [n] tokens for [text]; the tokenizer raises [e]
    on [text], when the encoding is loaded or when the text is
    encoded. *)
Definition counts (get_encoding : Py.result Tiktoken.Encoding)
  (text : str) (n : nat) : Prop :=
  exists encoding tokens,
    get_encoding = Py.Returns encoding
    /\ encoding text = Py.Returns tokens
    /\ n = List.length tokens.

Definition tokenizer_raises (get_encoding : Py.result Tiktoken.Encoding)
  (text : str) (e : Py.exn) : Prop :=
  get_encoding = Py.Raises e
  \/ exists encoding,
       get_encoding = Py.Returns encoding /\ encoding text = Py.Raises e.

(** A token cache holds, under a text, the count the tokenizer gives
    for it. *)
Definition cache_sound (get_encoding : Py.result Tiktoken.Encoding)
  (token_cache : CacheItem.pydict nat) : Prop :=
  forall text n,
    CacheItem.lookup token_cache text = Some n ->
    counts get_encoding text n.

(** The states the class's token cache can be in: emptied by a call of
    [__init__], or left by a call of [get_token_count]. *)
Inductive cache_reached (get_encoding : Py.result Tiktoken.Encoding)
  : CacheItem.pydict nat -> Prop :=
| reached_by_init : cache_reached get_encoding []
| reached_by_count (self : CacheItem.pydict CacheItem.pyval)
    (token_cache token_cache' : CacheItem.pydict nat)
    (r : Py.result nat) :
    cache_reached get_encoding token_cache ->
    CacheItem.get_token_count get_encoding self token_cache
    = (r, token_cache') ->
    cache_reached get_encoding token_cache'.

(** What a call of [get_token_count] on an item whose text is [text]
    may end in, from the cache [token_cache]: the tokenizer's count, with
    the text in the cache afterwards; or the tokenizer's exception, for a
    text that was not in the cache, which is left as it was. *)
Definition count_outcome (get_encoding : Py.result Tiktoken.Encoding)
  (text : str) (token_cache : CacheItem.pydict nat)
  (r : Py.result nat * CacheItem.pydict nat) : Prop :=
  match r with
  | (Py.Returns n, token_cache') =>
      counts get_encoding text n
      /\ CacheItem.lookup token_cache' text = Some n
  | (Py.Raises e, token_cache') =>
      token_cache' = token_cache
      /\ CacheItem.lookup token_cache text = None
      /\ tokenizer_raises get_encoding text e
  end.

(** A toy tokenizer to compute examples with: one token for each
    character, and [ValueError] for the end-of-text marker. *)
Definition example_encoding : Tiktoken.Encoding :=
  fun text =>
    if str_eqb text (lit "<|endoftext|>") then Py.Raises Py.ValueError
    else Py.Returns (map nat_of_ascii text).

(** The item [CacheItem({"source_text": text})]. *)
Definition example_item (text : str) : CacheItem.pydict CacheItem.pyval :=
  [(lit "row_index", CacheItem.PInt 0); (lit "text_index", CacheItem.PInt 0);
   (lit "translation_status", CacheItem.PInt 0);
   (lit "model", CacheItem.PStr []);
   (lit "source_text", CacheItem.PStr text);
   (lit "translated_text", CacheItem.PStr []);
   (lit "file_name", CacheItem.PStr []);
   (lit "storage_path", CacheItem.PStr []);
   (lit "lock", CacheItem.PLock)].

(** Two lines with the same text between their leading and trailing
    whitespace. *)
Definition same_text (l l' : str) : Prop := strip l = strip l'.

(** ** Translation files as Ren'Py writes them

    A line that takes no part in a pair: neither an [old] line nor a
    comment line. *)
Definition inert (l : str) : Prop :=
  is_old_line l = false /\ is_comment_line l = false.

(** What is said in a dialogue block: a comment line with the source and
    a code line with the translation, both with the same tag, or both
    without a tag. *)
Inductive said : Type :=
| Tagged (tg ws1 wsm sps1 : str) (sp1 : ascii) (a ws1' : str)
    (ws2 sps2 : str) (sp2 : ascii) (b ws2' : str)
| Plain (ws1 wsm a ws1' ws2 b ws2' : str).

Definition said_comment (s : said) : str :=
  match s with
  | Tagged tg ws1 wsm sps1 sp1 a ws1' _ _ _ _ _ =>
      framed ws1 (hash :: wsm ++ tg ++ sps1 ++ [sp1]) a ws1'
  | Plain ws1 wsm a ws1' _ _ _ => framed ws1 (hash :: wsm) a ws1'
  end.

Definition said_code (s : said) : str :=
  match s with
  | Tagged tg _ _ _ _ _ _ ws2 sps2 sp2 b ws2' =>
      framed ws2 (tg ++ sps2 ++ [sp2]) b ws2'
  | Plain _ _ _ _ ws2 b ws2' => framed ws2 [] b ws2'
  end.

Definition said_entry (s : said) (target : nat) : Entry :=
  match s with
  | Tagged tg _ _ _ _ a _ _ _ _ b _ =>
      mkEntry a b target fmt_comment_tag (Some tg)
  | Plain _ _ a _ _ b _ => mkEntry a b target fmt_comment_no_tag None
  end.

Definition said_ok (s : said) : Prop :=
  match s with
  | Tagged tg ws1 wsm sps1 sp1 _ ws1' ws2 sps2 sp2 _ ws2' =>
      tag_shaped tg
      /\ all_space ws1 /\ all_space wsm /\ all_space sps1
      /\ is_space sp1 = true /\ all_space ws1'
      /\ all_space ws2 /\ all_space sps2
      /\ is_space sp2 = true /\ all_space ws2'
      /\ is_boundary (said_code s) = false
  | Plain ws1 wsm _ ws1' ws2 _ ws2' =>
      all_space ws1 /\ all_space wsm /\ all_space ws1'
      /\ all_space ws2 /\ all_space ws2'
  end.

(** A dialogue block: a line that is no [old] line (the comment naming
    the place in the script), the [translate] header, a line that takes
    no part (a blank line), what is said, and one more such line. *)
Record dialogue_block : Type := mkDialogue {
  d_place : str;
  d_header : str;
  d_blank : str;
  d_said : said;
  d_end : str
}.

Definition dialogue_lines (d : dialogue_block) : list str :=
  [d_place d; d_header d; d_blank d; said_comment (d_said d);
   said_code (d_said d); d_end d].

Definition dialogue_ok (d : dialogue_block) : Prop :=
  is_old_line (d_place d) = false
  /\ is_boundary (d_header d) = true
  /\ inert (d_blank d) /\ said_ok (d_said d) /\ inert (d_end d).

Fixpoint dialogue_entries (base : nat) (ds : list dialogue_block)
  : list Entry :=
  match ds with
  | [] => []
  | d :: ds' =>
      said_entry (d_said d) (base + 4) :: dialogue_entries (base + 6) ds'
  end.

(** A block of the strings part: a line that takes no part (a blank
    line), a metadata comment naming the place in the script, the [old]
    line and the [new] line. *)
Record strings_block : Type := mkStrings {
  s_blank : str;
  s_place : str;
  s_old_indent : str;
  s_source : str;
  s_old_trail : str;
  s_new_indent : str;
  s_translated : str;
  s_new_trail : str
}.

Definition strings_lines (b : strings_block) : list str :=
  [s_blank b; s_place b;
   framed (s_old_indent b) (lit "old ") (s_source b) (s_old_trail b);
   framed (s_new_indent b) (lit "new ") (s_translated b) (s_new_trail b)].

Definition strings_ok (b : strings_block) : Prop :=
  inert (s_blank b)
  /\ is_old_line (s_place b) = false
  /\ is_comment_line (s_place b) = true
  /\ is_metadata_comment (s_place b) = true
  /\ all_space (s_old_indent b) /\ all_space (s_old_trail b)
  /\ all_space (s_new_indent b) /\ all_space (s_new_trail b).

Fixpoint strings_entries (base : nat) (bs : list strings_block)
  : list Entry :=
  match bs with
  | [] => []
  | b :: bs' =>
      mkEntry (s_source b) (s_translated b) (base + 3) fmt_old_new None
      :: strings_entries (base + 4) bs'
  end.

(** A translation file: dialogue blocks, then the header of the strings
    part and its blocks. *)
Definition translation_file (ds : list dialogue_block) (header : str)
  (bs : list strings_block) : list str :=
  List.concat (map dialogue_lines ds)
  ++ header :: List.concat (map strings_lines bs).

(** A small translation file: a tagged line, a narration line and one
    string. *)
Definition example_dialogue : list dialogue_block :=
  [mkDialogue (lit "# game/script.rpy:10")
     (lit "translate french start_a1b2c3:") (lit "")
     (Tagged (lit "e happy") (lit "    ") (lit " ") [] " "%char
        (lit "Hello!") [] (lit "    ") [] " "%char (lit "Bonjour !") [])
     (lit "");
   mkDialogue (lit "# game/script.rpy:12")
     (lit "translate french start_d4e5f6:") (lit "")
     (Plain (lit "    ") (lit " ") (lit "It rains.") [] (lit "    ")
        (lit "Il pleut.") [])
     (lit "")].

Definition example_strings : list strings_block :=
  [mkStrings (lit "") (lit "    # game/screens.rpy:5") (lit "    ")
     (lit "Start") [] (lit "    ") (lit "Commencer") []].


(** ** Facts about the string primitives *)

Section StrFacts.

Variable c : ascii.

Lemma find_from_absent (s : str) (k : Z) :
  ~ In c s -> find_from c s k = -1.
Proof.
  revert k; induction s as [|x t IH]; intros k Hn; simpl; [reflexivity|].
  destruct (Ascii.eqb_spec x c) as [->|_].
  - exfalso; apply Hn; now left.
  - apply IH; intro Hin; apply Hn; now right.
Qed.

Lemma find_from_first (pre rest : str) (k : Z) :
  ~ In c pre -> find_from c (pre ++ c :: rest) k = k + len pre.
Proof.
  revert k; induction pre as [|x t IH]; intros k Hn; simpl.
  - rewrite Ascii.eqb_refl; unfold len; simpl; lia.
  - destruct (Ascii.eqb_spec x c) as [->|_].
    + exfalso; apply Hn; now left.
    + rewrite IH by (intro Hin; apply Hn; now right).
      unfold len; simpl List.length; lia.
Qed.

Lemma rfind_from_absent (s : str) (k last : Z) :
  ~ In c s -> rfind_from c s k last = last.
Proof.
  revert k last; induction s as [|x t IH]; intros k last Hn; simpl;
    [reflexivity|].
  destruct (Ascii.eqb_spec x c) as [->|_].
  - exfalso; apply Hn; now left.
  - apply IH; intro Hin; apply Hn; now right.
Qed.

Lemma rfind_from_app (a b : str) (k last : Z) :
  rfind_from c (a ++ b) k last
  = rfind_from c b (k + len a) (rfind_from c a k last).
Proof.
  revert k last; induction a as [|x t IH]; intros k last; simpl.
  - unfold len; simpl; now rewrite Z.add_0_r.
  - rewrite IH; f_equal. unfold len; simpl List.length; lia.
Qed.

Lemma rfind_from_last (pre post : str) (k last : Z) :
  ~ In c post -> rfind_from c (pre ++ c :: post) k last = k + len pre.
Proof.
  intro Hn. rewrite rfind_from_app. simpl.
  rewrite Ascii.eqb_refl. now apply rfind_from_absent.
Qed.

End StrFacts.

Lemma len_app (a b : str) : len (a ++ b) = len a + len b.
Proof. unfold len; rewrite length_app; lia. Qed.

Lemma len_cons (x : ascii) (a : str) : len (x :: a) = 1 + len a.
Proof. unfold len; simpl List.length; lia. Qed.

Lemma len_nonneg (a : str) : 0 <= len a.
Proof. unfold len; lia. Qed.

(** The slice between two positions of a text cut in three. *)
Lemma slice_middle (a m b : str) :
  slice (a ++ m ++ b) (len a) (len a + len m) = m.
Proof.
  pose proof (len_nonneg a); pose proof (len_nonneg m);
    pose proof (len_nonneg b).
  unfold slice, clamp. rewrite !len_app.
  replace (len a <? 0) with false by (symmetry; apply Z.ltb_ge; lia).
  replace (len a + len m <? 0) with false by (symmetry; apply Z.ltb_ge; lia).
  rewrite !Z.min_l by lia.
  replace (len a + len m - len a) with (len m) by lia.
  unfold len; rewrite !Nat2Z.id.
  rewrite skipn_app, skipn_all, Nat.sub_diag; simpl.
  rewrite firstn_app, firstn_all, Nat.sub_diag; simpl.
  now rewrite app_nil_r.
Qed.

(** Where the first and the last quote of a line with two bounding quotes
    are. *)
Lemma quotes_found (pre mid post : str) :
  ~ In dquote pre -> ~ In dquote post ->
  find dquote (pre ++ dquote :: mid ++ dquote :: post) = len pre /\
  rfind dquote (pre ++ dquote :: mid ++ dquote :: post)
  = len pre + 1 + len mid.
Proof.
  intros Hpre Hpost; split.
  - unfold find; now rewrite find_from_first.
  - unfold rfind.
    replace (pre ++ dquote :: mid ++ dquote :: post)
      with ((pre ++ dquote :: mid) ++ dquote :: post)
      by (now rewrite <- app_assoc).
    rewrite rfind_from_last by assumption.
    rewrite len_app, len_cons; lia.
Qed.

(** Every line has one of three shapes: no quote, one quote, or a first
    and a last quote at distinct positions. *)
Lemma first_split (c : ascii) (s : str) :
  In c s -> exists pre rest, s = pre ++ c :: rest /\ ~ In c pre.
Proof.
  induction s as [|x t IH]; intro Hin; [destruct Hin|].
  destruct (ascii_dec x c) as [->|Hne].
  - exists [], t; split; [reflexivity | intros []].
  - destruct Hin as [Heq|Hin]; [contradiction|].
    destruct (IH Hin) as (pre & rest & -> & Hpre).
    exists (x :: pre), rest; split; [reflexivity|].
    intros [Heq|Hin']; [contradiction | now apply Hpre].
Qed.

Lemma last_split (c : ascii) (s : str) :
  In c s -> exists pre post, s = pre ++ c :: post /\ ~ In c post.
Proof.
  intro Hin. apply in_rev in Hin.
  destruct (first_split c (rev s) Hin) as (a & b & Hrev & Ha).
  exists (rev b), (rev a); split.
  - rewrite <- (rev_involutive s), Hrev, rev_app_distr; simpl.
    now rewrite <- app_assoc.
  - intro Hin'. apply Ha. now apply in_rev.
Qed.

Lemma line_shapes (line : str) :
  ~ In dquote line
  \/ (exists pre post,
        line = pre ++ dquote :: post
        /\ ~ In dquote pre /\ ~ In dquote post)
  \/ (exists pre mid post,
        line = pre ++ dquote :: mid ++ dquote :: post
        /\ ~ In dquote pre /\ ~ In dquote post).
Proof.
  destruct (in_dec ascii_dec dquote line) as [Hin|Hn]; [|now left].
  right. destruct (first_split _ _ Hin) as (pre & rest & -> & Hpre).
  destruct (in_dec ascii_dec dquote rest) as [Hin'|Hn'].
  - right. destruct (last_split _ _ Hin') as (mid & post & -> & Hpost).
    now exists pre, mid, post.
  - left. now exists pre, rest.
Qed.

(** C4. The Quoted-Span Extractor: on a line whose first quote (after
    [pre]) and last quote (before [post]) stand at distinct positions it
    returns exactly the text [mid] between them, whatever quotes [mid]
    holds; on a line with one quote only, and on a line with none, it
    returns nothing. *)
Theorem C4_extract_quoted_span (pre mid post : str)
  (Hpre : ~ In dquote pre) (Hpost : ~ In dquote post) :
  _extract_quoted_robust (pre ++ dquote :: mid ++ dquote :: post) = Some mid
  /\ _extract_quoted_robust (pre ++ dquote :: post) = None
  /\ _extract_quoted_robust (pre ++ post) = None.
Proof.
  pose proof (len_nonneg pre) as Hp; pose proof (len_nonneg mid) as Hm.
  repeat split.
  - unfold _extract_quoted_robust.
    destruct (quotes_found pre mid post Hpre Hpost) as [-> ->].
    replace (len pre =? -1) with false by (symmetry; apply Z.eqb_neq; lia).
    replace (len pre + 1 + len mid =? len pre) with false
      by (symmetry; apply Z.eqb_neq; lia).
    f_equal.
    replace (pre ++ dquote :: mid ++ dquote :: post)
      with ((pre ++ [dquote]) ++ mid ++ (dquote :: post))
      by (now rewrite <- app_assoc).
    replace (len pre + 1) with (len (pre ++ [dquote]))
      by (rewrite len_app; reflexivity).
    apply slice_middle.
  - unfold _extract_quoted_robust, find, rfind.
    rewrite find_from_first, rfind_from_last by assumption.
    replace (0 + len pre =? -1) with false
      by (symmetry; apply Z.eqb_neq; lia).
    now rewrite Z.eqb_refl.
  - unfold _extract_quoted_robust, find.
    rewrite find_from_absent; [reflexivity|].
    intro Hin; apply in_app_or in Hin; tauto.
Qed.

Lemma C4_extract_quoted_span_witness :
  _extract_quoted_robust
    (lit "e " ++ dquote :: (lit "a " ++ quoted "b" ++ lit " c")
       ++ dquote :: lit " # x")
  = Some (lit "a " ++ quoted "b" ++ lit " c")
  /\ _extract_quoted_robust (lit "e " ++ dquote :: lit " # x") = None
  /\ _extract_quoted_robust (lit "e " ++ lit " # x") = None.
Proof.
  apply (C4_extract_quoted_span (lit "e ")
           (lit "a " ++ quoted "b" ++ lit " c") (lit " # x"));
    vm_compute; intuition discriminate.
Defined.

(** ** Group 1 of a match *)

Lemma orelse_some (a b : option (option str)) (v : option str) :
  orelse a b = Some v -> a = Some v \/ b = Some v.
Proof. destruct a; simpl; intro H; [now left | now right]. Qed.

Lemma star_reaches (c : ascii -> bool) (s : str) :
  forall pos cap (k : cont) v,
    star c pos s cap k = Some v ->
    exists pos' s', k pos' s' cap = Some v.
Proof.
  induction s as [|x t IH]; intros pos cap k v H; simpl in H.
  - now exists pos, [].
  - destruct (c x).
    + apply orelse_some in H as [H|H]; [now apply IH in H|].
      now exists pos, (x :: t).
    + now exists pos, (x :: t).
Qed.

(** A successful run reaches its continuation; a group content that was
    set stays set, and is set after a pattern that [captures]. *)
Lemma run_reaches (r : regex) :
  forall pos s cap (k : cont) v,
    run r pos s cap k = Some v ->
    exists pos' s' cap',
      k pos' s' cap' = Some v
      /\ (cap <> None -> cap' <> None)
      /\ (captures r = true -> cap' <> None).
Proof.
  induction r as [|c|c|c|r1 IH1 r2 IH2|r IH|r IH];
    intros pos s cap k v H; simpl in H.
  - destruct (Nat.eqb pos 0); [|discriminate].
    exists pos, s, cap; simpl; intuition discriminate.
  - destruct s as [|x t]; [discriminate|].
    destruct (c x); [|discriminate].
    exists (S pos), t, cap; simpl; intuition discriminate.
  - apply star_reaches in H as (pos' & s' & H).
    exists pos', s', cap; simpl; intuition discriminate.
  - destruct s as [|x t]; [discriminate|].
    destruct (c x); [|discriminate].
    apply star_reaches in H as (pos' & s' & H).
    exists pos', s', cap; simpl; intuition discriminate.
  - apply IH1 in H as (p1 & s1 & c1 & H & Hk1 & Hc1).
    apply IH2 in H as (p2 & s2 & c2 & H & Hk2 & Hc2).
    exists p2, s2, c2; simpl. repeat split; auto.
    intro Hc; apply orb_true_iff in Hc as [Hc|Hc]; auto.
  - apply orelse_some in H as [H|H].
    + apply IH in H as (p1 & s1 & c1 & H & Hk1 & _).
      exists p1, s1, c1; simpl; intuition discriminate.
    + exists pos, s, cap; simpl; intuition discriminate.
  - apply IH in H as (p1 & s1 & c1 & H & _).
    eexists p1, s1, _; simpl; split; [exact H|]. split; discriminate.
Qed.

(** [TAG_PATTERN.match(s).group(1)] is never [None]. *)
Lemma TAG_PATTERN_group1 (s : str) (m : option str) :
  re_match TAG_PATTERN s = Some m -> m <> None.
Proof.
  unfold re_match; intro H.
  apply run_reaches in H as (p & s' & cap' & H & _ & Hc).
  injection H as <-. now apply Hc.
Qed.

(** ** The loops never fail and only move forward *)

Lemma classify_ok (comment_rest psl code_stripped : str) :
  exists ft, classify comment_rest psl code_stripped = Ok ft.
Proof.
  unfold classify.
  destruct (re_match TAG_PATTERN comment_rest) as [m1|] eqn:E1;
    [destruct (re_match TAG_PATTERN code_stripped) as [m2|] eqn:E2|].
  - apply TAG_PATTERN_group1 in E1; apply TAG_PATTERN_group1 in E2.
    destruct m1 as [g1|]; [|congruence].
    destruct m2 as [g2|]; [|congruence].
    simpl. destruct (str_eqb _ _); eauto.
  - destruct (_ && _)%bool; eauto.
  - destruct (_ && _)%bool; eauto.
Qed.

Local Open Scope nat_scope.

(** The inner scan of the [old] branch stops, if it stops on a line at
    all, on a line of [rest]. *)
Lemma scan_new_range (rest : list str) :
  forall j,
    match scan_new rest j with
    | Found j' _ | Broke j' => j <= j' < j + List.length rest
    | Exhausted => True
    end.
Proof.
  induction rest as [|l rest IH]; intro j; cbn [scan_new List.length];
    [exact I|].
  assert (Hrec : match scan_new rest (S j) with
                 | Found j' _ | Broke j' => j <= j' < j + S (List.length rest)
                 | Exhausted => True
                 end).
  { specialize (IH (S j)). destruct (scan_new rest (S j)); lia || exact I. }
  destruct (startswith (strip l) (lit "new ")).
  - destruct (_extract_quoted_robust l); [lia | exact Hrec].
  - destruct (_ || _)%bool; [lia | exact Hrec].
Qed.

(** The lookahead returns a line of [rest], with its index. *)
Lemma find_next_from_range (rest : list str) :
  forall i k line,
    find_next_from rest i = Some (k, line) ->
    i <= k < i + List.length rest /\ nth_error rest (k - i) = Some line.
Proof.
  induction rest as [|l rest IH]; intros i k line H;
    cbn [find_next_from] in H; [discriminate|].
  destruct (startswith (strip l) (lit "translate ")); [discriminate|].
  destruct (matches CODE_TRANSLATION_START_PATTERN (strip l)).
  - injection H as <- <-. rewrite Nat.sub_diag; simpl. split; [lia|easy].
  - apply IH in H as [Hr Hn]. simpl; split; [lia|].
    replace (k - i) with (S (k - S i)) by lia. exact Hn.
Qed.

Lemma skipn_range (lines : list str) (i : nat) :
  i + List.length (skipn i lines) <= Nat.max i (List.length lines).
Proof. rewrite length_skipn; lia. Qed.

(** One turn of the [while] loop returns, moves the cursor forward and adds
    at most one entry, whose target lies between the old and the new
    cursor. *)
Lemma loop_body_spec (lines : list str) (i : nat) (line : str)
  (entries : list Entry) :
  exists i' new,
    loop_body lines i line entries = Ok (i', entries ++ new)
    /\ i < i' /\ emitted_ok i i' (List.length lines) new.
Proof.
  unfold loop_body, emitted_ok.
  destruct (startswith (strip line) (lit "old ")).
  - destruct (_extract_quoted_robust line) as [src|].
    + pose proof (scan_new_range (skipn (i + 1) lines) (i + 1)) as Hr.
      pose proof (skipn_range lines (i + 1)) as Hs.
      destruct (scan_new (skipn (i + 1) lines) (i + 1)) as [j tr|j|].
      * eexists _, [_]; split; [reflexivity|]. split; [lia|]. right.
        eexists; split; [reflexivity|]. simpl; lia.
      * exists (i + 1 + 1), []; rewrite app_nil_r; split; [reflexivity|].
        split; [lia | now left].
      * exists (i + 1 + 1), []; rewrite app_nil_r; split; [reflexivity|].
        split; [lia | now left].
    + exists (i + 1 + 1), []; rewrite app_nil_r; split; [reflexivity|].
      split; [lia | now left].
  - assert (Hskip : exists i' new,
               Ok (i + 1, entries) = Ok (i', entries ++ new) /\ i < i' /\
               (new = [] \/
                exists e, new = [e] /\ i < new_line_num e < i'
                          /\ new_line_num e < List.length lines)).
    { exists (i + 1), []; rewrite app_nil_r; split; [reflexivity|].
      split; [lia | now left]. }
    destruct (matches COMMENT_TRANSLATION_START_PATTERN (strip line));
      [|exact Hskip].
    destruct (_find_next_relevant_line lines (i + 1)) as [[k cl]|] eqn:Ef;
      [|exact Hskip].
    apply find_next_from_range in Ef as [Hk _].
    pose proof (skipn_range lines (i + 1)) as Hs.
    destruct (comment_source_of line) as [cs|]; [|exact Hskip].
    destruct (_extract_quoted_robust cl) as [ct|]; [|exact Hskip].
    destruct (classify_ok (split1_last hash line)
                (lstrip (split1_last hash line)) (strip cl)) as [ft ->].
    cbn [bind]. destruct ft as [[f|] tg]; [|exact Hskip].
    eexists _, [_]; split; [reflexivity|]. split; [lia|]. right.
    eexists; split; [reflexivity|]. simpl; lia.
Qed.

(** With at least as much fuel as there are lines left, the [while] loop
    returns; what it adds targets lines past the cursor, in strictly
    increasing order. *)
Lemma while_loop_spec (fuel : nat) (lines : list str) :
  forall i entries,
    List.length lines <= i + fuel ->
    exists new,
      while_loop fuel lines i entries = Ok (entries ++ new)
      /\ Forall (fun e => i < new_line_num e < List.length lines) new
      /\ StronglySorted lt (targets new).
Proof.
  induction fuel as [|fuel IH]; intros i entries Hfuel.
  - assert (Hnone : nth_error lines i = None)
      by (apply nth_error_None; lia).
    exists []; simpl; rewrite Hnone, app_nil_r.
    repeat split; constructor.
  - cbn [while_loop].
    destruct (nth_error lines i) as [line|] eqn:Hline.
    + destruct (loop_body_spec lines i line entries)
        as (i' & new & -> & Hlt & Hnew).
      cbn [bind fst snd].
      destruct (IH i' (entries ++ new)) as (rest & -> & Hall & Hsort);
        [lia|].
      exists (new ++ rest); rewrite app_assoc; split; [reflexivity|].
      assert (Hall' : Forall (fun e => i < new_line_num e
                                       < List.length lines) rest).
      { eapply Forall_impl; [|exact Hall]. simpl; intros; lia. }
      destruct Hnew as [->|(e & -> & He & Hn)]; [now split|].
      split; [constructor; [lia | exact Hall']|].
      unfold targets; cbn [map app]. constructor; [exact Hsort|].
      apply Forall_map. eapply Forall_impl; [|exact Hall].
      simpl; intros; lia.
    + exists []; rewrite app_nil_r. repeat split; constructor.
Qed.

(** A run that returns does so with any larger amount of fuel too. *)
Lemma while_loop_mono (lines : list str) (fuel : nat) :
  forall fuel' i entries r,
    fuel <= fuel' ->
    while_loop fuel lines i entries = Ok r ->
    while_loop fuel' lines i entries = Ok r.
Proof.
  induction fuel as [|fuel IH]; intros fuel' i entries r Hle H;
    destruct fuel' as [|fuel']; cbn [while_loop] in *;
    destruct (nth_error lines i) as [line|]; try assumption;
    try discriminate; try lia.
  destruct (loop_body lines i line entries) as [st| |];
    cbn [bind] in *; try discriminate.
  apply IH; [lia | assumption].
Qed.

Lemma sorted_lt_nodup (l : list nat) : StronglySorted lt l -> NoDup l.
Proof.
  induction 1 as [|x l Hs IH Hall]; constructor; [|exact IH].
  intro Hin. rewrite Forall_forall in Hall. apply Hall in Hin. lia.
Qed.

(** ** The lookahead and block boundaries *)

(** The lookahead reports no match when it meets a boundary before a
    code-candidate line. *)
Lemma find_next_from_boundary (pre : list str) (b : str) (rest : list str) :
  forall i,
    Forall (fun l => matches CODE_TRANSLATION_START_PATTERN (strip l) = false)
      pre ->
    is_boundary b = true ->
    find_next_from (pre ++ b :: rest) i = None.
Proof.
  unfold is_boundary.
  induction pre as [|l pre IH]; intros i Hpre Hb; cbn [find_next_from app].
  - now rewrite Hb.
  - inversion Hpre as [|? ? Hl Hpre']; subst.
    destruct (startswith (strip l) (lit "translate ")); [reflexivity|].
    rewrite Hl. now apply IH.
Qed.

Lemma lookahead_stops_at_boundary (lines : list str) (start_index : nat)
  (pre : list str) (b : str) (rest : list str) :
  skipn start_index lines = pre ++ b :: rest ->
  Forall (fun l => matches CODE_TRANSLATION_START_PATTERN (strip l) = false)
    pre ->
  is_boundary b = true ->
  _find_next_relevant_line lines start_index = None.
Proof.
  intros Hs Hpre Hb. unfold _find_next_relevant_line. rewrite Hs.
  now apply find_next_from_boundary.
Qed.

(** No line from the start of the lookahead up to the line it returns is a
    boundary. *)
Lemma find_next_from_no_boundary (rest : list str) :
  forall i k line,
    find_next_from rest i = Some (k, line) ->
    forall m x, m <= k - i -> nth_error rest m = Some x ->
                is_boundary x = false.
Proof.
  unfold is_boundary.
  induction rest as [|l rest IH]; intros i k line H m x Hm Hx;
    cbn [find_next_from] in H; [discriminate|].
  destruct (startswith (strip l) (lit "translate ")) eqn:Hb;
    [discriminate|].
  destruct (matches CODE_TRANSLATION_START_PATTERN (strip l)).
  - injection H as <- <-. replace m with 0 in Hx by lia.
    simpl in Hx. now injection Hx as <-.
  - destruct m as [|m]; simpl in Hx; [now injection Hx as <-|].
    pose proof (find_next_from_range _ _ _ _ H) as [Hr _].
    eapply (IH (S i) k line H m); [lia | exact Hx].
Qed.

(** A comment line whose lookahead reports no match gives no entry. *)
Lemma comment_without_lookahead (lines : list str) (i : nat) (line : str)
  (entries : list Entry) :
  startswith (strip line) (lit "old ") = false ->
  _find_next_relevant_line lines (i + 1) = None ->
  loop_body lines i line entries = Ok (i + 1, entries).
Proof.
  intros Hold Hnone. unfold loop_body. rewrite Hold, Hnone.
  now destruct (matches COMMENT_TRANSLATION_START_PATTERN (strip line)).
Qed.

(** The target of an entry that a comment line triggers lies before the
    next boundary: no line after the comment, up to the target, is one. *)
Lemma comment_entry_before_boundary (lines : list str) (i : nat)
  (line : str) (entries : list Entry) (i' : nat) (e : Entry) :
  startswith (strip line) (lit "old ") = false ->
  loop_body lines i line entries = Ok (i', entries ++ [e]) ->
  forall b bl, i < b <= new_line_num e -> nth_error lines b = Some bl ->
               is_boundary bl = false.
Proof.
  intros Hold H b bl Hb Hbl. unfold loop_body in H. rewrite Hold in H.
  assert (Hskip : Ok (i + 1, entries) = Ok (i', entries ++ [e]) -> False).
  { intro E. injection E as _ E.
    apply (f_equal (@List.length Entry)) in E.
    rewrite length_app in E; simpl in E; lia. }
  destruct (matches COMMENT_TRANSLATION_START_PATTERN (strip line));
    [|now apply Hskip in H].
  destruct (_find_next_relevant_line lines (i + 1)) as [[k cl]|] eqn:Ef;
    [|now apply Hskip in H].
  destruct (comment_source_of line) as [cs|]; [|now apply Hskip in H].
  destruct (_extract_quoted_robust cl) as [ct|]; [|now apply Hskip in H].
  destruct (classify _ _ _) as [ft| |]; cbn [bind] in H; try discriminate.
  destruct ft as [[f|] tg]; [|now apply Hskip in H].
  injection H as _ H. apply app_inv_head in H. injection H as <-.
  cbn [new_line_num] in Hb.
  pose proof (find_next_from_range _ _ _ _ Ef) as [Hr _].
  apply (find_next_from_no_boundary _ _ _ _ Ef (b - (i + 1)) bl); [lia|].
  rewrite nth_error_skipn. now replace (i + 1 + (b - (i + 1))) with b by lia.
Qed.

(** ** The claims *)

(** C3. The parse is total: for every sequence of lines the reader returns
    a sequence of entries (and of cache items); no exception comes out of
    it, and the fuel of the model is never what ends a run. *)
Theorem C3_parse_total (lines : list str) :
  exists entries,
    read_entries lines = Ok entries
    /\ on_read_source lines = Ok (map to_item entries)
    /\ forall fuel, List.length lines <= fuel ->
                    while_loop fuel lines 0 [] = Ok entries.
Proof.
  destruct (while_loop_spec (List.length lines) lines 0 [])
    as (entries & H & _); [lia|].
  exists entries. cbn [app] in H.
  split; [exact H|]. split.
  - unfold on_read_source, read_entries. now rewrite H.
  - intros fuel Hf.
    now apply (while_loop_mono lines (List.length lines)).
Qed.

(** C8. No two entries of a parse share a target line: the targets are
    strictly increasing in the order of the output.  Every turn of the
    loop moves the cursor forward, past the target of the entry it emits,
    so no later turn starts on a line consumed by an entry. *)
Theorem C8_targets_distinct (lines : list str) :
  exists entries,
    read_entries lines = Ok entries
    /\ NoDup (targets entries)
    /\ StronglySorted lt (targets entries)
    /\ forall i line es,
         exists i' new,
           loop_body lines i line es = Ok (i', es ++ new)
           /\ i < i' /\ emitted_ok i i' (List.length lines) new.
Proof.
  destruct (while_loop_spec (List.length lines) lines 0 [])
    as (entries & H & _ & Hsort); [lia|].
  exists entries. cbn [app] in H.
  split; [exact H|]. split; [now apply sorted_lt_nodup|].
  split; [exact Hsort|]. intros i line es. apply loop_body_spec.
Qed.

(** C5. The line [old "A"] directly followed by [new "B"] gives exactly
    one entry: format [old_new], source [A], translation [B], no tag, and
    the index of the [new] line as target. *)
Theorem C5_old_new_pair :
  read_entries [lit "old " ++ quoted "A"; lit "new " ++ quoted "B"]
  = Ok [mkEntry (lit "A") (lit "B") 1 fmt_old_new None].
Proof. vm_compute. reflexivity. Qed.

(** C2. On the comment line [# happy "Hi!"], the line [voice "v.ogg"] and
    the line [happy "Hi!"], the lookahead does not skip the [voice] line:
    it has the shape of a tagged code line, so the lookahead returns it,
    its tag [voice] differs from [happy], and the parse has no entry. *)
Theorem C2_voice_line_not_skipped :
  let lines := [lit "# happy " ++ quoted "Hi!";
                lit "voice " ++ quoted "v.ogg";
                lit "happy " ++ quoted "Hi!"] in
  matches CODE_TRANSLATION_START_PATTERN (lit "voice " ++ quoted "v.ogg")
  = true
  /\ _find_next_relevant_line lines 1
     = Some (1, lit "voice " ++ quoted "v.ogg")
  /\ re_match TAG_PATTERN (lit "voice " ++ quoted "v.ogg")
     = Some (Some (lit "voice"))
  /\ read_entries lines = Ok [].
Proof. vm_compute. repeat split; reflexivity. Qed.

(** C1. The inner scan of the [old] branch does not look for block
    boundaries: on [old "A"], a [translate] header, then [new "B"], the
    entry's target is the [new] line past the header. *)
Theorem C1_old_new_crosses_boundary :
  let lines := [lit "old " ++ quoted "A";
                lit "translate next_label:";
                lit "new " ++ quoted "B"] in
  is_boundary (lit "translate next_label:") = true
  /\ scan_new (skipn 1 lines) 1 = Found 2 (lit "B")
  /\ read_entries lines
     = Ok [mkEntry (lit "A") (lit "B") 2 fmt_old_new None].
Proof. vm_compute. repeat split; reflexivity. Qed.

(** C6. An [old] line whose scan meets a [translate] header before any
    [new] line still gets an entry from a [new] line of the next block. *)
Theorem C6_old_scan_ignores_boundary :
  let lines := [lit "translate chinese strings:";
                lit "    old " ++ quoted "Start";
                lit "";
                lit "translate chinese intro_1a2b:";
                lit "    new " ++ quoted "Begin"] in
  is_boundary (lit "translate chinese intro_1a2b:") = true
  /\ _find_next_relevant_line lines 2 = None
  /\ read_entries lines
     = Ok [mkEntry (lit "Start") (lit "Begin") 4 fmt_old_new None].
Proof. vm_compute. repeat split; reflexivity. Qed.

(** C7 as stated fails: the scan started by the [old] line at index 0
    ends by the [break] at line 3, yet the outer cursor resumes at 2, not
    at 4, and the loop visits line 3 again, where it finds a pair. *)
Lemma C7_resume_counterexample :
  let lines := [lit "old " ++ quoted "A"; lit ""; lit "";
                lit "old " ++ quoted "C"; lit "new " ++ quoted "D"] in
  _extract_quoted_robust (lit "old " ++ quoted "A") = Some (lit "A")
  /\ scan_new (skipn 1 lines) 1 = Broke 3
  /\ loop_body lines 0 (lit "old " ++ quoted "A") [] = Ok (2, [])
  /\ 2 <> 3 + 1
  /\ read_entries lines
     = Ok [mkEntry (lit "C") (lit "D") 4 fmt_old_new None].
Proof. vm_compute. repeat split; (reflexivity || discriminate). Qed.

(** C7, amended. For an [old] line at index [i] whose quoted span
    extracts: when the inner scan finds its [new] line at [j], one entry
    with target [j] is emitted and the outer cursor resumes strictly past
    [j]; when the scan ends without emitting, no entry is emitted and the
    cursor resumes just after the [old] line, at most two past it,
    wherever the scan stopped. *)
Theorem C7_cursor_after_old (lines : list str) (i : nat) (line : str)
  (entries : list Entry) (src : str)
  (Hold : startswith (strip line) (lit "old ") = true)
  (Hsrc : _extract_quoted_robust line = Some src) :
  match scan_new (skipn (i + 1) lines) (i + 1) with
  | Found j translated =>
      i < j /\
      exists i',
        loop_body lines i line entries
        = Ok (i', entries ++ [mkEntry src translated j fmt_old_new None])
        /\ j < i'
  | Broke _ | Exhausted =>
      exists i',
        loop_body lines i line entries = Ok (i', entries) /\ i < i' <= i + 2
  end.
Proof.
  unfold loop_body. rewrite Hold, Hsrc.
  pose proof (scan_new_range (skipn (i + 1) lines) (i + 1)) as Hr.
  destruct (scan_new (skipn (i + 1) lines) (i + 1)) as [j tr|j|].
  - split; [lia|]. eexists; split; [reflexivity | lia].
  - eexists; split; [reflexivity | lia].
  - eexists; split; [reflexivity | lia].
Qed.

Lemma C7_cursor_after_old_witness :
  (0 < 1 /\
   exists i',
     loop_body [lit "old " ++ quoted "A"; lit "new " ++ quoted "B"] 0
       (lit "old " ++ quoted "A") []
     = Ok (i', [] ++ [mkEntry (lit "A") (lit "B") 1 fmt_old_new None])
     /\ 1 < i')
  /\ (exists i',
        loop_body [lit "old " ++ quoted "A"; lit ""; lit "";
                   lit "old " ++ quoted "C"] 0
          (lit "old " ++ quoted "A") []
        = Ok (i', []) /\ 0 < i' <= 0 + 2).
Proof.
  split.
  - exact (C7_cursor_after_old
             [lit "old " ++ quoted "A"; lit "new " ++ quoted "B"] 0
             (lit "old " ++ quoted "A") [] (lit "A") eq_refl eq_refl).
  - exact (C7_cursor_after_old
             [lit "old " ++ quoted "A"; lit ""; lit "";
              lit "old " ++ quoted "C"] 0
             (lit "old " ++ quoted "A") [] (lit "A") eq_refl eq_refl).
Defined.

(** A [new] line that holds a single quote is passed over by the scan,
    and the pair is completed by the [new] line after it. *)
Example unquoted_new_then_pair :
  read_entries [lit "old " ++ quoted "A"; lit "new " ++ dquote :: lit "B";
                lit "new " ++ quoted "C"]
  = Ok [mkEntry (lit "A") (lit "C") 2 fmt_old_new None].
Proof. vm_compute. reflexivity. Qed.

(** A path under [images/] is not barred: the comment supplies its quoted
    span.  Its content is neither a tag nor a bare quoted text, so the
    classification then rejects the pair. *)
Example images_path_not_barred :
  comment_source_of (lit "# images/bg.png " ++ quoted "Hi") = Some (lit "Hi")
  /\ read_entries [lit "# images/bg.png " ++ quoted "Hi"; quoted "Hi"]
     = Ok [].
Proof. vm_compute. split; reflexivity. Qed.

(** After an [old]/[new] pair the cursor is advanced at line 123 and once
    more at line 182, so the line that follows the [new] line is stepped
    over: a second pair directly after the first is not read. *)
Example old_branch_steps_over_a_line :
  read_entries [lit "old " ++ quoted "A"; lit "new " ++ quoted "B";
                lit "old " ++ quoted "C"; lit "new " ++ quoted "D"]
  = Ok [mkEntry (lit "A") (lit "B") 1 fmt_old_new None].
Proof. vm_compute. reflexivity. Qed.

(** * Further properties of the reader *)

(** ** The loop as a sequence of turns *)

(** What a turn emits does not depend on the entries collected before. *)
Lemma loop_body_acc (lines : list str) (i : nat) (line : str)
  (entries : list Entry) :
  loop_body lines i line entries
  = match loop_body lines i line [] with
    | Ok (i', new) => Ok (i', entries ++ new)
    | Raise e => Raise e
    | OutOfFuel => OutOfFuel
    end.
Proof.
  unfold loop_body.
  destruct (startswith (strip line) (lit "old ")).
  - destruct (_extract_quoted_robust line) as [src|];
      [destruct (scan_new (skipn (i + 1) lines) (i + 1))|];
      cbn [app]; now rewrite ?app_nil_r.
  - destruct (matches COMMENT_TRANSLATION_START_PATTERN (strip line));
      [|now rewrite app_nil_r].
    destruct (_find_next_relevant_line lines (i + 1)) as [[k cl]|];
      [|now rewrite app_nil_r].
    destruct (comment_source_of line); [|now rewrite app_nil_r].
    destruct (_extract_quoted_robust cl); [|now rewrite app_nil_r].
    destruct (classify _ _ _) as [[[f|] tg]| |]; cbn [bind app];
      now rewrite ?app_nil_r.
Qed.

Lemma while_loop_trace (lines : list str) (fuel : nat) :
  forall i entries r,
    while_loop fuel lines i entries = Ok r ->
    exists new, r = entries ++ new /\ parse_from lines i new.
Proof.
  induction fuel as [|fuel IH]; intros i entries r H; cbn [while_loop] in H;
    destruct (nth_error lines i) as [line|] eqn:Hline.
  - discriminate.
  - injection H as <-. exists []; rewrite app_nil_r; split; [easy|].
    now constructor.
  - rewrite loop_body_acc in H.
    destruct (loop_body lines i line []) as [[i' new]| |] eqn:Hb;
      cbn [bind fst snd] in H; try discriminate.
    apply IH in H as (rest & -> & Hrest).
    exists (new ++ rest); rewrite app_assoc; split; [reflexivity|].
    econstructor; eassumption.
  - injection H as <-. exists []; rewrite app_nil_r; split; [easy|].
    now constructor.
Qed.

(** The parse returns, and what it returns is the trace of its turns. *)
Lemma read_entries_trace (lines : list str) :
  exists entries, read_entries lines = Ok entries
                  /\ parse_from lines 0 entries.
Proof.
  destruct (while_loop_spec (List.length lines) lines 0 [])
    as (entries & H & _); [lia|].
  exists entries; split; [exact H|].
  apply while_loop_trace in H as (new & Hnew & Htr).
  cbn [app] in *. now subst.
Qed.

(** ** What the two scans return *)

Lemma nth_error_skipn_at (lines : list str) (n k : nat) (l : str) :
  n <= k -> nth_error (skipn n lines) (k - n) = Some l ->
  nth_error lines k = Some l.
Proof.
  intros Hle H. rewrite nth_error_skipn in H.
  now replace (n + (k - n)) with k in H by lia.
Qed.

Lemma scan_new_found (rest : list str) :
  forall j j' tr,
    scan_new rest j = Found j' tr ->
    j <= j'
    /\ (exists cl, nth_error rest (j' - j) = Some cl
                   /\ is_new_line cl = true
                   /\ _extract_quoted_robust cl = Some tr)
    /\ forall m l, m < j' - j -> nth_error rest m = Some l -> stepped_over l.
Proof.
  unfold stepped_over, is_new_line, is_old_line, is_comment_line,
    is_code_candidate.
  induction rest as [|x rest IH]; intros j j' tr H; cbn [scan_new] in H;
    [discriminate|].
  match goal with
  | |- ?G =>
      assert (Hrec :
                (startswith (strip x) (lit "new ") = true
                 /\ _extract_quoted_robust x = None)
                \/ (startswith (strip x) (lit "new ") = false
                    /\ startswith (strip x) (lit "old ") = false
                    /\ matches COMMENT_TRANSLATION_START_PATTERN (strip x)
                       = false
                    /\ matches CODE_TRANSLATION_START_PATTERN (strip x)
                       = false) ->
                scan_new rest (S j) = Found j' tr -> G)
  end.
  { intros Hx Hs. apply IH in Hs as (Hle & (cl & Hcl & Hn & He) & Hbetween).
    split; [lia|]. split.
    - exists cl. replace (j' - j) with (S (j' - S j)) by lia. now simpl.
    - intros m l Hm Hl. destruct m as [|m]; simpl in Hl.
      + injection Hl as <-. exact Hx.
      + apply (Hbetween m l); [lia | exact Hl]. }
  destruct (startswith (strip x) (lit "new ")) eqn:Hnew.
  - destruct (_extract_quoted_robust x) as [tr'|] eqn:Hex.
    + injection H as <- <-. split; [lia|]. split.
      * exists x. rewrite Nat.sub_diag. now simpl.
      * intros m l Hm; lia.
    + apply Hrec; [now left | exact H].
  - destruct (startswith (strip x) (lit "old ")) eqn:Hold;
      [discriminate|].
    destruct (matches COMMENT_TRANSLATION_START_PATTERN (strip x)) eqn:Hc;
      [discriminate|].
    destruct (matches CODE_TRANSLATION_START_PATTERN (strip x)) eqn:Hd;
      [discriminate|].
    simpl in H. apply Hrec; [now right | exact H].
Qed.

Lemma find_next_from_sound (rest : list str) :
  forall i k line,
    find_next_from rest i = Some (k, line) ->
    i <= k
    /\ nth_error rest (k - i) = Some line
    /\ is_boundary line = false /\ is_code_candidate line = true
    /\ forall m l, m < k - i -> nth_error rest m = Some l -> looked_past l.
Proof.
  unfold looked_past, is_boundary, is_code_candidate.
  induction rest as [|x rest IH]; intros i k line H;
    cbn [find_next_from] in H; [discriminate|].
  destruct (startswith (strip x) (lit "translate ")) eqn:Hb;
    [discriminate|].
  destruct (matches CODE_TRANSLATION_START_PATTERN (strip x)) eqn:Hc.
  - injection H as <- <-. rewrite Nat.sub_diag; simpl.
    repeat split; auto; intros; lia.
  - apply IH in H as (Hle & Hn & Hb' & Hc' & Hbetween).
    split; [lia|]. split.
    { replace (k - i) with (S (k - S i)) by lia. now simpl. }
    split; [exact Hb'|]. split; [exact Hc'|].
    intros m l Hm Hl. destruct m as [|m]; simpl in Hl.
    + injection Hl as <-. now split.
    + apply (Hbetween m l); [lia | exact Hl].
Qed.

Lemma find_next_from_first (pre : list str) (l : str) (rest : list str) :
  forall i,
    Forall looked_past pre ->
    is_boundary l = false -> is_code_candidate l = true ->
    find_next_from (pre ++ l :: rest) i = Some (i + List.length pre, l).
Proof.
  unfold looked_past, is_boundary, is_code_candidate.
  induction pre as [|x pre IH]; intros i Hpre Hb Hc;
    cbn [find_next_from app List.length].
  - rewrite Hb, Hc. now rewrite Nat.add_0_r.
  - inversion Hpre as [|? ? [Hxb Hxc] Hpre']; subst.
    rewrite Hxb, Hxc, IH by assumption. f_equal; f_equal; lia.
Qed.

Lemma find_next_from_exhausted (rest : list str) :
  forall i,
    Forall (fun l => is_code_candidate l = false) rest ->
    find_next_from rest i = None.
Proof.
  unfold is_code_candidate.
  induction rest as [|x rest IH]; intros i Hall; cbn [find_next_from];
    [reflexivity|].
  inversion Hall as [|? ? Hx Hrest]; subst.
  destruct (startswith (strip x) (lit "translate ")); [reflexivity|].
  rewrite Hx. now apply IH.
Qed.

(** ** Where an entry comes from *)

(** The entry a turn at cursor [i] emits comes from line [i] and from the
    line its scan returned. *)
Lemma loop_body_origin (lines : list str) (i : nat) (line : str) (i' : nat)
  (new : list Entry) :
  nth_error lines i = Some line ->
  loop_body lines i line [] = Ok (i', new) ->
  new = [] \/
  exists e, new = [e]
            /\ (old_new_origin lines i e \/ comment_origin lines i e)
            /\ i < new_line_num e < i'.
Proof.
  intros Hline H. unfold loop_body in H.
  destruct (startswith (strip line) (lit "old ")) eqn:Hold.
  - destruct (_extract_quoted_robust line) as [src|] eqn:Hsrc;
      [|injection H as _ <-; now left].
    destruct (scan_new (skipn (i + 1) lines) (i + 1)) as [j tr|j|] eqn:Hs;
      try (injection H as _ <-; now left).
    injection H as <- <-. right.
    apply scan_new_found in Hs as (Hle & (cl & Hcl & Hn & He) & Hbetween).
    eexists; split; [reflexivity|]. cbn [new_line_num]. split; [|lia].
    left. exists line, cl. cbn [new_line_num source translated format_type tag].
    split; [lia|]. split; [exact Hline|].
    split; [now apply (nth_error_skipn_at lines (i + 1))|].
    repeat (split; [assumption || reflexivity|]).
    intros m l Hm Hl. apply (Hbetween (m - (i + 1))); [lia|].
    rewrite nth_error_skipn. now replace (i + 1 + (m - (i + 1))) with m by lia.
  - destruct (matches COMMENT_TRANSLATION_START_PATTERN (strip line)) eqn:Hc;
      [|injection H as _ <-; now left].
    destruct (_find_next_relevant_line lines (i + 1)) as [[k cl]|] eqn:Hf;
      [|injection H as _ <-; now left].
    unfold comment_source_of in H.
    destruct (startswith (lstrip (split1_last hash line)) (lit "game/")
              || startswith (lstrip (split1_last hash line)) (lit "renpy/"))
      eqn:Hmeta; cbn [negb] in H; [injection H as _ <-; now left|].
    destruct (_extract_quoted_robust line) as [cs|] eqn:Hcs;
      [|injection H as _ <-; now left].
    destruct (_extract_quoted_robust cl) as [ct|] eqn:Hct;
      [|injection H as _ <-; now left].
    destruct (classify _ _ _) as [[[f|] tg]| |] eqn:Hcl; cbn [bind] in H;
      try discriminate; [|injection H as _ <-; now left].
    injection H as <- <-. right.
    apply find_next_from_sound in Hf as (Hle & Hk & Hb & Hcode & Hbetween).
    eexists; split; [reflexivity|]. cbn [new_line_num app]. split; [|lia].
    right. exists line, cl.
    cbn [new_line_num source translated format_type tag].
    split; [lia|]. split; [exact Hline|].
    split; [now apply (nth_error_skipn_at lines (i + 1))|].
    repeat (split; [assumption|]).
    intros m l Hm Hl. apply (Hbetween (m - (i + 1))); [lia|].
    rewrite nth_error_skipn. now replace (i + 1 + (m - (i + 1))) with m by lia.
Qed.

(** Every entry of a run comes from a trigger line at or after the
    cursor, and the targets go up. *)
Lemma parse_from_origin (lines : list str) (i : nat) (r : list Entry) :
  parse_from lines i r ->
  Forall (fun e => exists t,
              i <= t /\ (old_new_origin lines t e \/ comment_origin lines t e))
    r.
Proof.
  induction 1 as [i Hnone|i line i' new rest Hline Hb Hrest IH];
    [constructor|].
  assert (Hlt : i < i').
  { destruct (loop_body_spec lines i line []) as (i2 & n2 & E & Hlt & _).
    rewrite Hb in E. now injection E as -> _. }
  apply Forall_app; split.
  - destruct (loop_body_origin _ _ _ _ _ Hline Hb) as [->|(e & -> & Ho & _)];
      constructor; [|constructor].
    exists i; split; [lia | exact Ho].
  - eapply Forall_impl; [|exact IH].
    intros e (t & Ht & Ho); exists t; split; [lia | exact Ho].
Qed.

Lemma read_entries_origin (lines : list str) :
  exists entries, read_entries lines = Ok entries
                  /\ Forall (entry_origin lines) entries.
Proof.
  destruct (read_entries_trace lines) as (entries & H & Htr).
  exists entries; split; [exact H|].
  apply parse_from_origin in Htr.
  eapply Forall_impl; [|exact Htr].
  intros e (t & _ & Ho). now exists t.
Qed.

(** ** What a tag is *)

Lemma letter_not_space (c : ascii) : is_letter c = true -> is_space c = false.
Proof.
  destruct c as [[] [] [] [] [] [] [] []]; vm_compute; congruence.
Qed.

Lemma letter_tag_char (c : ascii) : is_letter c = true -> tag_char c = true.
Proof.
  intro H. unfold tag_char, is_word. rewrite H.
  now rewrite !orb_true_r.
Qed.

Lemma lstrip_split (s : str) :
  exists ws, s = ws ++ lstrip s /\ Forall (fun c => is_space c = true) ws.
Proof.
  induction s as [|x t (ws & Hs & Hws)]; [now exists []|].
  cbn [lstrip]. destruct (is_space x) eqn:Hx.
  - exists (x :: ws); split; [simpl; now f_equal | now constructor].
  - now exists [].
Qed.

Lemma lstrip_head (s : str) (x : ascii) (t : str) :
  lstrip s = x :: t -> is_space x = false.
Proof.
  induction s as [|y s IH]; cbn [lstrip]; [discriminate|].
  destruct (is_space y) eqn:Hy; [exact IH|].
  intro H; now injection H as <- _.
Qed.

Lemma rstrip_split (s : str) :
  exists tl, s = rstrip s ++ tl /\ Forall (fun c => is_space c = true) tl.
Proof.
  unfold rstrip. destruct (lstrip_split (rev s)) as (ws & Hs & Hws).
  exists (rev ws); split.
  - rewrite <- rev_app_distr, <- Hs. now rewrite rev_involutive.
  - now apply Forall_rev.
Qed.

(** Stripping a text that begins with a character that is no whitespace
    keeps that character in front and cuts whitespace off the end only. *)
Lemma strip_keeps_head (x : ascii) (w : str) :
  is_space x = false ->
  exists w' tl,
    strip (x :: w) = x :: w' /\ w = w' ++ tl
    /\ Forall (fun c => is_space c = true) tl.
Proof.
  intro Hx. unfold strip. cbn [lstrip]. rewrite Hx.
  destruct (rstrip_split (x :: w)) as (tl & Hs & Htl).
  destruct (rstrip (x :: w)) as [|y w'] eqn:Hr.
  - simpl in Hs. subst tl. inversion Htl; congruence.
  - simpl in Hs. injection Hs as <- ->. now exists w', tl.
Qed.

Lemma star_split (c : ascii -> bool) (s : str) :
  forall pos cap (k : cont) v,
    star c pos s cap k = Some v ->
    exists n,
      n <= List.length s
      /\ Forall (fun x => c x = true) (firstn n s)
      /\ k (pos + n) (skipn n s) cap = Some v.
Proof.
  induction s as [|x t IH]; intros pos cap k v H; cbn [star] in H.
  - exists 0; simpl. rewrite Nat.add_0_r. now repeat split.
  - assert (Hzero : k pos (x :: t) cap = Some v ->
                    exists n, n <= List.length (x :: t)
                      /\ Forall (fun y => c y = true) (firstn n (x :: t))
                      /\ k (pos + n) (skipn n (x :: t)) cap = Some v).
    { intro Hk. exists 0; simpl. rewrite Nat.add_0_r.
      repeat split; [lia | constructor | exact Hk]. }
    destruct (c x) eqn:Hx; [|now apply Hzero].
    apply orelse_some in H as [H|H]; [|now apply Hzero].
    apply IH in H as (n & Hn & Hall & Hk).
    exists (S n); simpl. rewrite Nat.add_succ_r.
    repeat split; [lia | now constructor | exact Hk].
Qed.

(** A match of [TAG_PATTERN]: leading whitespace, then group 1 (a letter
    and tag characters), then whitespace and a quote. *)
Lemma TAG_PATTERN_sound (s : str) (m : option str) :
  re_match TAG_PATTERN s = Some m ->
  exists ws x w sp sps rest,
    s = ws ++ x :: w ++ sp :: sps ++ dquote :: rest
    /\ Forall (fun c => is_space c = true) ws
    /\ is_letter x = true
    /\ Forall (fun c => tag_char c = true) w
    /\ is_space sp = true
    /\ Forall (fun c => is_space c = true) sps
    /\ m = Some (x :: w).
Proof.
  unfold re_match, TAG_PATTERN. cbn [seq run Nat.eqb]. intro H.
  apply star_split in H as (n1 & _ & Hws & H).
  destruct (skipn n1 s) as [|x t] eqn:Hs1; [discriminate|].
  destruct (is_letter x) eqn:Hx; [|discriminate].
  apply star_split in H as (n2 & Hn2 & Hw & H).
  cbn beta in H.
  destruct (skipn n2 t) as [|sp t2] eqn:Hs2; [discriminate|].
  destruct (is_space sp) eqn:Hsp; [|discriminate].
  apply star_split in H as (n3 & _ & Hsps & H).
  destruct (skipn n3 t2) as [|y rest] eqn:Hs3; [discriminate|].
  destruct (is_char dquote y) eqn:Hy; [|discriminate].
  apply Ascii.eqb_eq in Hy; subst y.
  injection H as <-.
  exists (firstn n1 s), x, (firstn n2 t), sp, (firstn n3 t2), rest.
  repeat split; try assumption.
  - rewrite <- Hs3, firstn_skipn, <- Hs2, firstn_skipn, <- Hs1.
    now rewrite firstn_skipn.
  - match goal with
    | |- Some (firstn ?E _) = _ =>
        replace E with (S n2)
          by (destruct n1; [reflexivity | cbv beta iota; lia])
    end.
    reflexivity.
Qed.

(** What lines 150-168 accept: two tagged lines with the same tag, or two
    lines that start with a quote. *)
Lemma classify_sound (comment_rest psl code_stripped : str)
  (f : FormatType) (tg : option str) :
  classify comment_rest psl code_stripped = Ok (Some f, tg) ->
  (f = fmt_comment_tag
   /\ exists g1 g2,
        re_match TAG_PATTERN comment_rest = Some (Some g1)
        /\ re_match TAG_PATTERN code_stripped = Some (Some g2)
        /\ strip g1 = strip g2 /\ tg = Some (strip g2))
  \/ (f = fmt_comment_no_tag /\ tg = None
      /\ startswith psl [dquote] = true
      /\ startswith code_stripped [dquote] = true).
Proof.
  unfold classify. intro H.
  assert (Hplain :
            (if (startswith psl [dquote]
                 && startswith code_stripped [dquote])%bool
             then Ok (Some fmt_comment_no_tag, None)
             else Ok (None, None)) = Ok (Some f, tg) ->
            f = fmt_comment_no_tag /\ tg = None
            /\ startswith psl [dquote] = true
            /\ startswith code_stripped [dquote] = true).
  { destruct (_ && _)%bool eqn:Hq; [|discriminate].
    apply andb_true_iff in Hq as [Hq1 Hq2].
    intro E; injection E as <- <-. now repeat split. }
  destruct (re_match TAG_PATTERN comment_rest) as [[g1|]|] eqn:E1.
  - destruct (re_match TAG_PATTERN code_stripped) as [[g2|]|] eqn:E2;
      cbn [group1_strip bind] in H; [|discriminate|now right; apply Hplain].
    unfold str_eqb in H.
    destruct (list_eq_dec ascii_dec (strip g1) (strip g2));
      [|discriminate].
    injection H as <- <-. left. split; [reflexivity|].
    now exists g1, g2.
  - destruct (re_match TAG_PATTERN code_stripped) as [[g2|]|];
      cbn [group1_strip bind] in H;
      [discriminate | discriminate | now right; apply Hplain].
  - now right; apply Hplain.
Qed.

Lemma lstrip_nonspace (x : ascii) (t : str) :
  is_space x = false -> lstrip (x :: t) = x :: t.
Proof. intro H; cbn [lstrip]; now rewrite H. Qed.

Lemma lstrip_idempotent (s : str) : lstrip (lstrip s) = lstrip s.
Proof.
  destruct (lstrip s) as [|x t] eqn:E; [reflexivity|].
  apply lstrip_nonspace. now apply lstrip_head in E.
Qed.

Lemma rstrip_idempotent (s : str) : rstrip (rstrip s) = rstrip s.
Proof.
  unfold rstrip. now rewrite rev_involutive, lstrip_idempotent.
Qed.

(** [strip] leaves a stripped text as it is. *)
Lemma strip_idempotent (s : str) : strip (strip s) = strip s.
Proof.
  unfold strip.
  assert (H : lstrip (rstrip (lstrip s)) = rstrip (lstrip s)).
  { destruct (lstrip s) as [|x t] eqn:E; [reflexivity|].
    apply lstrip_head in E.
    destruct (strip_keeps_head x t E) as (w' & tl & Hs & _).
    unfold strip in Hs. rewrite lstrip_nonspace in Hs by exact E.
    rewrite Hs. now apply lstrip_nonspace. }
  rewrite H. apply rstrip_idempotent.
Qed.

(** The stripped group 1 of a match of [TAG_PATTERN] has the shape of a
    tag. *)
Lemma TAG_PATTERN_tag_shaped (s g : str) :
  re_match TAG_PATTERN s = Some (Some g) -> tag_shaped (strip g).
Proof.
  intro H.
  apply TAG_PATTERN_sound in H
    as (ws & x & w & sp & sps & rest & _ & _ & Hx & Hw & _ & _ & Hg).
  injection Hg as ->. split; [|apply strip_idempotent].
  destruct (strip_keeps_head x w (letter_not_space x Hx))
    as (w' & tl & -> & -> & _).
  exists x, w'. repeat split; [exact Hx|].
  apply Forall_app in Hw. tauto.
Qed.

Lemma origin_has_trigger (lines : list str) (t : nat) (e : Entry) :
  old_new_origin lines t e \/ comment_origin lines t e ->
  has_trigger lines t e.
Proof.
  intros [(tl & cl & Hlt & Htl & _ & Hold & Hsrc & _ & _ & Hf & _)
         |(tl & cl & Hlt & Htl & _ & Hold & Hc & Hm & Hsrc & _ & _ & _
           & Hcl & _)];
    (split; [exact Hlt|]); exists tl; (split; [exact Htl|]);
    (split; [exact Hsrc|]).
  - now left.
  - right. repeat split; try assumption.
    apply classify_sound in Hcl as [(-> & _)|(-> & _)]; discriminate.
Qed.

Lemma pairs_in_order_weaken (lines : list str) (r : list Entry) (a b : nat) :
  b <= a -> pairs_in_order lines a r -> pairs_in_order lines b r.
Proof.
  destruct r as [|e r]; [easy|].
  intros Hle ((t & Ht & Htr) & Hrest). split; [|exact Hrest].
  exists t; split; [lia | exact Htr].
Qed.

Lemma parse_from_in_order (lines : list str) (i : nat) (r : list Entry) :
  parse_from lines i r -> pairs_in_order lines i r.
Proof.
  induction 1 as [i Hnone|i line i' new rest Hline Hb Hrest IH];
    [exact I|].
  assert (Hlt : i < i').
  { destruct (loop_body_spec lines i line []) as (i2 & n2 & E & Hlt & _).
    rewrite Hb in E. now injection E as -> _. }
  destruct (loop_body_origin _ _ _ _ _ Hline Hb)
    as [->|(e & -> & Ho & Hr)]; cbn [app].
  - apply (pairs_in_order_weaken lines rest i'); [lia | exact IH].
  - split.
    + exists i; split; [lia | now apply origin_has_trigger].
    + apply (pairs_in_order_weaken lines rest i'); [lia | exact IH].
Qed.

(** The turns of a run emit at most one entry for every two lines left. *)
Lemma parse_from_count (lines : list str) (i : nat) (r : list Entry) :
  parse_from lines i r -> i + 2 * List.length r <= Nat.max i (List.length lines).
Proof.
  induction 1 as [i Hnone|i line i' new rest Hline Hb Hrest IH];
    [simpl; lia|].
  destruct (loop_body_spec lines i line []) as (i2 & n2 & E & Hlt & Hem).
  rewrite Hb in E. cbn [app] in E. injection E as <- <-.
  assert (Hi : i < List.length lines)
    by (apply nth_error_Some; congruence).
  rewrite length_app.
  destruct Hem as [->|(e & -> & He & Hn)]; simpl List.length; [lia|].
  assert (Hcase : rest = [] \/ i' < List.length lines).
  { inversion Hrest as [? Hnone|? ? ? ? ? Hl' _ _]; subst; [now left|].
    right. apply nth_error_Some; congruence. }
  destruct Hcase as [->|Hi']; simpl List.length; lia.
Qed.

(** ** The extractor and the lookahead, from their results *)

Lemma extract_two_quotes (pre mid post : str) :
  ~ In dquote pre -> ~ In dquote post ->
  _extract_quoted_robust (pre ++ dquote :: mid ++ dquote :: post) = Some mid.
Proof.
  intros Hpre Hpost.
  pose proof (len_nonneg pre) as Hp; pose proof (len_nonneg mid) as Hm.
  unfold _extract_quoted_robust.
  destruct (quotes_found pre mid post Hpre Hpost) as [-> ->].
  replace (len pre =? -1)%Z with false by (symmetry; apply Z.eqb_neq; lia).
  replace (len pre + 1 + len mid =? len pre)%Z with false
    by (symmetry; apply Z.eqb_neq; lia).
  f_equal.
  replace (pre ++ dquote :: mid ++ dquote :: post)
    with ((pre ++ [dquote]) ++ mid ++ (dquote :: post))
    by (now rewrite <- app_assoc).
  replace (len pre + 1)%Z with (len (pre ++ [dquote]))
    by (rewrite len_app; reflexivity).
  apply slice_middle.
Qed.

Lemma extract_one_quote (pre post : str) :
  ~ In dquote pre -> ~ In dquote post ->
  _extract_quoted_robust (pre ++ dquote :: post) = None.
Proof.
  intros Hpre Hpost. pose proof (len_nonneg pre) as Hp.
  unfold _extract_quoted_robust, find, rfind.
  rewrite find_from_first, rfind_from_last by assumption.
  replace (0 + len pre =? -1)%Z with false
    by (symmetry; apply Z.eqb_neq; lia).
  now rewrite Z.eqb_refl.
Qed.

Lemma extract_no_quote (line : str) :
  ~ In dquote line -> _extract_quoted_robust line = None.
Proof.
  intro Hn. unfold _extract_quoted_robust, find.
  now rewrite find_from_absent.
Qed.

(** X1. Whatever [_extract_quoted_robust] returns stands in the line
    between its first and its last quote: the line is some text without a
    quote, a quote, the result, a quote, and some text without a quote. *)
Theorem X1_extract_sound (line s : str)
  (H : _extract_quoted_robust line = Some s) :
  exists pre post,
    line = pre ++ dquote :: s ++ dquote :: post
    /\ ~ In dquote pre /\ ~ In dquote post.
Proof.
  destruct (line_shapes line)
    as [Hn|[(pre & post & -> & Hpre & Hpost)
           |(pre & mid & post & -> & Hpre & Hpost)]].
  - rewrite extract_no_quote in H by exact Hn. discriminate.
  - rewrite extract_one_quote in H by assumption. discriminate.
  - rewrite extract_two_quotes in H by assumption.
    injection H as <-. now exists pre, post.
Qed.

Lemma X1_extract_sound_witness :
  exists pre post,
    lit "e " ++ quoted "a" ++ lit " # c"
    = pre ++ dquote :: lit "a" ++ dquote :: post
    /\ ~ In dquote pre /\ ~ In dquote post.
Proof.
  apply (X1_extract_sound (lit "e " ++ quoted "a" ++ lit " # c") (lit "a")).
  reflexivity.
Defined.

(** X2. What the lookahead returns is a line of the input at or after the
    start index, with its own index; it is a code candidate and no
    boundary, and every line from the start up to it is neither. *)
Theorem X2_lookahead_sound (lines : list str) (start_index k : nat)
  (line : str)
  (H : _find_next_relevant_line lines start_index = Some (k, line)) :
  start_index <= k < List.length lines
  /\ nth_error lines k = Some line
  /\ is_boundary line = false
  /\ is_code_candidate line = true
  /\ forall m l, start_index <= m < k -> nth_error lines m = Some l ->
                 looked_past l.
Proof.
  unfold _find_next_relevant_line in H.
  apply find_next_from_sound in H as (Hle & Hk & Hb & Hc & Hbetween).
  apply (nth_error_skipn_at lines start_index) in Hk; [|exact Hle].
  assert (Hlen : k < List.length lines)
    by (apply nth_error_Some; congruence).
  split; [lia|]. do 3 (split; [assumption|]).
  intros m l Hm Hl. apply (Hbetween (m - start_index)); [lia|].
  rewrite nth_error_skipn.
  now replace (start_index + (m - start_index)) with m by lia.
Qed.

Lemma X2_lookahead_sound_witness :
  1 <= 3 < 4
  /\ nth_error [lit "# e " ++ quoted "Hi"; lit ""; lit "voice sustain";
                lit "    e " ++ quoted "Ho"] 3
     = Some (lit "    e " ++ quoted "Ho")
  /\ is_boundary (lit "    e " ++ quoted "Ho") = false
  /\ is_code_candidate (lit "    e " ++ quoted "Ho") = true
  /\ forall m l, 1 <= m < 3 ->
       nth_error [lit "# e " ++ quoted "Hi"; lit ""; lit "voice sustain";
                  lit "    e " ++ quoted "Ho"] m = Some l ->
       looked_past l.
Proof.
  apply (X2_lookahead_sound
           [lit "# e " ++ quoted "Hi"; lit ""; lit "voice sustain";
            lit "    e " ++ quoted "Ho"] 1 3 (lit "    e " ++ quoted "Ho")).
  reflexivity.
Defined.

(** X3. The lookahead steps over lines that are neither boundaries nor
    code candidates and returns the first code candidate after them,
    with its index, provided that line is no boundary. *)
Theorem X3_lookahead_first_candidate (lines : list str) (start_index : nat)
  (pre : list str) (l : str) (rest : list str)
  (Hs : skipn start_index lines = pre ++ l :: rest)
  (Hpre : Forall looked_past pre)
  (Hb : is_boundary l = false)
  (Hc : is_code_candidate l = true) :
  _find_next_relevant_line lines start_index
  = Some (start_index + List.length pre, l).
Proof.
  unfold _find_next_relevant_line. rewrite Hs.
  now apply find_next_from_first.
Qed.

Lemma X3_lookahead_first_candidate_witness :
  _find_next_relevant_line
    [lit "# e " ++ quoted "Hi"; lit ""; lit "voice sustain";
     lit "    e " ++ quoted "Ho"; lit "x"] 1
  = Some (1 + List.length [lit ""; lit "voice sustain"],
          lit "    e " ++ quoted "Ho").
Proof.
  apply (X3_lookahead_first_candidate _ 1 [lit ""; lit "voice sustain"]
           (lit "    e " ++ quoted "Ho") [lit "x"]);
    [reflexivity | | reflexivity | reflexivity].
  repeat constructor.
Defined.

Lemma find_next_from_none (rest : list str) :
  forall i,
    find_next_from rest i = None ->
    (exists pre b rest',
        rest = pre ++ b :: rest'
        /\ Forall (fun l => is_code_candidate l = false) pre
        /\ is_boundary b = true)
    \/ Forall (fun l => is_code_candidate l = false) rest.
Proof.
  unfold is_boundary, is_code_candidate.
  induction rest as [|x rest IH]; intros i H; [now right|].
  cbn [find_next_from] in H.
  destruct (startswith (strip x) (lit "translate ")) eqn:Hb.
  - left. now exists [], x, rest.
  - destruct (matches CODE_TRANSLATION_START_PATTERN (strip x)) eqn:Hc;
      [discriminate|].
    apply IH in H as [(pre & b & rest' & -> & Hpre & Hb')|Hall].
    + left. exists (x :: pre), b, rest'. repeat split; auto.
    + right. now constructor.
Qed.

(** X4. The lookahead reports no match in two cases only: a boundary
    line comes before any code candidate, or no line from the start index
    to the end of the input is a code candidate. *)
Theorem X4_lookahead_no_match (lines : list str) (start_index : nat) :
  _find_next_relevant_line lines start_index = None
  <->
  (exists pre b rest,
      skipn start_index lines = pre ++ b :: rest
      /\ Forall (fun l => is_code_candidate l = false) pre
      /\ is_boundary b = true)
  \/ Forall (fun l => is_code_candidate l = false) (skipn start_index lines).
Proof.
  unfold _find_next_relevant_line. split.
  - apply find_next_from_none.
  - intros [(pre & b & rest & -> & Hpre & Hb)|Hall].
    + now apply find_next_from_boundary.
    + now apply find_next_from_exhausted.
Qed.

(** ** The entries of a parse *)

(** X5. The target of every entry is a line of the input, and the
    entry's translated text is the quoted span of that line. *)
Theorem X5_target_holds_translation (lines : list str) :
  exists entries,
    read_entries lines = Ok entries
    /\ Forall (fun e => exists cl,
                   nth_error lines (new_line_num e) = Some cl
                   /\ _extract_quoted_robust cl = Some (translated e))
         entries.
Proof.
  destruct (read_entries_origin lines) as (entries & H & Ho).
  exists entries; split; [exact H|].
  eapply Forall_impl; [|exact Ho].
  intros e (t & [(tl & cl & _ & _ & Hcl & _ & _ & _ & Htr & _)
                |(tl & cl & _ & _ & Hcl & _ & _ & _ & _ & _ & _ & Htr & _)]);
    now exists cl.
Qed.

(** X6. The source of every entry is the quoted span of a line before
    its target: an [old] line for an [old_new] entry, and for the other
    formats a comment line whose content starts neither with [game/] nor
    with [renpy/]. *)
Theorem X6_source_from_trigger (lines : list str) :
  exists entries,
    read_entries lines = Ok entries
    /\ Forall (fun e => exists t, has_trigger lines t e) entries.
Proof.
  destruct (read_entries_origin lines) as (entries & H & Ho).
  exists entries; split; [exact H|].
  eapply Forall_impl; [|exact Ho].
  intros e (t & Ht). exists t. now apply origin_has_trigger.
Qed.

(** X7. An entry has a tag exactly when its format is [comment_tag], and
    the tag then starts with a letter, holds only word characters,
    whitespace and [@], and has no whitespace at its ends. *)
Theorem X7_tag_presence_and_shape (lines : list str) :
  exists entries,
    read_entries lines = Ok entries
    /\ Forall (fun e => match tag e with
                        | Some tg =>
                            format_type e = fmt_comment_tag /\ tag_shaped tg
                        | None => format_type e <> fmt_comment_tag
                        end) entries.
Proof.
  destruct (read_entries_origin lines) as (entries & H & Ho).
  exists entries; split; [exact H|].
  eapply Forall_impl; [|exact Ho].
  intros e (t & [(tl & cl & _ & _ & _ & _ & _ & _ & _ & Hf & Htag & _)
                |(tl & cl & _ & _ & _ & _ & _ & _ & _ & _ & _ & _ & Hcl & _)]).
  - rewrite Htag, Hf. discriminate.
  - apply classify_sound in Hcl
      as [(-> & g1 & g2 & _ & Hg2 & _ & ->)|(-> & -> & _)];
      [|discriminate].
    split; [reflexivity|]. now apply (TAG_PATTERN_tag_shaped (strip cl)).
Qed.

(** X8. A [comment_tag] entry comes from a comment line (the line that
    holds its source and is followed, with no boundary and no other code
    candidate in between, by the target) on which [TAG_PATTERN] matches
    the text after the hash sign; the pattern matches the stripped target
    line too, and the tag of the entry is the stripped group 1 of both
    matches. *)
Theorem X8_tag_agrees_on_both_lines (lines : list str) :
  exists entries,
    read_entries lines = Ok entries
    /\ Forall (fun e =>
                 format_type e = fmt_comment_tag ->
                 exists t tl cl g1 g2,
                   comment_origin lines t e
                   /\ nth_error lines t = Some tl
                   /\ is_comment_line tl = true
                   /\ _extract_quoted_robust tl = Some (source e)
                   /\ nth_error lines (new_line_num e) = Some cl
                   /\ re_match TAG_PATTERN (split1_last hash tl)
                      = Some (Some g1)
                   /\ re_match TAG_PATTERN (strip cl) = Some (Some g2)
                   /\ tag e = Some (strip g1)
                   /\ tag e = Some (strip g2)) entries.
Proof.
  destruct (read_entries_origin lines) as (entries & H & Ho).
  exists entries; split; [exact H|].
  eapply Forall_impl; [|exact Ho].
  intros e (t & [(tl & cl & _ & _ & _ & _ & _ & _ & _ & Hf & _)|Hor]) Hfmt;
    [rewrite Hf in Hfmt; discriminate|].
  pose proof Hor as (tl & cl & Hlt & Htl & Hcl & _ & Hc & _ & Hsrc & _ & _
                     & _ & Hcls & _).
  apply classify_sound in Hcls
    as [(_ & g1 & g2 & Hg1 & Hg2 & Heq & Htag)|(Hno & _)];
    [|rewrite Hno in Hfmt; discriminate].
  exists t, tl, cl, g1, g2. rewrite Heq.
  split; [exact Hor|]. now repeat split.
Qed.

(** X9. An entry of a comment format never reaches across a block
    boundary: from the line after its comment line (the line that holds
    its source and gives, with the target line, its format and tag) up to
    its target line, no line starts (once stripped) with [translate ]. *)
Theorem X9_comment_entries_within_block (lines : list str) :
  exists entries,
    read_entries lines = Ok entries
    /\ Forall (fun e =>
                 format_type e <> fmt_old_new ->
                 exists t tl,
                   comment_origin lines t e
                   /\ nth_error lines t = Some tl
                   /\ is_comment_line tl = true
                   /\ _extract_quoted_robust tl = Some (source e)
                   /\ forall m l, t < m <= new_line_num e ->
                                  nth_error lines m = Some l ->
                                  is_boundary l = false) entries.
Proof.
  destruct (read_entries_origin lines) as (entries & H & Ho).
  exists entries; split; [exact H|].
  eapply Forall_impl; [|exact Ho].
  intros e (t & [(tl & cl & _ & _ & _ & _ & _ & _ & _ & Hf & _)|Hor]) Hfmt;
    [contradiction|].
  pose proof Hor as (tl & cl & Hlt & Htl & Hcl & _ & Hc & _ & Hsrc & Hb & _
                     & _ & _ & Hbetween).
  exists t, tl. split; [exact Hor|]. do 3 (split; [assumption|]).
  intros m l Hm Hl.
  destruct (Nat.eq_dec m (new_line_num e)) as [->|Hne].
  - rewrite Hcl in Hl. now injection Hl as <-.
  - apply (Hbetween m l); [lia | exact Hl].
Qed.

(** X10. An [old_new] entry comes from an [old] line that holds its
    source; its target is a line that starts (once stripped) with [new ]
    and holds its translation, and every line between that [old] line and
    the target is one the scan steps over: a [new] line without a quoted
    span, or a line that is no [new], [old], comment or code-candidate
    line. *)
Theorem X10_old_new_entries_adjacent (lines : list str) :
  exists entries,
    read_entries lines = Ok entries
    /\ Forall (fun e =>
                 format_type e = fmt_old_new ->
                 exists t tl cl,
                   t < new_line_num e
                   /\ nth_error lines t = Some tl
                   /\ is_old_line tl = true
                   /\ _extract_quoted_robust tl = Some (source e)
                   /\ nth_error lines (new_line_num e) = Some cl
                   /\ is_new_line cl = true
                   /\ _extract_quoted_robust cl = Some (translated e)
                   /\ forall m l, t < m < new_line_num e ->
                                  nth_error lines m = Some l ->
                                  stepped_over l) entries.
Proof.
  destruct (read_entries_origin lines) as (entries & H & Ho).
  exists entries; split; [exact H|].
  eapply Forall_impl; [|exact Ho].
  intros e (t & [(tl & cl & Hlt & Htl & Hcl & Ho' & Hsrc & Hn & Htr & _ & _
                  & Hbetween)
                |(tl & cl & _ & _ & _ & _ & _ & _ & _ & _ & _ & _
                  & Hcls & _)]) Hfmt.
  - now exists t, tl, cl.
  - rewrite Hfmt in Hcls.
    apply classify_sound in Hcls as [(Hx & _)|(Hx & _)]; discriminate.
Qed.

(** X11. The pairs of a parse follow each other in the input: the line
    an entry takes its source from stands after the target of the entry
    before it, and before its own target. *)
Theorem X11_pairs_in_order (lines : list str) :
  exists entries,
    read_entries lines = Ok entries /\ pairs_in_order lines 0 entries.
Proof.
  destruct (read_entries_trace lines) as (entries & H & Htr).
  exists entries; split; [exact H|]. now apply parse_from_in_order.
Qed.

(** X12. A parse has at most one entry for every two lines of input. *)
Theorem X12_entry_count_bound (lines : list str) :
  exists entries,
    read_entries lines = Ok entries
    /\ 2 * List.length entries <= List.length lines.
Proof.
  destruct (read_entries_trace lines) as (entries & H & Htr).
  exists entries; split; [exact H|].
  apply parse_from_count in Htr. lia.
Qed.

(** X13. An input without any double quote has no entry. *)
Theorem X13_no_quote_no_entry (lines : list str)
  (H : Forall (fun l => ~ In dquote l) lines) :
  read_entries lines = Ok [].
Proof.
  destruct (read_entries_origin lines) as (entries & Hr & Ho).
  rewrite Hr. f_equal.
  destruct entries as [|e entries]; [reflexivity|].
  exfalso. inversion Ho as [|? ? He _]; subst.
  assert (Hcl : exists cl, In cl lines
                           /\ _extract_quoted_robust cl <> None).
  { destruct He as (t & [(tl & cl & _ & _ & Hcl & _ & _ & _ & Htr & _)
                        |(tl & cl & _ & _ & Hcl & _ & _ & _ & _ & _ & _
                          & Htr & _)]);
      exists cl; (split; [now apply nth_error_In in Hcl | congruence]). }
  destruct Hcl as (cl & Hin & Hex).
  rewrite Forall_forall in H. apply Hex, extract_no_quote. now apply H.
Qed.

Lemma X13_no_quote_no_entry_witness :
  read_entries [lit "translate chinese start:"; lit "# e hello";
                lit "old line"; lit "new line"] = Ok [].
Proof.
  apply X13_no_quote_no_entry.
  repeat constructor; vm_compute; intuition discriminate.
Defined.

(** ** Lines with indentation and trailing whitespace *)

Lemma all_space_no_char (ws : str) (c : ascii) :
  all_space ws -> is_space c = false -> ~ In c ws.
Proof.
  intros Hws Hc Hin. unfold all_space in Hws. rewrite Forall_forall in Hws.
  apply Hws in Hin. congruence.
Qed.

Lemma lstrip_all_space (ws rest : str) :
  all_space ws -> lstrip (ws ++ rest) = lstrip rest.
Proof.
  induction 1 as [|x ws Hx _ IH]; [reflexivity|].
  cbn [app lstrip]. now rewrite Hx.
Qed.

Lemma rstrip_all_space (rest ws : str) :
  all_space ws -> rstrip (rest ++ ws) = rstrip rest.
Proof.
  intro Hws. unfold rstrip. rewrite rev_app_distr.
  rewrite lstrip_all_space; [reflexivity|]. now apply Forall_rev.
Qed.

Lemma rstrip_nonspace_end (r : str) (y : ascii) :
  is_space y = false -> rstrip (r ++ [y]) = r ++ [y].
Proof.
  intro Hy. unfold rstrip. rewrite rev_app_distr. cbn [rev app].
  rewrite lstrip_nonspace by exact Hy.
  cbn [rev]. now rewrite rev_involutive.
Qed.

(** Stripping a line leaves its core: what stands between the leading and
    the trailing whitespace, when the core begins and ends with
    characters that are no whitespace. *)
Lemma strip_core (ws : str) (x : ascii) (mid : str) (y : ascii) (ws' : str) :
  all_space ws -> all_space ws' ->
  is_space x = false -> is_space y = false ->
  strip (ws ++ x :: mid ++ y :: ws') = x :: mid ++ [y].
Proof.
  intros Hws Hws' Hx Hy. unfold strip.
  rewrite lstrip_all_space, lstrip_nonspace by assumption.
  replace (x :: mid ++ y :: ws') with (((x :: mid) ++ [y]) ++ ws')
    by (now rewrite <- app_assoc).
  rewrite rstrip_all_space by exact Hws'.
  now rewrite rstrip_nonspace_end.
Qed.

Lemma nth_error_skipn_cons (lines : list str) (n : nat) (l : str) :
  nth_error lines n = Some l -> exists rest, skipn n lines = l :: rest.
Proof.
  revert n; induction lines as [|x lines IH]; intros [|n] H; simpl in H;
    try discriminate.
  - injection H as ->. now exists lines.
  - now apply IH.
Qed.

(** ** What the inner scan of the [old] branch does on a given input *)

Lemma scan_new_step (x : str) (rest : list str) (j : nat) :
  stepped_over x -> scan_new (x :: rest) j = scan_new rest (S j).
Proof.
  unfold stepped_over, is_new_line, is_old_line, is_comment_line,
    is_code_candidate.
  intros [(Hn & He)|(Hn & Ho & Hc & Hd)]; cbn [scan_new];
    rewrite Hn; [now rewrite He|].
  now rewrite Ho, Hc, Hd.
Qed.

Lemma scan_new_finds (pre : list str) (l : str) (rest : list str)
  (tr : str) :
  forall j,
    Forall stepped_over pre ->
    is_new_line l = true -> _extract_quoted_robust l = Some tr ->
    scan_new (pre ++ l :: rest) j = Found (j + List.length pre) tr.
Proof.
  induction pre as [|x pre IH]; intros j Hpre Hn He.
  - unfold is_new_line in Hn. cbn [app scan_new List.length].
    rewrite Hn, He. now rewrite Nat.add_0_r.
  - inversion Hpre as [|? ? Hx Hpre']; subst.
    cbn [app]. rewrite scan_new_step by exact Hx.
    rewrite IH by assumption. cbn [List.length]. f_equal; lia.
Qed.

Lemma scan_new_breaks (pre : list str) (l : str) (rest : list str) :
  forall j,
    Forall stepped_over pre -> ends_scan l ->
    scan_new (pre ++ l :: rest) j = Broke (j + List.length pre).
Proof.
  induction pre as [|x pre IH]; intros j Hpre [Hn Hb].
  - unfold is_new_line, is_old_line, is_comment_line, is_code_candidate
      in *.
    cbn [app scan_new List.length]. rewrite Hn, Hb.
    now rewrite Nat.add_0_r.
  - inversion Hpre as [|? ? Hx Hpre']; subst.
    cbn [app]. rewrite scan_new_step by exact Hx.
    rewrite IH by (assumption || now split). cbn [List.length].
    f_equal; lia.
Qed.

Lemma scan_new_runs_out (rest : list str) :
  forall j, Forall stepped_over rest -> scan_new rest j = Exhausted.
Proof.
  induction rest as [|x rest IH]; intros j Hall; [reflexivity|].
  inversion Hall as [|? ? Hx Hrest]; subst.
  rewrite scan_new_step by exact Hx. now apply IH.
Qed.

Lemma framed_strip (ws p a ws' : str) :
  all_space ws -> all_space ws' -> head_not_space p ->
  strip (framed ws p a ws') = p ++ dquote :: a ++ [dquote].
Proof.
  intros Hws Hws' Hp. unfold framed.
  destruct p as [|x ps]; cbn [app].
  - now apply strip_core.
  - replace (x :: ps ++ dquote :: a ++ dquote :: ws')
      with (x :: (ps ++ dquote :: a) ++ dquote :: ws')
      by (now rewrite <- app_assoc).
    rewrite strip_core by assumption || reflexivity.
    now rewrite <- app_assoc.
Qed.

Lemma framed_extract (ws p a ws' : str) :
  all_space ws -> all_space ws' -> ~ In dquote p ->
  _extract_quoted_robust (framed ws p a ws') = Some a.
Proof.
  intros Hws Hws' Hp. unfold framed. rewrite app_assoc.
  apply extract_two_quotes.
  - intro Hin. apply in_app_or in Hin as [Hin|Hin]; [|now apply Hp].
    now apply (all_space_no_char ws dquote Hws).
  - now apply all_space_no_char.
Qed.

(** The turn of the loop on an [old] line followed, after lines the scan
    steps over, by a [new] line. *)
Lemma old_new_turn (lines : list str) (i : nat)
  (ws1 a ws1' : str) (pre : list str) (ws2 b ws2' : str)
  (rest : list str) (entries : list Entry)
  (Hws1 : all_space ws1) (Hws1' : all_space ws1')
  (Hws2 : all_space ws2) (Hws2' : all_space ws2')
  (Hnext : skipn (i + 1) lines
           = pre ++ framed ws2 (lit "new ") b ws2' :: rest)
  (Hpre : Forall stepped_over pre) :
  loop_body lines i (framed ws1 (lit "old ") a ws1') entries
  = Ok (i + 1 + List.length pre + 1 + 1,
        entries ++ [mkEntry a b (i + 1 + List.length pre)
                      fmt_old_new None]).
Proof.
  unfold loop_body.
  rewrite framed_strip by (assumption || reflexivity).
  change (startswith (lit "old " ++ dquote :: a ++ [dquote]) (lit "old "))
    with true. cbv iota.
  rewrite framed_extract
    by (assumption || (vm_compute; intuition discriminate)).
  rewrite Hnext.
  rewrite (scan_new_finds pre _ rest b); [| exact Hpre | |].
  - reflexivity.
  - unfold is_new_line.
    now rewrite framed_strip by (assumption || reflexivity).
  - apply framed_extract;
      assumption || (vm_compute; intuition discriminate).
Qed.

(** X14. An [old] line and the first line after it that the scan does
    not step over, when that is a [new] line, give one [old_new] entry,
    whatever the two quoted texts are (quotes inside them included) and
    however the two lines are indented: the source and the translation
    are the two texts, and the target is the [new] line. *)
Theorem X14_old_new_pair (lines : list str) (i : nat)
  (ws1 a ws1' : str) (pre : list str) (ws2 b ws2' : str)
  (rest : list str) (entries : list Entry)
  (Hws1 : all_space ws1) (Hws1' : all_space ws1')
  (Hws2 : all_space ws2) (Hws2' : all_space ws2')
  (Hnext : skipn (i + 1) lines
           = pre ++ framed ws2 (lit "new ") b ws2' :: rest)
  (Hpre : Forall stepped_over pre) :
  exists i',
    loop_body lines i (framed ws1 (lit "old ") a ws1') entries
    = Ok (i', entries ++ [mkEntry a b (i + 1 + List.length pre)
                            fmt_old_new None])
    /\ i + 1 + List.length pre < i'.
Proof.
  eexists; split;
    [now apply (old_new_turn lines i ws1 a ws1' pre ws2 b ws2' rest) | lia].
Qed.

Lemma X14_old_new_pair_witness :
  exists i',
    loop_body
      [lit "translate chinese strings:";
       lit "    old " ++ dquote :: lit "Say " ++ quoted "hi" ++ [dquote];
       lit "";
       lit "    new " ++ dquote :: lit "Dis " ++ quoted "salut" ++ [dquote]
         ++ lit " "] 1
      (framed (lit "    ") (lit "old ") (lit "Say " ++ quoted "hi") []) []
    = Ok (i', [] ++ [mkEntry (lit "Say " ++ quoted "hi")
                       (lit "Dis " ++ quoted "salut")
                       (1 + 1 + List.length [lit ""]) fmt_old_new None])
    /\ 1 + 1 + List.length [lit ""] < i'.
Proof.
  apply (X14_old_new_pair _ 1 (lit "    ") _ [] [lit ""] (lit "    ")
           (lit "Dis " ++ quoted "salut") (lit " ") []).
  - repeat constructor.
  - constructor.
  - repeat constructor.
  - repeat constructor.
  - reflexivity.
  - constructor; [|constructor]. right. now vm_compute.
Defined.

(** X17. An [old] line gives no entry when the first line after it that
    the scan does not step over is an [old], comment or code-candidate
    line that is no [new] line, and when every line after it is stepped
    over; the entries are left as they were. *)
Theorem X17_unmatched_old_dropped (lines : list str) (i : nat) (line : str)
  (entries : list Entry)
  (Hold : is_old_line line = true)
  (Hnext : (exists pre l rest,
               skipn (i + 1) lines = pre ++ l :: rest
               /\ Forall stepped_over pre /\ ends_scan l)
           \/ Forall stepped_over (skipn (i + 1) lines)) :
  exists i', loop_body lines i line entries = Ok (i', entries) /\ i < i'.
Proof.
  unfold loop_body. unfold is_old_line in Hold. rewrite Hold.
  destruct (_extract_quoted_robust line) as [src|];
    [|eexists; split; [reflexivity | lia]].
  destruct Hnext as [(pre & l & rest & -> & Hpre & Hl)|Hall].
  - rewrite scan_new_breaks by assumption.
    eexists; split; [reflexivity | lia].
  - rewrite scan_new_runs_out by assumption.
    eexists; split; [reflexivity | lia].
Qed.

Lemma X17_unmatched_old_dropped_witness :
  exists i',
    loop_body [lit "old " ++ quoted "A"; lit ""; lit "old " ++ quoted "C";
               lit "new " ++ quoted "D"] 0 (lit "old " ++ quoted "A") []
    = Ok (i', []) /\ 0 < i'.
Proof.
  apply X17_unmatched_old_dropped; [reflexivity|].
  left. exists [lit ""], (lit "old " ++ quoted "C"),
    [lit "new " ++ quoted "D"].
  split; [reflexivity|]. split.
  - constructor; [|constructor]. right. now vm_compute.
  - now vm_compute.
Defined.

(** ** Matches of the three patterns on lines of a known form *)

Lemma star_final (c : ascii -> bool) (s : str) :
  forall pos cap, star c pos s cap (fun _ _ cap' => Some cap') = Some cap.
Proof.
  induction s as [|x t IH]; intros pos cap; cbn [star]; [reflexivity|].
  destruct (c x); [|reflexivity]. now rewrite IH.
Qed.

(** The greedy star goes as far as the continuation lets it: if it
    succeeds after the run [w], it succeeds with the same result from
    before [w]. *)
Lemma star_prefix (c : ascii -> bool) (w : str) :
  forall pos s' cap (k : cont) v,
    Forall (fun x => c x = true) w ->
    star c (pos + List.length w) s' cap k = Some v ->
    star c pos (w ++ s') cap k = Some v.
Proof.
  induction w as [|x w IH]; intros pos s' cap k v Hw H.
  - cbn [List.length] in H. now rewrite Nat.add_0_r in H.
  - inversion Hw as [|? ? Hx Hw']; subst.
    cbn [app star]. rewrite Hx.
    rewrite (IH (S pos) s' cap k v Hw'); [reflexivity|].
    cbn [List.length] in H. now rewrite Nat.add_succ_r in H.
Qed.

Lemma star_stops (c : ascii -> bool) (x : ascii) (t : str) (pos : nat)
  (cap : option str) (k : cont) :
  c x = false -> star c pos (x :: t) cap k = k pos (x :: t) cap.
Proof. intro H; cbn [star]; now rewrite H. Qed.

Lemma star_gives_back (c : ascii -> bool) (y : ascii) (s' : str) (pos : nat)
  (cap : option str) (k : cont) :
  c y = true -> star c (S pos) s' cap k = None ->
  star c pos (y :: s') cap k = k pos (y :: s') cap.
Proof. intros Hy Hn; cbn [star]; now rewrite Hy, Hn. Qed.

Lemma space_not_letter (c : ascii) : is_space c = true -> is_letter c = false.
Proof.
  intro H. destruct (is_letter c) eqn:E; [|reflexivity].
  apply letter_not_space in E. congruence.
Qed.

Lemma space_tag_char (c : ascii) : is_space c = true -> tag_char c = true.
Proof. intro H. unfold tag_char. rewrite H. now rewrite orb_true_r. Qed.

(** [TAG_PATTERN] does not match a text whose first character after the
    leading whitespace is no letter. *)
Lemma TAG_PATTERN_needs_letter (ws : str) (y : ascii) (rest : str) :
  all_space ws -> is_space y = false -> is_letter y = false ->
  re_match TAG_PATTERN (ws ++ y :: rest) = None.
Proof.
  intros Hws Hy Hl. unfold re_match, TAG_PATTERN. cbn [seq run Nat.eqb].
  generalize 0 as pos.
  induction Hws as [|x ws Hx _ IH]; intro pos; cbn [app].
  - rewrite star_stops by exact Hy. cbn [run]. now rewrite Hl.
  - cbn [star]. rewrite Hx, IH. cbn [orelse run].
    now rewrite (space_not_letter x Hx).
Qed.

(** [TAG_PATTERN] on a tagged text: whitespace, a letter and tag
    characters, whitespace, a quote.  Group 1 runs up to the last
    whitespace character before the quote. *)
Lemma TAG_PATTERN_tagged (ws : str) (x : ascii) (w sps : str) (sp : ascii)
  (rest : str) :
  all_space ws -> is_letter x = true ->
  Forall (fun c => tag_char c = true) w ->
  all_space sps -> is_space sp = true ->
  re_match TAG_PATTERN (ws ++ x :: (w ++ sps) ++ sp :: dquote :: rest)
  = Some (Some (x :: w ++ sps)).
Proof.
  intros Hws Hx Hw Hsps Hsp. unfold re_match, TAG_PATTERN.
  cbn [seq run Nat.eqb].
  apply star_prefix; [exact Hws|].
  rewrite star_stops by (now apply letter_not_space).
  cbn [run]. rewrite Hx.
  assert (Hrun : Forall (fun c => tag_char c = true) (w ++ sps)).
  { apply Forall_app; split; [exact Hw|].
    eapply Forall_impl; [|exact Hsps]. apply space_tag_char. }
  apply star_prefix; [exact Hrun|].
  rewrite star_gives_back; [| now apply space_tag_char | reflexivity].
  cbn [run]. rewrite Hsp. rewrite star_stops by reflexivity.
  cbn [run]. change (is_char dquote dquote) with true. cbv iota.
  do 2 f_equal.
  replace (S (0 + List.length ws) + List.length (w ++ sps)
           - (0 + List.length ws)) with (S (List.length (w ++ sps))) by lia.
  cbn [firstn]. f_equal.
  now rewrite firstn_app, firstn_all, Nat.sub_diag, app_nil_r.
Qed.

(** [CODE_TRANSLATION_START_PATTERN] matches a text that starts with a
    quote, and a tagged text. *)
Lemma CODE_PATTERN_quote (rest : str) :
  matches CODE_TRANSLATION_START_PATTERN (dquote :: rest) = true.
Proof. reflexivity. Qed.

Lemma CODE_PATTERN_tagged (x : ascii) (w sps : str) (sp : ascii)
  (rest : str) :
  is_letter x = true ->
  Forall (fun c => tag_char c = true) w ->
  all_space sps -> is_space sp = true ->
  matches CODE_TRANSLATION_START_PATTERN
    (x :: (w ++ sps) ++ sp :: dquote :: rest) = true.
Proof.
  intros Hx Hw Hsps Hsp.
  unfold matches, re_match, CODE_TRANSLATION_START_PATTERN.
  cbn [seq run Nat.eqb].
  rewrite star_stops by (now apply letter_not_space).
  cbn [run]. rewrite Hx.
  assert (Hrun : Forall (fun c => tag_char c = true) (w ++ sps)).
  { apply Forall_app; split; [exact Hw|].
    eapply Forall_impl; [|exact Hsps]. apply space_tag_char. }
  erewrite star_prefix; [reflexivity | exact Hrun |].
  rewrite star_gives_back; [| now apply space_tag_char | reflexivity].
  cbn [run]. rewrite Hsp. rewrite star_stops by reflexivity.
  reflexivity.
Qed.

Lemma COMMENT_PATTERN_hash (rest : str) :
  matches COMMENT_TRANSLATION_START_PATTERN (hash :: rest) = true.
Proof.
  unfold matches, re_match, COMMENT_TRANSLATION_START_PATTERN.
  cbn [seq run Nat.eqb]. rewrite star_stops by reflexivity.
  cbn [run]. change (is_char hash hash) with true. cbv iota.
  now rewrite star_final.
Qed.

Lemma startswith_nil (s : str) : startswith s [] = true.
Proof. now destruct s. Qed.

Lemma split1_last_hash (ws rest : str) :
  all_space ws -> split1_last hash (ws ++ hash :: rest) = rest.
Proof.
  intro Hws. unfold split1_last, find.
  rewrite find_from_first by (now apply all_space_no_char).
  pose proof (len_nonneg ws) as Hlen.
  replace (0 + len ws =? -1)%Z with false
    by (symmetry; apply Z.eqb_neq; lia).
  replace (Z.to_nat (0 + len ws + 1)) with (S (List.length ws))
    by (unfold len; lia).
  replace (ws ++ hash :: rest) with ((ws ++ [hash]) ++ rest)
    by (now rewrite <- app_assoc).
  rewrite skipn_app.
  replace (S (List.length ws)) with (List.length (ws ++ [hash]))
    by (rewrite length_app; simpl; lia).
  now rewrite skipn_all, Nat.sub_diag.
Qed.

Lemma lstrip_to_core (ws : str) (x : ascii) (rest : str) :
  all_space ws -> is_space x = false ->
  lstrip (ws ++ x :: rest) = x :: rest.
Proof.
  intros Hws Hx. rewrite lstrip_all_space by exact Hws.
  now apply lstrip_nonspace.
Qed.

(** The turn of the loop on a comment line that holds a quoted text and
    is followed by a line that starts with a quote. *)
Lemma plain_comment_turn (lines : list str) (i : nat)
  (ws1 wsm a ws1' : str) (pre : list str) (ws2 b ws2' : str)
  (rest : list str) (entries : list Entry)
  (Hws1 : all_space ws1) (Hwsm : all_space wsm) (Hws1' : all_space ws1')
  (Hws2 : all_space ws2) (Hws2' : all_space ws2')
  (Hnext : skipn (i + 1) lines = pre ++ framed ws2 [] b ws2' :: rest)
  (Hpre : Forall looked_past pre) :
  loop_body lines i (framed ws1 (hash :: wsm) a ws1') entries
  = Ok (i + 1 + List.length pre + 1,
        entries ++ [mkEntry a b (i + 1 + List.length pre)
                      fmt_comment_no_tag None]).
Proof.
  assert (Hcode : strip (framed ws2 [] b ws2') = dquote :: b ++ [dquote])
    by (now apply framed_strip).
  assert (Hlook : _find_next_relevant_line lines (i + 1)
                  = Some (i + 1 + List.length pre, framed ws2 [] b ws2')).
  { unfold _find_next_relevant_line. rewrite Hnext.
    apply find_next_from_first; [exact Hpre| |].
    - unfold is_boundary. now rewrite Hcode.
    - unfold is_code_candidate. now rewrite Hcode. }
  assert (Hrest : split1_last hash (framed ws1 (hash :: wsm) a ws1')
                  = wsm ++ dquote :: a ++ dquote :: ws1').
  { unfold framed. cbn [app]. now apply split1_last_hash. }
  unfold loop_body, comment_source_of.
  rewrite framed_strip by (assumption || reflexivity).
  cbn [app].
  replace (startswith (hash :: wsm ++ dquote :: a ++ [dquote]) (lit "old "))
    with false by reflexivity.
  rewrite COMMENT_PATTERN_hash, Hlook, Hrest, Hcode.
  rewrite lstrip_to_core by (assumption || reflexivity).
  replace (startswith (dquote :: a ++ dquote :: ws1') (lit "game/"))
    with false by reflexivity.
  replace (startswith (dquote :: a ++ dquote :: ws1') (lit "renpy/"))
    with false by reflexivity.
  cbn [orb negb].
  rewrite !framed_extract
    by (assumption || (intros [E|Hin];
                       [discriminate
                       |now apply (all_space_no_char wsm dquote Hwsm)])
        || (intros [])).
  unfold classify.
  rewrite TAG_PATTERN_needs_letter by (assumption || reflexivity).
  cbn [startswith]. change (Ascii.eqb dquote dquote) with true.
  now rewrite !startswith_nil.
Qed.

(** X15. A comment line whose content is a quoted text and the first
    code candidate after it, when that line starts with a quote, give one
    [comment_no_tag] entry, whatever the two quoted texts are and however
    the lines are indented; the lines the lookahead steps over in between
    give nothing, and the cursor resumes after the code line. *)
Theorem X15_plain_comment_pair (lines : list str) (i : nat)
  (ws1 wsm a ws1' : str) (pre : list str) (ws2 b ws2' : str)
  (rest : list str) (entries : list Entry)
  (Hws1 : all_space ws1) (Hwsm : all_space wsm) (Hws1' : all_space ws1')
  (Hws2 : all_space ws2) (Hws2' : all_space ws2')
  (Hnext : skipn (i + 1) lines = pre ++ framed ws2 [] b ws2' :: rest)
  (Hpre : Forall looked_past pre) :
  loop_body lines i (framed ws1 (hash :: wsm) a ws1') entries
  = Ok (i + 1 + List.length pre + 1,
        entries ++ [mkEntry a b (i + 1 + List.length pre)
                      fmt_comment_no_tag None]).
Proof.
  now apply (plain_comment_turn lines i ws1 wsm a ws1' pre ws2 b ws2'
               rest).
Qed.

Lemma X15_plain_comment_pair_witness :
  loop_body
    [lit "    # " ++ dquote :: lit "He said " ++ quoted "hi" ++ [dquote];
     lit ""; lit "    voice sustain";
     lit "    " ++ dquote :: lit "Il a dit " ++ quoted "salut" ++ [dquote]]
    0 (framed (lit "    ") (hash :: lit " ")
         (lit "He said " ++ quoted "hi") []) []
  = Ok (0 + 1 + List.length [lit ""; lit "    voice sustain"] + 1,
        [] ++ [mkEntry (lit "He said " ++ quoted "hi")
                 (lit "Il a dit " ++ quoted "salut")
                 (0 + 1 + List.length [lit ""; lit "    voice sustain"])
                 fmt_comment_no_tag None]).
Proof.
  apply (X15_plain_comment_pair _ 0 (lit "    ") (lit " ") _ []
           [lit ""; lit "    voice sustain"] (lit "    ")
           (lit "Il a dit " ++ quoted "salut") [] []);
    repeat constructor.
Defined.

Lemma startswith_app_cases (u v : str) :
  forall p,
    startswith (u ++ v) p = true ->
    (exists r, u = p ++ r) \/ (exists r, p = u ++ r).
Proof.
  induction u as [|y u IH]; intros p H; [right; now exists p|].
  destruct p as [|c p]; [left; now exists (y :: u)|].
  cbn [app startswith] in H. apply andb_true_iff in H as [Hc H].
  apply Ascii.eqb_eq in Hc; subst c.
  apply IH in H as [(r & ->)|(r & ->)]; [left | right]; now exists r.
Qed.

(** A text that starts with tag characters, one of them whitespace, does
    not start with a word that holds a character that is no tag
    character and no whitespace at all. *)
Lemma tagged_not_prefixed (u v p : str) (sp bad : ascii) :
  Forall (fun c => tag_char c = true) u ->
  In sp u -> is_space sp = true ->
  In bad p -> tag_char bad = false ->
  Forall (fun c => is_space c = false) p ->
  startswith (u ++ v) p = false.
Proof.
  intros Hu Hsp Hs Hbad Hb Hp.
  destruct (startswith (u ++ v) p) eqn:E; [exfalso|reflexivity].
  rewrite Forall_forall in Hu, Hp.
  apply startswith_app_cases in E as [(r & ->)|(r & ->)].
  - assert (tag_char bad = true)
      by (apply Hu, in_or_app; now left).
    congruence.
  - assert (is_space sp = false)
      by (apply Hp, in_or_app; now left).
    congruence.
Qed.

Lemma tag_chars_no_quote (u : str) :
  Forall (fun c => tag_char c = true) u -> ~ In dquote u.
Proof.
  intros Hu Hin. rewrite Forall_forall in Hu. apply Hu in Hin.
  discriminate.
Qed.

Lemma str_eqb_refl (s : str) : str_eqb s s = true.
Proof. unfold str_eqb. now destruct (list_eq_dec ascii_dec s s). Qed.

Lemma strip_tag_and_space (tg sps : str) :
  head_not_space tg -> strip tg = tg -> all_space sps ->
  strip (tg ++ sps) = tg.
Proof.
  intros Hh Hs Hsps. unfold strip in *.
  destruct tg as [|x w]; cbn [app].
  - rewrite <- (app_nil_r sps), lstrip_all_space by exact Hsps.
    reflexivity.
  - cbn [head_not_space] in Hh.
    rewrite lstrip_nonspace in * by exact Hh.
    change (x :: w ++ sps) with ((x :: w) ++ sps).
    now rewrite rstrip_all_space.
Qed.

Lemma tagged_shape (x : ascii) (w sps : str) (sp : ascii) (r : str) :
  ((x :: w) ++ sps ++ [sp]) ++ dquote :: r
  = x :: (w ++ sps) ++ sp :: dquote :: r.
Proof. cbn [app]. now rewrite <- !app_assoc. Qed.

(** The turn of the loop on a tagged comment line followed by a code
    line with the same tag. *)
Lemma tagged_comment_turn (lines : list str) (i : nat) (tg : str)
  (ws1 wsm sps1 : str) (sp1 : ascii) (a ws1' : str) (pre : list str)
  (ws2 sps2 : str) (sp2 : ascii) (b ws2' : str) (rest : list str)
  (entries : list Entry)
  (Htag : tag_shaped tg)
  (Hws1 : all_space ws1) (Hwsm : all_space wsm) (Hsps1 : all_space sps1)
  (Hsp1 : is_space sp1 = true) (Hws1' : all_space ws1')
  (Hws2 : all_space ws2) (Hsps2 : all_space sps2)
  (Hsp2 : is_space sp2 = true) (Hws2' : all_space ws2')
  (Hnext : skipn (i + 1) lines
           = pre ++ framed ws2 (tg ++ sps2 ++ [sp2]) b ws2' :: rest)
  (Hpre : Forall looked_past pre)
  (Hb : is_boundary (framed ws2 (tg ++ sps2 ++ [sp2]) b ws2') = false) :
  loop_body lines i
    (framed ws1 (hash :: wsm ++ tg ++ sps1 ++ [sp1]) a ws1') entries
  = Ok (i + 1 + List.length pre + 1,
        entries ++ [mkEntry a b (i + 1 + List.length pre)
                      fmt_comment_tag (Some tg)]).
Proof.
  destruct Htag as ((x & w & -> & Hx & Hw) & Hstrip).
  pose proof (letter_not_space x Hx) as Hxs.
  assert (Htc : forall sps sp, all_space sps -> is_space sp = true ->
                  Forall (fun c => tag_char c = true)
                    ((x :: w) ++ sps ++ [sp])).
  { intros sps sp Hsps Hsp. repeat (apply Forall_app; split).
    - constructor; [now apply letter_tag_char | exact Hw].
    - eapply Forall_impl; [|exact Hsps]. apply space_tag_char.
    - constructor; [now apply space_tag_char | constructor]. }
  assert (Hcode : strip (framed ws2 ((x :: w) ++ sps2 ++ [sp2]) b ws2')
                  = x :: (w ++ sps2) ++ sp2 :: dquote :: b ++ [dquote]).
  { rewrite framed_strip by (assumption || exact Hxs).
    apply tagged_shape. }
  assert (Hlook : _find_next_relevant_line lines (i + 1)
                  = Some (i + 1 + List.length pre,
                          framed ws2 ((x :: w) ++ sps2 ++ [sp2]) b ws2')).
  { unfold _find_next_relevant_line. rewrite Hnext.
    apply find_next_from_first; [exact Hpre | exact Hb |].
    unfold is_code_candidate. rewrite Hcode.
    now apply CODE_PATTERN_tagged. }
  assert (Hrest : split1_last hash
                    (framed ws1 (hash :: wsm ++ (x :: w) ++ sps1 ++ [sp1])
                       a ws1')
                  = wsm ++ x :: (w ++ sps1) ++ sp1 :: dquote
                      :: a ++ dquote :: ws1').
  { unfold framed. cbn [app]. rewrite split1_last_hash by exact Hws1.
    rewrite <- app_assoc. f_equal. apply tagged_shape. }
  assert (Hmeta : forall p,
             In "/"%char p -> Forall (fun c => is_space c = false) p ->
             startswith (x :: (w ++ sps1) ++ sp1 :: dquote
                           :: a ++ dquote :: ws1') p = false).
  { intros p Hin Hp. rewrite <- tagged_shape.
    apply (tagged_not_prefixed _ _ p sp1 "/"%char);
      try assumption; [now apply Htc | | reflexivity].
    apply in_or_app; right. apply in_or_app; right. now left. }
  unfold loop_body, comment_source_of.
  rewrite framed_strip by (assumption || reflexivity).
  cbn [app].
  replace (startswith (hash :: (wsm ++ x :: w ++ sps1 ++ [sp1])
                         ++ dquote :: a ++ [dquote]) (lit "old "))
    with false by reflexivity.
  rewrite COMMENT_PATTERN_hash, Hlook.
  cbn [app] in Hrest. rewrite Hrest, Hcode.
  rewrite lstrip_to_core by assumption.
  rewrite !Hmeta
    by (vm_compute; (intuition discriminate) || (repeat constructor)).
  cbn [orb negb].
  rewrite framed_extract; [|assumption|assumption|].
  - rewrite framed_extract;
      [|assumption|assumption|now apply tag_chars_no_quote, Htc].
    unfold classify.
    rewrite TAG_PATTERN_tagged by assumption.
    pose proof (TAG_PATTERN_tagged [] x w sps2 sp2 (b ++ [dquote])
                  (Forall_nil _) Hx Hw Hsps2 Hsp2) as Hcode_tag.
    cbn [app] in Hcode_tag. cbn [app]. rewrite Hcode_tag.
    cbn [group1_strip bind].
    change (x :: w ++ sps1) with ((x :: w) ++ sps1).
    change (x :: w ++ sps2) with ((x :: w) ++ sps2).
    rewrite !strip_tag_and_space by (assumption || exact Hxs).
    now rewrite str_eqb_refl.
  - intros [E|Hin]; [discriminate|].
    apply in_app_or in Hin as [Hin|Hin].
    + now apply (all_space_no_char wsm dquote Hwsm).
    + now apply (tag_chars_no_quote _ (Htc sps1 sp1 Hsps1 Hsp1)).
Qed.

(** X16. A comment line [# tag "..."] and the first code candidate after
    it, when that line is [tag "..."] with the same tag and is no block
    boundary, give one [comment_tag] entry with that tag, whatever the
    two quoted texts are, however the lines are indented and however much
    whitespace separates the tag from the quote; the cursor resumes
    after the code line. *)
Theorem X16_tagged_comment_pair (lines : list str) (i : nat) (tg : str)
  (ws1 wsm sps1 : str) (sp1 : ascii) (a ws1' : str) (pre : list str)
  (ws2 sps2 : str) (sp2 : ascii) (b ws2' : str) (rest : list str)
  (entries : list Entry)
  (Htag : tag_shaped tg)
  (Hws1 : all_space ws1) (Hwsm : all_space wsm) (Hsps1 : all_space sps1)
  (Hsp1 : is_space sp1 = true) (Hws1' : all_space ws1')
  (Hws2 : all_space ws2) (Hsps2 : all_space sps2)
  (Hsp2 : is_space sp2 = true) (Hws2' : all_space ws2')
  (Hnext : skipn (i + 1) lines
           = pre ++ framed ws2 (tg ++ sps2 ++ [sp2]) b ws2' :: rest)
  (Hpre : Forall looked_past pre)
  (Hb : is_boundary (framed ws2 (tg ++ sps2 ++ [sp2]) b ws2') = false) :
  loop_body lines i
    (framed ws1 (hash :: wsm ++ tg ++ sps1 ++ [sp1]) a ws1') entries
  = Ok (i + 1 + List.length pre + 1,
        entries ++ [mkEntry a b (i + 1 + List.length pre)
                      fmt_comment_tag (Some tg)]).
Proof.
  now apply (tagged_comment_turn lines i tg ws1 wsm sps1 sp1 a ws1' pre
               ws2 sps2 sp2 b ws2' rest).
Qed.

Lemma X16_tagged_comment_pair_witness :
  loop_body
    [lit "    # narrator @ happy " ++ quoted "Hi!";
     lit "    voice sustain";
     lit "    narrator @ happy  " ++ quoted "Salut !"]
    0 (framed (lit "    ") (hash :: lit " " ++ lit "narrator @ happy"
                              ++ [] ++ [" "%char]) (lit "Hi!") []) []
  = Ok (0 + 1 + List.length [lit "    voice sustain"] + 1,
        [] ++ [mkEntry (lit "Hi!") (lit "Salut !")
                 (0 + 1 + List.length [lit "    voice sustain"])
                 fmt_comment_tag (Some (lit "narrator @ happy"))]).
Proof.
  apply (X16_tagged_comment_pair _ 0 (lit "narrator @ happy")
           (lit "    ") (lit " ") [] " "%char (lit "Hi!") []
           [lit "    voice sustain"]
           (lit "    ") (lit " ") " "%char (lit "Salut !") [] []);
    try (repeat constructor; fail).
  split; [|reflexivity].
  eexists _, _; split; [reflexivity|]. split; [reflexivity|].
  repeat constructor.
Defined.

(** ** The language of the three patterns *)

Lemma TAG_PATTERN_complete (ws : str) (x : ascii) (u : str) (sp : ascii)
  (rest : str) :
  all_space ws -> is_letter x = true ->
  Forall (fun c => tag_char c = true) u -> is_space sp = true ->
  re_match TAG_PATTERN (ws ++ x :: u ++ sp :: dquote :: rest)
  = Some (Some (x :: u)).
Proof.
  intros Hws Hx Hu Hsp. unfold re_match, TAG_PATTERN.
  cbn [seq run Nat.eqb].
  apply star_prefix; [exact Hws|].
  rewrite star_stops by (now apply letter_not_space).
  cbn [run]. rewrite Hx.
  apply star_prefix; [exact Hu|].
  rewrite star_gives_back; [| now apply space_tag_char | reflexivity].
  cbn [run]. rewrite Hsp. rewrite star_stops by reflexivity.
  cbn [run]. change (is_char dquote dquote) with true. cbv iota.
  do 2 f_equal.
  replace (S (0 + List.length ws) + List.length u - (0 + List.length ws))
    with (S (List.length u)) by lia.
  cbn [firstn]. f_equal.
  now rewrite firstn_app, firstn_all, Nat.sub_diag, app_nil_r.
Qed.

Lemma CODE_PATTERN_complete (ws : str) (x : ascii) (u : str) (sp : ascii)
  (rest : str) :
  all_space ws -> is_letter x = true ->
  Forall (fun c => tag_char c = true) u -> is_space sp = true ->
  matches CODE_TRANSLATION_START_PATTERN
    (ws ++ x :: u ++ sp :: dquote :: rest) = true.
Proof.
  intros Hws Hx Hu Hsp.
  unfold matches, re_match, CODE_TRANSLATION_START_PATTERN.
  cbn [seq run Nat.eqb].
  erewrite star_prefix; [reflexivity | exact Hws |].
  rewrite star_stops by (now apply letter_not_space).
  cbn [run]. rewrite Hx.
  erewrite star_prefix; [reflexivity | exact Hu |].
  rewrite star_gives_back; [| now apply space_tag_char | reflexivity].
  cbn [run]. rewrite Hsp. rewrite star_stops by reflexivity.
  reflexivity.
Qed.

(** The whitespace between a tag and the quote, cut before its last
    character. *)
Lemma separator_last (w : str) (sp : ascii) (sps : str) :
  Forall (fun c => tag_char c = true) w ->
  is_space sp = true -> all_space sps ->
  exists u sp', w ++ sp :: sps = u ++ [sp']
                /\ Forall (fun c => tag_char c = true) u
                /\ is_space sp' = true.
Proof.
  intros Hw Hsp Hsps.
  destruct (exists_last (l := sp :: sps)) as (l' & a & E); [discriminate|].
  assert (Hall : all_space (l' ++ [a]))
    by (rewrite <- E; now constructor).
  apply Forall_app in Hall as [Hl' Ha]. inversion Ha as [|? ? Ha' _]; subst.
  exists (w ++ l'), a. rewrite E, app_assoc. split; [reflexivity|].
  split; [|exact Ha'].
  apply Forall_app; split; [exact Hw|].
  eapply Forall_impl; [|exact Hl']. apply space_tag_char.
Qed.

Lemma tagged_text_of_shape (ws : str) (x : ascii) (w : str) (sp : ascii)
  (sps rest : str) :
  all_space ws -> is_letter x = true ->
  Forall (fun c => tag_char c = true) w ->
  is_space sp = true -> all_space sps ->
  exists g, tagged_text (ws ++ x :: w ++ sp :: sps ++ dquote :: rest) g.
Proof.
  intros Hws Hx Hw Hsp Hsps.
  destruct (separator_last w sp sps Hw Hsp Hsps) as (u & sp' & E & Hu & Hsp').
  exists (x :: u), ws, x, u, sp', rest.
  repeat split; try assumption.
  do 2 f_equal.
  change (sp :: sps ++ dquote :: rest) with ((sp :: sps) ++ dquote :: rest).
  rewrite app_assoc, E, <- app_assoc. reflexivity.
Qed.

Lemma tagged_text_matches (s g : str) :
  tagged_text s g -> re_match TAG_PATTERN s = Some (Some g).
Proof.
  intros (ws & x & u & sp & rest & -> & Hws & Hx & Hu & Hsp & ->).
  now apply TAG_PATTERN_complete.
Qed.

(** X18. [COMMENT_TRANSLATION_START_PATTERN] matches a text exactly when
    its first character after the leading whitespace is a hash sign. *)
Theorem X18_COMMENT_PATTERN_language (s : str) :
  matches COMMENT_TRANSLATION_START_PATTERN s = true
  <-> exists ws rest, all_space ws /\ s = ws ++ hash :: rest.
Proof.
  split.
  - unfold matches, re_match, COMMENT_TRANSLATION_START_PATTERN.
    cbn [seq run Nat.eqb].
    destruct (star _ _ _ _ _) as [v|] eqn:H; [intros _|discriminate].
    apply star_split in H as (n & _ & Hws & H). cbn [run] in H.
    destruct (skipn n s) as [|y rest] eqn:Hs; [discriminate|].
    destruct (is_char hash y) eqn:Hy; [|discriminate].
    apply Ascii.eqb_eq in Hy; subst y.
    exists (firstn n s), rest. split; [exact Hws|].
    now rewrite <- Hs, firstn_skipn.
  - intros (ws & rest & Hws & ->).
    unfold matches, re_match, COMMENT_TRANSLATION_START_PATTERN.
    cbn [seq run Nat.eqb].
    erewrite star_prefix; [reflexivity | exact Hws |].
    rewrite star_stops by reflexivity.
    cbn [run]. change (is_char hash hash) with true. cbv iota.
    apply star_final.
Qed.

(** X19. [TAG_PATTERN] matches exactly the tagged texts, and group 1 of
    the match is the tag part: the letter and the tag characters up to
    the last whitespace character before the quote, left out. *)
Theorem X19_TAG_PATTERN_language (s : str) (m : option str) :
  re_match TAG_PATTERN s = Some m
  <-> exists g, m = Some g /\ tagged_text s g.
Proof.
  split.
  - intro H. pose proof H as H0.
    apply TAG_PATTERN_sound in H
      as (ws & x & w & sp & sps & rest & -> & Hws & Hx & Hw & Hsp & Hsps & _).
    destruct (tagged_text_of_shape ws x w sp sps rest Hws Hx Hw Hsp Hsps)
      as (g & Hg).
    exists g; split; [|exact Hg].
    destruct Hg as (ws2 & x2 & u2 & sp2 & rest2 & E & Hws2 & Hx2 & Hu2
                    & Hsp2 & ->).
    rewrite E in H0.
    rewrite TAG_PATTERN_complete in H0 by assumption.
    now injection H0 as <-.
  - intros (g & -> & ws & x & u & sp & rest & -> & Hws & Hx & Hu & Hsp & ->).
    now apply TAG_PATTERN_complete.
Qed.

(** X20. [CODE_TRANSLATION_START_PATTERN] matches a text exactly when its
    first character after the leading whitespace is a quote, or the text
    is a tagged text: a code candidate that does not start with a quote
    always has a tag that [TAG_PATTERN] finds. *)
Theorem X20_CODE_PATTERN_language (s : str) :
  matches CODE_TRANSLATION_START_PATTERN s = true
  <-> (exists ws rest, all_space ws /\ s = ws ++ dquote :: rest)
      \/ (exists g, re_match TAG_PATTERN s = Some (Some g)).
Proof.
  split.
  - unfold matches, re_match, CODE_TRANSLATION_START_PATTERN.
    cbn [seq run Nat.eqb].
    destruct (star _ _ _ _ _) as [v|] eqn:H; [intros _|discriminate].
    apply star_split in H as (n1 & _ & Hws & H). cbn [run] in H.
    apply orelse_some in H as [H|H].
    + right.
      destruct (skipn n1 s) as [|x t] eqn:Hs1; [discriminate|].
      destruct (is_letter x) eqn:Hx; [|discriminate].
      apply star_split in H as (n2 & _ & Hw & H).
      destruct (skipn n2 t) as [|sp t2] eqn:Hs2; [discriminate|].
      destruct (is_space sp) eqn:Hsp; [|discriminate].
      apply star_split in H as (n3 & _ & Hsps & H).
      destruct (skipn n3 t2) as [|y rest] eqn:Hs3; [discriminate|].
      destruct (is_char dquote y) eqn:Hy; [|discriminate].
      apply Ascii.eqb_eq in Hy; subst y.
      assert (E : s = firstn n1 s ++ x :: firstn n2 t ++ sp
                        :: firstn n3 t2 ++ dquote :: rest).
      { rewrite <- Hs3, firstn_skipn, <- Hs2, firstn_skipn, <- Hs1.
        now rewrite firstn_skipn. }
      destruct (tagged_text_of_shape _ x _ sp _ rest Hws Hx Hw Hsp Hsps)
        as (g & Hg).
      rewrite <- E in Hg. exists g.
      now apply tagged_text_matches.
    + left.
      destruct (skipn n1 s) as [|y rest] eqn:Hs; [discriminate|].
      destruct (is_char dquote y) eqn:Hy; [|discriminate].
      apply Ascii.eqb_eq in Hy; subst y.
      exists (firstn n1 s), rest. split; [exact Hws|].
      now rewrite <- Hs, firstn_skipn.
  - intros [(ws & rest & Hws & ->)|(g & H)].
    + unfold matches, re_match, CODE_TRANSLATION_START_PATTERN.
      cbn [seq run Nat.eqb].
      erewrite star_prefix; [reflexivity | exact Hws |].
      rewrite star_stops by reflexivity. reflexivity.
    + apply TAG_PATTERN_sound in H
        as (ws & x & w & sp & sps & rest & -> & Hws & Hx & Hw & Hsp & Hsps
            & _).
      destruct (tagged_text_of_shape ws x w sp sps rest Hws Hx Hw Hsp Hsps)
        as (g' & ws2 & x2 & u2 & sp2 & rest2 & -> & Hws2 & Hx2 & Hu2 & Hsp2
            & _).
      now apply CODE_PATTERN_complete.
Qed.

(** * Unquoted [new] lines and metadata comments *)

(** C9. An [old] line at index [i] holds the source [src]; after lines
    the scan steps over comes, at index [i + 1 + len pre], a line [bad]
    that starts with [new ] but holds no quoted span, and later, again
    after lines the scan steps over, a line [good] that starts with [new ]
    and holds the quoted span [translated].  Then [bad] neither ends the
    scan nor gives an entry: the scan goes on from the line after it,
    finds [good], and the turn of the loop appends exactly one entry, the
    pair of [src] and [translated], whose target is the index of [good];
    the cursor resumes past that line. *)
Theorem C9_unquoted_new_skipped (lines : list str) (i : nat)
  (line src : str) (entries : list Entry)
  (pre : list str) (bad : str) (mid : list str) (good translated : str)
  (rest : list str)
  (Hold : startswith (strip line) (lit "old ") = true)
  (Hsrc : _extract_quoted_robust line = Some src)
  (Hnext : skipn (i + 1) lines = pre ++ bad :: mid ++ good :: rest)
  (Hpre : Forall stepped_over pre)
  (Hbad : startswith (strip bad) (lit "new ") = true)
  (Hnone : _extract_quoted_robust bad = None)
  (Hmid : Forall stepped_over mid)
  (Hgood : startswith (strip good) (lit "new ") = true)
  (Hsome : _extract_quoted_robust good = Some translated) :
  (forall after j, scan_new (bad :: after) j = scan_new after (S j))
  /\ nth_error lines (i + 1 + List.length pre) = Some bad
  /\ nth_error lines (i + 1 + List.length pre + 1 + List.length mid)
     = Some good
  /\ scan_new (skipn (i + 1) lines) (i + 1)
     = Found (i + 1 + List.length pre + 1 + List.length mid) translated
  /\ loop_body lines i line entries
     = Ok (i + 1 + List.length pre + 1 + List.length mid + 2,
           entries ++ [mkEntry src translated
                         (i + 1 + List.length pre + 1 + List.length mid)
                         fmt_old_new None]).
Proof.
  assert (Hstep : stepped_over bad) by (left; now split).
  assert (Hscan : scan_new (skipn (i + 1) lines) (i + 1)
                  = Found (i + 1 + List.length pre + 1 + List.length mid)
                      translated).
  { rewrite Hnext.
    replace (pre ++ bad :: mid ++ good :: rest)
      with ((pre ++ bad :: mid) ++ good :: rest)
      by (now rewrite <- app_assoc).
    rewrite (scan_new_finds (pre ++ bad :: mid) good rest translated);
      [| | exact Hgood | exact Hsome].
    - f_equal. rewrite length_app. cbn [List.length]. lia.
    - apply Forall_app; split; [exact Hpre|]. now constructor. }
  split; [intros after j; now apply scan_new_step|].
  split.
  { apply (nth_error_skipn_at lines (i + 1)); [lia|].
    rewrite Hnext.
    replace (i + 1 + List.length pre - (i + 1)) with (List.length pre)
      by lia.
    rewrite nth_error_app2 by lia. now rewrite Nat.sub_diag. }
  split.
  { apply (nth_error_skipn_at lines (i + 1)); [lia|].
    rewrite Hnext.
    replace (pre ++ bad :: mid ++ good :: rest)
      with ((pre ++ bad :: mid) ++ good :: rest)
      by (now rewrite <- app_assoc).
    rewrite nth_error_app2 by (rewrite length_app; cbn [List.length]; lia).
    replace (i + 1 + List.length pre + 1 + List.length mid - (i + 1)
             - List.length (pre ++ bad :: mid)) with 0
      by (rewrite length_app; cbn [List.length]; lia).
    reflexivity. }
  split; [exact Hscan|].
  unfold loop_body. rewrite Hold, Hsrc, Hscan.
  do 2 f_equal. lia.
Qed.

Lemma C9_unquoted_new_skipped_witness :
  let lines := [lit "translate chinese strings:";
                lit "    old " ++ quoted "A";
                lit "    new B";
                lit "";
                lit "    new " ++ dquote :: lit "C";
                lit "    new " ++ quoted "D";
                lit "voice x"] in
  (forall after j,
     scan_new (lit "    new B" :: after) j = scan_new after (S j))
  /\ nth_error lines (1 + 1 + List.length (@nil str))
     = Some (lit "    new B")
  /\ nth_error lines
       (1 + 1 + List.length (@nil str) + 1
        + List.length [lit ""; lit "    new " ++ dquote :: lit "C"])
     = Some (lit "    new " ++ quoted "D")
  /\ scan_new (skipn (1 + 1) lines) (1 + 1)
     = Found (1 + 1 + List.length (@nil str) + 1
              + List.length [lit ""; lit "    new " ++ dquote :: lit "C"])
         (lit "D")
  /\ loop_body lines 1 (lit "    old " ++ quoted "A") []
     = Ok (1 + 1 + List.length (@nil str) + 1
           + List.length [lit ""; lit "    new " ++ dquote :: lit "C"] + 2,
           [] ++ [mkEntry (lit "A") (lit "D")
                    (1 + 1 + List.length (@nil str) + 1
                     + List.length [lit "";
                                    lit "    new " ++ dquote :: lit "C"])
                    fmt_old_new None]).
Proof.
  apply (C9_unquoted_new_skipped
           [lit "translate chinese strings:";
            lit "    old " ++ quoted "A";
            lit "    new B";
            lit "";
            lit "    new " ++ dquote :: lit "C";
            lit "    new " ++ quoted "D";
            lit "voice x"]
           1 (lit "    old " ++ quoted "A") (lit "A") []
           [] (lit "    new B")
           [lit ""; lit "    new " ++ dquote :: lit "C"]
           (lit "    new " ++ quoted "D") (lit "D") [lit "voice x"]).
  - reflexivity.
  - reflexivity.
  - reflexivity.
  - constructor.
  - reflexivity.
  - reflexivity.
  - constructor; [right; now vm_compute|].
    constructor; [left; now vm_compute | constructor].
  - reflexivity.
  - reflexivity.
Defined.







(** * The request limiter *)

(** X21. A request that passes the rate test of [RPM_limit] and is then
    refused by [TPM_limit] for lack of tokens is refused as a whole, yet
    its time is recorded as the time of the last request: a retry that
    comes sooner than the request interval after it is refused by
    [RPM_limit], whatever it asks for, and leaves the limiter as it
    is. *)
Theorem X21_refused_request_uses_slot {N : RequestLimiter.Numbers}
  (self : RequestLimiter.Request_Limiter)
  (t1 t2 tokens t3 t4 tokens' : RequestLimiter.num N)
  (Hrate : RequestLimiter.lt N
             (RequestLimiter.sub N t1 (RequestLimiter.last_request_time self))
             (RequestLimiter.request_interval self) = false)
  (Hshort : RequestLimiter.lt N (refilled self t2) tokens = true)
  (Hearly : RequestLimiter.lt N (RequestLimiter.sub N t3 t1)
              (RequestLimiter.request_interval self) = true) :
  let r := RequestLimiter.RPM_and_TPM_limit self t1 t2 tokens in
  fst r = false
  /\ RequestLimiter.last_request_time (snd r) = t1
  /\ RequestLimiter.remaining_tokens (snd r) = refilled self t2
  /\ RequestLimiter.RPM_and_TPM_limit (snd r) t3 t4 tokens' = (false, snd r).
Proof.
  unfold refilled in *.
  unfold RequestLimiter.RPM_and_TPM_limit, RequestLimiter.RPM_limit,
    RequestLimiter.TPM_limit.
  rewrite Hrate. cbn [RequestLimiter.max_tokens
    RequestLimiter.remaining_tokens RequestLimiter.tokens_rate
    RequestLimiter.last_time RequestLimiter.last_request_time
    RequestLimiter.request_interval].
  rewrite Hshort.
  cbn [fst snd RequestLimiter.max_tokens RequestLimiter.remaining_tokens
    RequestLimiter.tokens_rate RequestLimiter.last_time
    RequestLimiter.last_request_time RequestLimiter.request_interval].
  rewrite Hearly. now repeat split.
Qed.

Lemma X21_refused_request_uses_slot_witness :
  let r := RequestLimiter.RPM_and_TPM_limit example_limiter
             (QArith_base.Qmake 5 1) (QArith_base.Qmake 5 1)
             (QArith_base.Qmake 50 1) in
  fst r = false
  /\ RequestLimiter.last_request_time (snd r) = QArith_base.Qmake 5 1
  /\ RequestLimiter.remaining_tokens (snd r)
     = refilled example_limiter (QArith_base.Qmake 5 1)
  /\ RequestLimiter.RPM_and_TPM_limit (snd r)
       (QArith_base.Qmake 6 1) (QArith_base.Qmake 6 1)
       (QArith_base.Qmake 1 1) = (false, snd r).
Proof.
  apply (X21_refused_request_uses_slot (N := rationals) example_limiter
           (QArith_base.Qmake 5 1) (QArith_base.Qmake 5 1)
           (QArith_base.Qmake 50 1) (QArith_base.Qmake 6 1)
           (QArith_base.Qmake 6 1) (QArith_base.Qmake 1 1));
    reflexivity.
Defined.

(** ** Counting tokens *)

Lemma count_items_shift (encoding : Tiktoken.Encoding)
  (items : RequestLimiter.message) :
  forall n,
    RequestLimiter.count_items encoding items n
    = match RequestLimiter.count_items encoding items 0 with
      | Py.Returns m => Py.Returns (n + m)
      | Py.Raises e => Py.Raises e
      end.
Proof.
  induction items as [|[key v] items IH]; intro n;
    cbn [RequestLimiter.count_items]; [f_equal; lia|].
  destruct v as [s|].
  - destruct (Tiktoken.len_encode encoding s) as [k|e]; [|reflexivity].
    rewrite IH. symmetry. rewrite IH.
    destruct (RequestLimiter.count_items encoding items 0);
      [|reflexivity].
    destruct (str_eqb key (lit "name")); f_equal; lia.
  - rewrite IH. symmetry. rewrite IH.
    destruct (RequestLimiter.count_items encoding items 0);
      [|reflexivity].
    destruct (str_eqb key (lit "name")); f_equal; lia.
Qed.

Lemma count_messages_shift (encoding : Tiktoken.Encoding)
  (messages : list RequestLimiter.message) :
  forall n,
    RequestLimiter.count_messages encoding messages n
    = match RequestLimiter.count_messages encoding messages 0 with
      | Py.Returns m => Py.Returns (n + m)
      | Py.Raises e => Py.Raises e
      end.
Proof.
  induction messages as [|m messages IH]; intro n;
    cbn [RequestLimiter.count_messages]; [f_equal; lia|].
  rewrite (count_items_shift encoding m (n + _)).
  rewrite (count_items_shift encoding m (0 + _)).
  destruct (RequestLimiter.count_items encoding m 0) as [k|e];
    [|reflexivity].
  rewrite IH. symmetry. rewrite IH.
  destruct (RequestLimiter.count_messages encoding messages 0);
    [|reflexivity].
  f_equal; lia.
Qed.

Lemma count_messages_app (encoding : Tiktoken.Encoding)
  (m1 m2 : list RequestLimiter.message) :
  forall n,
    RequestLimiter.count_messages encoding (m1 ++ m2) n
    = match RequestLimiter.count_messages encoding m1 n with
      | Py.Returns k => RequestLimiter.count_messages encoding m2 k
      | Py.Raises e => Py.Raises e
      end.
Proof.
  induction m1 as [|m m1 IH]; intro n; cbn [app
    RequestLimiter.count_messages]; [reflexivity|].
  destruct (RequestLimiter.count_items encoding m _); [apply IH|reflexivity].
Qed.

(** A count that is returned holds 3 tokens for each message; a count
    that raises does so on a text of the messages. *)
Lemma count_items_spec (encoding : Tiktoken.Encoding)
  (items : RequestLimiter.message) :
  forall n,
    match RequestLimiter.count_items encoding items n with
    | Py.Returns k => n <= k
    | Py.Raises e =>
        exists key s, In (key, RequestLimiter.VStr s) items
                      /\ encoding s = Py.Raises e
    end.
Proof.
  induction items as [|[key v] items IH]; intro n;
    cbn [RequestLimiter.count_items]; [lia|].
  destruct v as [s|].
  - unfold Tiktoken.len_encode.
    destruct (encoding s) as [toks|e] eqn:E;
      [|exists key, s; split; [now left | exact E]].
    match goal with
    | |- match RequestLimiter.count_items _ _ ?N with _ => _ end =>
        specialize (IH N);
        destruct (RequestLimiter.count_items encoding items N)
    end.
    + unfold RequestLimiter.tokens_per_name in IH.
      destruct (str_eqb key (lit "name")); lia.
    + destruct IH as (k2 & s2 & Hin & He). exists k2, s2.
      split; [now right | exact He].
  - match goal with
    | |- match RequestLimiter.count_items _ _ ?N with _ => _ end =>
        specialize (IH N);
        destruct (RequestLimiter.count_items encoding items N)
    end.
    + unfold RequestLimiter.tokens_per_name in IH.
      destruct (str_eqb key (lit "name")); lia.
    + destruct IH as (k2 & s2 & Hin & He). exists k2, s2.
      split; [now right | exact He].
Qed.

Lemma count_messages_spec (encoding : Tiktoken.Encoding)
  (messages : list RequestLimiter.message) :
  forall n,
    match RequestLimiter.count_messages encoding messages n with
    | Py.Returns k => n + 3 * List.length messages <= k
    | Py.Raises e =>
        exists m key s,
          In m messages /\ In (key, RequestLimiter.VStr s) m
          /\ encoding s = Py.Raises e
    end.
Proof.
  induction messages as [|m messages IH]; intro n;
    cbn [RequestLimiter.count_messages List.length]; [lia|].
  pose proof (count_items_spec encoding m
                (n + RequestLimiter.tokens_per_message)) as Hm.
  destruct (RequestLimiter.count_items encoding m _) as [k|e].
  - specialize (IH k).
    destruct (RequestLimiter.count_messages encoding messages k).
    + unfold RequestLimiter.tokens_per_message in Hm. lia.
    + destruct IH as (m2 & k2 & s2 & Hin & Hin2 & He).
      exists m2, k2, s2. split; [now right|]. now split.
  - destruct Hm as (k2 & s2 & Hin & He). exists m, k2, s2.
    split; [now left|]. now split.
Qed.

Lemma count_messages_plain (encoding : Tiktoken.Encoding)
  (messages : list RequestLimiter.message) :
  Forall (Forall (fun kv => snd kv = RequestLimiter.VOther
                            /\ str_eqb (fst kv) (lit "name") = false))
    messages ->
  forall n,
    RequestLimiter.count_messages encoding messages n
    = Py.Returns (n + 3 * List.length messages).
Proof.
  induction 1 as [|m messages Hm _ IH]; intro n;
    cbn [RequestLimiter.count_messages List.length]; [f_equal; lia|].
  assert (Hitems : forall k, RequestLimiter.count_items encoding m k
                             = Py.Returns k).
  { clear IH. induction Hm as [|[key v] m [Hv Hk] _ IHm]; intro k;
      [reflexivity|].
    cbn [RequestLimiter.count_items fst snd] in *. subst v.
    rewrite Hk. apply IHm. }
  rewrite Hitems, IH. unfold RequestLimiter.tokens_per_message.
  f_equal; lia.
Qed.

(** X22. The token count of a list of messages is that of its parts put
    together, less the 3 tokens that prime a reply, which each count
    holds once; the count of the whole raises when the count of a part
    does, with the exception of the first part that raises. *)
Theorem X22_num_tokens_additive
  (encoding_for_model get_encoding : Py.result Tiktoken.Encoding)
  (m1 m2 : list RequestLimiter.message) :
  RequestLimiter.num_tokens_from_messages encoding_for_model get_encoding
    (m1 ++ m2)
  = match RequestLimiter.num_tokens_from_messages encoding_for_model
            get_encoding m1 with
    | Py.Raises e => Py.Raises e
    | Py.Returns n1 =>
        match RequestLimiter.num_tokens_from_messages encoding_for_model
                get_encoding m2 with
        | Py.Raises e => Py.Raises e
        | Py.Returns n2 => Py.Returns (n1 + n2 - 3)
        end
    end.
Proof.
  unfold RequestLimiter.num_tokens_from_messages.
  destruct (RequestLimiter.chosen_encoding encoding_for_model get_encoding)
    as [encoding|e]; [|reflexivity].
  rewrite count_messages_app.
  destruct (RequestLimiter.count_messages encoding m1 0) as [k1|e];
    [|reflexivity].
  rewrite count_messages_shift.
  destruct (RequestLimiter.count_messages encoding m2 0) as [k2|e];
    [|reflexivity].
  f_equal; lia.
Qed.

(** X23. A count that is returned holds at least 3 tokens for every
    message, beside the 3 that prime the reply; a count raises only the
    exception of loading the encoding or of encoding a text that a
    message holds; so the count is returned once the encoding is loaded
    and takes every text of the messages, and for messages in which no
    field holds a [str] and no key is [name] it is exactly 3 for every
    message and 3 for the reply. *)
Theorem X23_num_tokens_bounds
  (encoding_for_model get_encoding : Py.result Tiktoken.Encoding)
  (messages : list RequestLimiter.message) :
  match RequestLimiter.num_tokens_from_messages encoding_for_model
          get_encoding messages with
  | Py.Returns n => 3 + 3 * List.length messages <= n
  | Py.Raises e =>
      RequestLimiter.chosen_encoding encoding_for_model get_encoding
      = Py.Raises e
      \/ exists encoding m key s,
           RequestLimiter.chosen_encoding encoding_for_model get_encoding
           = Py.Returns encoding
           /\ In m messages /\ In (key, RequestLimiter.VStr s) m
           /\ encoding s = Py.Raises e
  end
  /\ (forall encoding,
        RequestLimiter.chosen_encoding encoding_for_model get_encoding
        = Py.Returns encoding ->
        (forall m key s,
           In m messages -> In (key, RequestLimiter.VStr s) m ->
           exists tokens, encoding s = Py.Returns tokens) ->
        exists n,
          RequestLimiter.num_tokens_from_messages encoding_for_model
            get_encoding messages = Py.Returns n)
  /\ (forall encoding,
        RequestLimiter.chosen_encoding encoding_for_model get_encoding
        = Py.Returns encoding ->
        Forall (Forall (fun kv => snd kv = RequestLimiter.VOther
                                  /\ str_eqb (fst kv) (lit "name") = false))
          messages ->
        RequestLimiter.num_tokens_from_messages encoding_for_model
          get_encoding messages
        = Py.Returns (3 + 3 * List.length messages)).
Proof.
  unfold RequestLimiter.num_tokens_from_messages.
  destruct (RequestLimiter.chosen_encoding encoding_for_model get_encoding)
    as [encoding|e].
  - pose proof (count_messages_spec encoding messages 0) as Hs.
    split; [|split].
    + destruct (RequestLimiter.count_messages encoding messages 0) as [k|e].
      * lia.
      * right. destruct Hs as (m & key & s & Hm & Hin & He).
        now exists encoding, m, key, s.
    + intros enc E Hall. injection E as <-.
      destruct (RequestLimiter.count_messages encoding messages 0) as [k|e];
        [now eexists|].
      destruct Hs as (m & key & s & Hm & Hin & He).
      destruct (Hall m key s Hm Hin) as (toks & Ht). congruence.
    + intros enc E Hplain. injection E as <-.
      rewrite count_messages_plain by exact Hplain. f_equal; lia.
  - split; [now left|]. split; intros enc E; discriminate.
Qed.

(** A message with a text the tokenizer refuses: the count raises
    [ValueError]; without that message it is returned. *)
Example num_tokens_special_token :
  let messages :=
    [[(lit "role", RequestLimiter.VStr (lit "user"));
      (lit "content", RequestLimiter.VStr (lit "Hi"))];
     [(lit "role", RequestLimiter.VStr (lit "user"));
      (lit "name", RequestLimiter.VStr (lit "Al"));
      (lit "content", RequestLimiter.VStr (lit "<|endoftext|>"))]] in
  RequestLimiter.num_tokens_from_messages (Py.Raises Py.KeyError)
    (Py.Returns example_encoding) messages = Py.Raises Py.ValueError
  /\ RequestLimiter.num_tokens_from_messages (Py.Raises Py.KeyError)
       (Py.Returns example_encoding) (firstn 1 messages) = Py.Returns 12
  /\ RequestLimiter.num_tokens_from_messages (Py.Raises (Py.OtherError 0))
       (Py.Returns example_encoding) (firstn 1 messages)
     = Py.Raises (Py.OtherError 0).
Proof. vm_compute. repeat split; reflexivity. Qed.

(** * The cache item *)

Lemma str_eqb_eq (a b : str) : str_eqb a b = true <-> a = b.
Proof.
  unfold str_eqb. destruct (list_eq_dec ascii_dec a b); split;
    congruence.
Qed.

Lemma str_eqb_neq (a b : str) : str_eqb a b = false <-> a <> b.
Proof.
  unfold str_eqb. destruct (list_eq_dec ascii_dec a b); split;
    congruence.
Qed.

Lemma lookup_store_same {V : Type} (d : CacheItem.pydict V) (k : str)
  (v : V) :
  CacheItem.lookup (CacheItem.store d k v) k = Some v.
Proof.
  induction d as [|[k' v'] d IH]; cbn [CacheItem.store CacheItem.lookup].
  - now rewrite str_eqb_refl.
  - destruct (str_eqb k' k) eqn:E; cbn [CacheItem.lookup]; rewrite E;
      [reflexivity | exact IH].
Qed.

Lemma lookup_store_other {V : Type} (d : CacheItem.pydict V) (k k' : str)
  (v : V) :
  k <> k' ->
  CacheItem.lookup (CacheItem.store d k v) k' = CacheItem.lookup d k'.
Proof.
  intro Hne.
  induction d as [|[k2 v2] d IH]; cbn [CacheItem.store CacheItem.lookup].
  - now apply str_eqb_neq in Hne as ->.
  - destruct (str_eqb k2 k) eqn:E; cbn [CacheItem.lookup].
    + apply str_eqb_eq in E; subst k2.
      now apply str_eqb_neq in Hne as ->.
    + now rewrite IH.
Qed.

Lemma lookup_absent {V : Type} (d : CacheItem.pydict V) (k : str) :
  ~ In k (map fst d) -> CacheItem.lookup d k = None.
Proof.
  induction d as [|[k' v'] d IH]; intro Hn; cbn [CacheItem.lookup];
    [reflexivity|].
  destruct (str_eqb k' k) eqn:E.
  - apply str_eqb_eq in E; subst. exfalso; apply Hn; now left.
  - apply IH. intro Hin; apply Hn; now right.
Qed.

Lemma in_store_keys {V : Type} (d : CacheItem.pydict V) (k : str) (v : V)
  (x : str) :
  In x (map fst (CacheItem.store d k v)) -> x = k \/ In x (map fst d).
Proof.
  induction d as [|[k' v'] d IH]; cbn [CacheItem.store map fst].
  - intros [->|[]]; now left.
  - destruct (str_eqb k' k); cbn [map fst]; [now right|].
    intros [->|Hin]; [right; now left|].
    apply IH in Hin as [->|Hin]; [now left | right; now right].
Qed.

Lemma NoDup_store {V : Type} (d : CacheItem.pydict V) (k : str) (v : V) :
  NoDup (map fst d) -> NoDup (map fst (CacheItem.store d k v)).
Proof.
  induction d as [|[k' v'] d IH]; intro Hnd; cbn [CacheItem.store map fst].
  - repeat constructor. intros [].
  - cbn [map fst] in Hnd. inversion Hnd as [|? ? Hnotin Hnd']; subst.
    destruct (str_eqb k' k) eqn:E; cbn [map fst]; [exact Hnd|].
    constructor; [|now apply IH].
    intro Hin. apply in_store_keys in Hin as [->|Hin]; [|contradiction].
    now rewrite str_eqb_refl in E.
Qed.

Lemma lookup_filter {V : Type} (p : V -> bool) (d : CacheItem.pydict V)
  (k : str) :
  NoDup (map fst d) ->
  CacheItem.lookup (filter (fun kv => p (snd kv)) d) k
  = match CacheItem.lookup d k with
    | Some v => if p v then Some v else None
    | None => None
    end.
Proof.
  induction d as [|[k' v'] d IH]; intro Hnd; [reflexivity|].
  cbn [map fst] in Hnd. inversion Hnd as [|? ? Hnotin Hnd']; subst.
  cbn [filter snd CacheItem.lookup].
  destruct (str_eqb k' k) eqn:E.
  - apply str_eqb_eq in E; subst k'.
    destruct (p v') eqn:Hp; cbn [CacheItem.lookup].
    + now rewrite str_eqb_refl.
    + apply lookup_absent. intro Hin. apply Hnotin.
      apply in_map_iff in Hin as ([k2 v2] & <- & Hin).
      apply filter_In in Hin as [Hin _].
      apply in_map_iff. now exists (k2, v2).
  - destruct (p v'); cbn [CacheItem.lookup]; rewrite ?E; now apply IH.
Qed.

Lemma setattr_ordinary (self : CacheItem.pydict CacheItem.pyval) (k : str)
  (v : CacheItem.pyval) :
  is_special k = false ->
  CacheItem.setattr self k v = Py.Returns (CacheItem.store self k v).
Proof.
  unfold is_special, CacheItem.setattr. intro H.
  apply orb_false_iff in H as [H H3]. apply orb_false_iff in H as [H1 H2].
  now rewrite H1, H2, H3.
Qed.

Lemma setattr_refusal (self : CacheItem.pydict CacheItem.pyval) (k : str)
  (v : CacheItem.pyval) :
  match refusal k v with
  | Some e => CacheItem.setattr self k v = Py.Raises e
  | None => exists self', CacheItem.setattr self k v = Py.Returns self'
  end.
Proof.
  unfold refusal, CacheItem.setattr.
  destruct (str_eqb k (lit "__class__")); [reflexivity|].
  destruct (str_eqb k (lit "__weakref__")); [reflexivity|].
  destruct (str_eqb k (lit "__dict__")); [|now eexists].
  destruct v; try reflexivity. now eexists.
Qed.

(** The loop of lines 31-32 ends well exactly when [setattr] takes every
    item, and otherwise raises what the first item that is refused
    raises. *)
Lemma set_all_spec (args : CacheItem.pydict CacheItem.pyval) :
  forall self,
    match CacheItem.set_all self args with
    | Py.Returns _ => Forall accepted args
    | Py.Raises e =>
        exists pre k v post,
          args = pre ++ (k, v) :: post
          /\ Forall accepted pre /\ refusal k v = Some e
    end.
Proof.
  induction args as [|[k v] args IH]; intro self;
    cbn [CacheItem.set_all]; [constructor|].
  pose proof (setattr_refusal self k v) as Hs.
  destruct (refusal k v) as [e|] eqn:Hr.
  - rewrite Hs. exists [], k, v, args. now repeat split.
  - destruct Hs as (self' & ->). specialize (IH self').
    destruct (CacheItem.set_all self' args) as [s|e].
    + constructor; [exact Hr | exact IH].
    + destruct IH as (pre & k2 & v2 & post & -> & Hpre & Hr2).
      exists ((k, v) :: pre), k2, v2, post.
      split; [reflexivity|]. split; [|exact Hr2].
      constructor; [exact Hr | exact Hpre].
Qed.

Lemma set_all_accepted (args : CacheItem.pydict CacheItem.pyval) :
  forall self,
    Forall accepted args ->
    exists self', CacheItem.set_all self args = Py.Returns self'.
Proof.
  induction args as [|[k v] args IH]; intros self Hall;
    cbn [CacheItem.set_all]; [now eexists|].
  inversion Hall as [|? ? Hkv Hrest]; subst.
  pose proof (setattr_refusal self k v) as Hs.
  unfold accepted in Hkv; cbn [fst snd] in Hkv. rewrite Hkv in Hs.
  destruct Hs as (self' & ->). now apply IH.
Qed.

Lemma set_all_app (a b : CacheItem.pydict CacheItem.pyval) :
  forall self,
    CacheItem.set_all self (a ++ b)
    = match CacheItem.set_all self a with
      | Py.Returns self' => CacheItem.set_all self' b
      | Py.Raises e => Py.Raises e
      end.
Proof.
  induction a as [|[k v] a IH]; intro self; cbn [app CacheItem.set_all];
    [reflexivity|].
  destruct (CacheItem.setattr self k v); [apply IH | reflexivity].
Qed.

(** With keys that [setattr] stores, the loop of lines 31-32 leaves each
    attribute with the value of [args], or as it was. *)
Lemma set_all_ordinary (args : CacheItem.pydict CacheItem.pyval) :
  forall self,
    NoDup (map fst args) ->
    Forall (fun key => is_special key = false) (map fst args) ->
    exists self',
      CacheItem.set_all self args = Py.Returns self'
      /\ (forall k,
            CacheItem.lookup self' k
            = match CacheItem.lookup args k with
              | Some v => Some v
              | None => CacheItem.lookup self k
              end)
      /\ (NoDup (map fst self) -> NoDup (map fst self')).
Proof.
  induction args as [|[k1 v1] args IH]; intros self Hnd Hord;
    cbn [CacheItem.set_all CacheItem.lookup].
  - exists self. now repeat split.
  - cbn [map fst] in Hnd, Hord.
    inversion Hnd as [|? ? Hnotin Hnd']; subst.
    inversion Hord as [|? ? Hk1 Hord']; subst.
    rewrite setattr_ordinary by exact Hk1.
    destruct (IH (CacheItem.store self k1 v1) Hnd' Hord')
      as (self' & -> & Hl & Hn).
    exists self'. split; [reflexivity|]. split.
    + intro k. rewrite Hl.
      destruct (str_eqb k1 k) eqn:E.
      * apply str_eqb_eq in E; subst k1.
        rewrite lookup_absent by exact Hnotin. apply lookup_store_same.
      * apply str_eqb_neq in E.
        destruct (CacheItem.lookup args k); [reflexivity|].
        now apply lookup_store_other.
    + intro Hs. now apply Hn, NoDup_store.
Qed.

Lemma NoDup_defaults : NoDup (map fst CacheItem.defaults).
Proof.
  repeat (constructor; [vm_compute; intuition discriminate|]).
  constructor.
Qed.

(** X24. With an [args] whose keys are none of [__class__],
    [__weakref__] and [__dict__], [__init__] returns, and empties the
    token cache; the attribute [lock] of the item holds the lock,
    whatever [args] holds under that key; every other attribute holds the
    value [args] gives it, and the default of lines 21-28 (or nothing,
    for a name that has none) when [args] does not hold the key. *)
Theorem X24_init_attributes (args : CacheItem.pydict CacheItem.pyval)
  (token_cache : CacheItem.pydict nat) (k : str)
  (Hargs : NoDup (map fst args))
  (Hord : Forall (fun key => is_special key = false) (map fst args)) :
  exists self,
    CacheItem.init args token_cache = (Py.Returns self, [])
    /\ CacheItem.lookup self (lit "lock") = Some CacheItem.PLock
    /\ (k <> lit "lock" ->
        CacheItem.lookup self k
        = match CacheItem.lookup args k with
          | Some v => Some v
          | None => CacheItem.lookup CacheItem.defaults k
          end).
Proof.
  unfold CacheItem.init.
  destruct (set_all_ordinary args CacheItem.defaults Hargs Hord)
    as (self' & -> & Hl & _).
  eexists; split; [reflexivity|]. split.
  - apply lookup_store_same.
  - intro Hk. rewrite lookup_store_other by congruence. apply Hl.
Qed.

Lemma X24_init_attributes_witness :
  exists self,
    CacheItem.init [(lit "source_text", CacheItem.PStr (lit "Hi"));
                    (lit "lock", CacheItem.PInt 1);
                    (lit "note", CacheItem.PNone)]
      [(lit "Ho", 2%nat)] = (Py.Returns self, [])
    /\ CacheItem.lookup self (lit "lock") = Some CacheItem.PLock
    /\ (lit "source_text" <> lit "lock" ->
        CacheItem.lookup self (lit "source_text")
        = match CacheItem.lookup
                  [(lit "source_text", CacheItem.PStr (lit "Hi"));
                   (lit "lock", CacheItem.PInt 1);
                   (lit "note", CacheItem.PNone)] (lit "source_text")
          with
          | Some v => Some v
          | None => CacheItem.lookup CacheItem.defaults (lit "source_text")
          end).
Proof.
  apply X24_init_attributes.
  - repeat (constructor; [vm_compute; intuition discriminate|]).
    constructor.
  - repeat constructor.
Defined.

(** The item of [CacheItem({"source_text": "Hi"})]. *)
Example init_example :
  CacheItem.init [(lit "source_text", CacheItem.PStr (lit "Hi"))]
    [(lit "Ho", 2%nat)]
  = (Py.Returns (example_item (lit "Hi")), []).
Proof. vm_compute. reflexivity. Qed.

(** A call of [get_token_count] leaves a sound cache sound, however it
    ends. *)
Lemma cache_sound_count (get_encoding : Py.result Tiktoken.Encoding)
  (self : CacheItem.pydict CacheItem.pyval)
  (token_cache token_cache' : CacheItem.pydict nat) (r : Py.result nat) :
  cache_sound get_encoding token_cache ->
  CacheItem.get_token_count get_encoding self token_cache
  = (r, token_cache') ->
  cache_sound get_encoding token_cache'.
Proof.
  intros Hs H. unfold CacheItem.get_token_count in H.
  destruct (CacheItem.call self _ _); [|now injection H as _ <-].
  destruct (CacheItem.lookup self (lit "source_text")) as [v|];
    [|now injection H as _ <-].
  destruct v as [|b|z|f|s|l|l|d|];
    try (destruct (CacheItem.hashable _); [destruct get_encoding|];
         now injection H as _ <-).
  destruct (CacheItem.lookup token_cache s) as [m|] eqn:E;
    [now injection H as _ <-|].
  destruct get_encoding as [encoding|e] eqn:Hge; [|now injection H as _ <-].
  unfold Tiktoken.len_encode in H.
  destruct (encoding s) as [toks|e] eqn:Henc; [|now injection H as _ <-].
  rewrite lookup_store_same in H. injection H as _ <-.
  intros text m Hl.
  destruct (list_eq_dec ascii_dec s text) as [->|Hne].
  - rewrite lookup_store_same in Hl. injection Hl as <-.
    now exists encoding, toks.
  - rewrite lookup_store_other in Hl by exact Hne. now apply Hs.
Qed.

Lemma cache_reached_sound (get_encoding : Py.result Tiktoken.Encoding)
  (token_cache : CacheItem.pydict nat) :
  cache_reached get_encoding token_cache ->
  cache_sound get_encoding token_cache.
Proof.
  induction 1 as [|self c c' r _ IH Hc].
  - intros text n Hl. discriminate.
  - now apply (cache_sound_count get_encoding self c c' r).
Qed.

(** The call on an item with its lock and a [str] text, from a sound
    cache. *)
Lemma get_token_count_spec (get_encoding : Py.result Tiktoken.Encoding)
  (self : CacheItem.pydict CacheItem.pyval)
  (token_cache : CacheItem.pydict nat) (text : str) :
  cache_sound get_encoding token_cache ->
  CacheItem.lookup self (lit "get_token_count") = None ->
  CacheItem.lookup self (lit "lock") = Some CacheItem.PLock ->
  CacheItem.lookup self (lit "source_text") = Some (CacheItem.PStr text) ->
  count_outcome get_encoding text token_cache
    (CacheItem.get_token_count get_encoding self token_cache).
Proof.
  intros Hs Hm Hlock Htext.
  unfold CacheItem.get_token_count, CacheItem.call, CacheItem.with_lock.
  rewrite Hm, Hlock, Htext.
  destruct (CacheItem.lookup token_cache text) as [m|] eqn:E.
  - split; [now apply Hs | exact E].
  - destruct get_encoding as [encoding|e] eqn:Hge.
    + unfold Tiktoken.len_encode.
      destruct (encoding text) as [toks|e] eqn:Henc.
      * rewrite lookup_store_same. split; [now exists encoding, toks|].
        apply lookup_store_same.
      * split; [reflexivity|]. split; [exact E|]. right. now exists encoding.
    + split; [reflexivity|]. split; [exact E|]. now left.
Qed.

(** A text that is in the cache is answered from it. *)
Lemma get_token_count_cached (get_encoding : Py.result Tiktoken.Encoding)
  (self : CacheItem.pydict CacheItem.pyval)
  (token_cache : CacheItem.pydict nat) (text : str) (n : nat) :
  CacheItem.lookup self (lit "get_token_count") = None ->
  CacheItem.lookup self (lit "lock") = Some CacheItem.PLock ->
  CacheItem.lookup self (lit "source_text") = Some (CacheItem.PStr text) ->
  CacheItem.lookup token_cache text = Some n ->
  CacheItem.get_token_count get_encoding self token_cache
  = (Py.Returns n, token_cache).
Proof.
  intros Hm Hlock Htext Hc.
  unfold CacheItem.get_token_count, CacheItem.call, CacheItem.with_lock.
  now rewrite Hm, Hlock, Htext, Hc.
Qed.

(** X25. In every state the shared token cache can reach,
    [get_token_count] on an item that holds its lock and a [str] as
    [source_text] either returns the count the tokenizer gives for that
    text, so a cached count is never stale, and the text is in the cache
    afterwards; or it raises the exception of the tokenizer (of loading
    the encoding, or of encoding the text: [ValueError] for a text with a
    special token), the text was not in the cache, and the cache is left
    as it was.  After a call that returned, a second call returns the
    same count and leaves the cache as it is; and after
    [set_source_text] the same holds of the new text. *)
Theorem X25_token_count_memo (get_encoding : Py.result Tiktoken.Encoding)
  (self : CacheItem.pydict CacheItem.pyval)
  (token_cache : CacheItem.pydict nat) (source_text : str)
  (Hreached : cache_reached get_encoding token_cache)
  (Hmethod : CacheItem.lookup self (lit "get_token_count") = None)
  (Hlock : CacheItem.lookup self (lit "lock") = Some CacheItem.PLock)
  (Htext : CacheItem.lookup self (lit "source_text")
           = Some (CacheItem.PStr source_text)) :
  count_outcome get_encoding source_text token_cache
    (CacheItem.get_token_count get_encoding self token_cache)
  /\ (forall n token_cache',
        CacheItem.get_token_count get_encoding self token_cache
        = (Py.Returns n, token_cache') ->
        CacheItem.get_token_count get_encoding self token_cache'
        = (Py.Returns n, token_cache'))
  /\ (forall r token_cache' text self',
        CacheItem.get_token_count get_encoding self token_cache
        = (r, token_cache') ->
        CacheItem.set_source_text self (CacheItem.PStr text)
        = Py.Returns self' ->
        count_outcome get_encoding text token_cache'
          (CacheItem.get_token_count get_encoding self' token_cache')).
Proof.
  apply cache_reached_sound in Hreached.
  pose proof (get_token_count_spec get_encoding self token_cache source_text
                Hreached Hmethod Hlock Htext) as H1.
  split; [exact H1|]. split.
  - intros n c' E. rewrite E in H1. destruct H1 as [_ Hin].
    now apply (get_token_count_cached get_encoding self c' source_text).
  - intros r c' text self' E Hset.
    pose proof (cache_sound_count _ _ _ _ _ Hreached E) as Hs'.
    unfold CacheItem.set_source_text, CacheItem.call, CacheItem.with_lock
      in Hset.
    destruct (CacheItem.lookup self (lit "set_source_text"));
      [discriminate|].
    rewrite Hlock in Hset. injection Hset as <-.
    apply get_token_count_spec; [exact Hs' | | |].
    + rewrite lookup_store_other by discriminate. exact Hmethod.
    + rewrite lookup_store_other by discriminate. exact Hlock.
    + apply lookup_store_same.
Qed.

Lemma X25_token_count_memo_witness :
  (count_outcome (Py.Returns example_encoding) (lit "Hi") []
     (CacheItem.get_token_count (Py.Returns example_encoding)
        (example_item (lit "Hi")) [])
   /\ (forall n token_cache',
         CacheItem.get_token_count (Py.Returns example_encoding)
           (example_item (lit "Hi")) [] = (Py.Returns n, token_cache') ->
         CacheItem.get_token_count (Py.Returns example_encoding)
           (example_item (lit "Hi")) token_cache'
         = (Py.Returns n, token_cache'))
   /\ (forall r token_cache' text self',
         CacheItem.get_token_count (Py.Returns example_encoding)
           (example_item (lit "Hi")) [] = (r, token_cache') ->
         CacheItem.set_source_text (example_item (lit "Hi"))
           (CacheItem.PStr text) = Py.Returns self' ->
         count_outcome (Py.Returns example_encoding) text token_cache'
           (CacheItem.get_token_count (Py.Returns example_encoding) self'
              token_cache')))
  /\ count_outcome (Py.Returns example_encoding) (lit "<|endoftext|>")
       [(lit "Hi", 2)]
       (CacheItem.get_token_count (Py.Returns example_encoding)
          (example_item (lit "<|endoftext|>")) [(lit "Hi", 2)]).
Proof.
  split.
  - apply (X25_token_count_memo (Py.Returns example_encoding)
             (example_item (lit "Hi")) [] (lit "Hi"));
      [constructor | reflexivity | reflexivity | reflexivity].
  - apply (X25_token_count_memo (Py.Returns example_encoding)
             (example_item (lit "<|endoftext|>")) [(lit "Hi", 2)]
             (lit "<|endoftext|>"));
      [|reflexivity | reflexivity | reflexivity].
    apply (reached_by_count _ (example_item (lit "Hi")) [] _
             (Py.Returns 2)); [constructor | reflexivity].
Defined.

(** The two calls of the example, computed: a count that is cached, and
    the [ValueError] of the end-of-text marker, which leaves the cache
    as it was; and a text that is no [str]. *)
Example token_count_example :
  CacheItem.get_token_count (Py.Returns example_encoding)
    (example_item (lit "Hi")) [] = (Py.Returns 2, [(lit "Hi", 2)])
  /\ CacheItem.get_token_count (Py.Returns example_encoding)
       (example_item (lit "<|endoftext|>")) [(lit "Hi", 2)]
     = (Py.Raises Py.ValueError, [(lit "Hi", 2)])
  /\ CacheItem.get_token_count (Py.Returns example_encoding)
       (CacheItem.store (example_item (lit "Hi")) (lit "source_text")
          CacheItem.PNone) [(lit "Hi", 2)]
     = (Py.Raises Py.TypeError, [(lit "Hi", 2)]).
Proof. vm_compute. repeat split; reflexivity. Qed.

(** X26. With an [args] whose keys are none of [__class__],
    [__weakref__] and [__dict__], [get_vars] of the new item never shows
    the lock, whatever [args] holds under that key; of every other
    attribute it shows the value the item holds (the one from [args], or
    the default) exactly when that value is an [int], [str], [bool],
    [float], [list], [dict] or [tuple].  When [args] holds the key
    [get_vars], the call raises [TypeError] instead: the attribute stands
    before the method, and its value cannot be called. *)
Theorem X26_get_vars_hides_lock (args : CacheItem.pydict CacheItem.pyval)
  (token_cache : CacheItem.pydict nat) (k : str)
  (Hargs : NoDup (map fst args))
  (Hord : Forall (fun key => is_special key = false) (map fst args)) :
  exists self,
    CacheItem.init args token_cache = (Py.Returns self, [])
    /\ match CacheItem.lookup args (lit "get_vars") with
       | Some _ => CacheItem.get_vars self = Py.Raises Py.TypeError
       | None =>
           exists vars,
             CacheItem.get_vars self = Py.Returns vars
             /\ CacheItem.lookup vars (lit "lock") = None
             /\ (k <> lit "lock" ->
                 CacheItem.lookup vars k
                 = match match CacheItem.lookup args k with
                         | Some v => Some v
                         | None => CacheItem.lookup CacheItem.defaults k
                         end
                   with
                   | Some v => if CacheItem.is_plain v then Some v else None
                   | None => None
                   end)
       end.
Proof.
  unfold CacheItem.init.
  destruct (set_all_ordinary args CacheItem.defaults Hargs Hord)
    as (self' & -> & Hl & Hn).
  eexists; split; [reflexivity|].
  assert (Hnd : NoDup (map fst (CacheItem.store self' (lit "lock")
                                  CacheItem.PLock)))
    by (apply NoDup_store, Hn, NoDup_defaults).
  unfold CacheItem.get_vars, CacheItem.call.
  rewrite lookup_store_other by discriminate. rewrite Hl.
  destruct (CacheItem.lookup args (lit "get_vars")); [reflexivity|].
  change (CacheItem.lookup CacheItem.defaults (lit "get_vars")) with
    (@None CacheItem.pyval).
  eexists; split; [reflexivity|]. split.
  - rewrite lookup_filter by exact Hnd. now rewrite lookup_store_same.
  - intro Hk. rewrite lookup_filter by exact Hnd.
    rewrite lookup_store_other by congruence. now rewrite Hl.
Qed.

Lemma X26_get_vars_hides_lock_witness :
  exists self,
    CacheItem.init [(lit "lock", CacheItem.PInt 1);
                    (lit "note", CacheItem.PNone)] []
    = (Py.Returns self, [])
    /\ match CacheItem.lookup [(lit "lock", CacheItem.PInt 1);
                               (lit "note", CacheItem.PNone)]
               (lit "get_vars") with
       | Some _ => CacheItem.get_vars self = Py.Raises Py.TypeError
       | None =>
           exists vars,
             CacheItem.get_vars self = Py.Returns vars
             /\ CacheItem.lookup vars (lit "lock") = None
             /\ (lit "note" <> lit "lock" ->
                 CacheItem.lookup vars (lit "note")
                 = match match CacheItem.lookup
                                 [(lit "lock", CacheItem.PInt 1);
                                  (lit "note", CacheItem.PNone)]
                                 (lit "note")
                         with
                         | Some v => Some v
                         | None =>
                             CacheItem.lookup CacheItem.defaults (lit "note")
                         end
                   with
                   | Some v => if CacheItem.is_plain v then Some v else None
                   | None => None
                   end)
       end.
Proof.
  apply X26_get_vars_hides_lock.
  - repeat (constructor; [vm_compute; intuition discriminate|]).
    constructor.
  - repeat constructor.
Defined.

(** X29. [__init__] returns exactly when [setattr] takes every item of
    [args]: no key is [__class__] or [__weakref__], and [__dict__] comes
    with a dict only; the item then holds its lock and the token cache
    is emptied.  Otherwise it raises what the first item that is refused
    raises ([AttributeError] for [__weakref__], else [TypeError]), and
    the token cache is left as it was. *)
Theorem X29_init_failure (args : CacheItem.pydict CacheItem.pyval)
  (token_cache : CacheItem.pydict nat) :
  match CacheItem.init args token_cache with
  | (Py.Returns self, token_cache') =>
      token_cache' = [] /\ Forall accepted args
      /\ CacheItem.lookup self (lit "lock") = Some CacheItem.PLock
  | (Py.Raises e, token_cache') =>
      token_cache' = token_cache
      /\ exists pre k v post,
           args = pre ++ (k, v) :: post
           /\ Forall accepted pre /\ refusal k v = Some e
  end.
Proof.
  unfold CacheItem.init.
  pose proof (set_all_spec args CacheItem.defaults) as H.
  destruct (CacheItem.set_all CacheItem.defaults args) as [self|e].
  - split; [reflexivity|]. split; [exact H|]. apply lookup_store_same.
  - now split.
Qed.

(** X30. When [args] holds a dict under [__dict__], that dict becomes
    the attribute dict of the item: beside its lock, the item holds what
    the items of [args] after [__dict__] give it and, for the other
    names, what the dict holds; the defaults of lines 21-28 and the items
    of [args] before [__dict__] are gone. *)
Theorem X30_init_replaces_dict (pre post d : CacheItem.pydict CacheItem.pyval)
  (token_cache : CacheItem.pydict nat) (k : str)
  (Hpre : Forall accepted pre)
  (Hpost : NoDup (map fst post))
  (Hord : Forall (fun key => is_special key = false) (map fst post)) :
  exists self,
    CacheItem.init (pre ++ (lit "__dict__", CacheItem.PDict d) :: post)
      token_cache = (Py.Returns self, [])
    /\ CacheItem.lookup self (lit "lock") = Some CacheItem.PLock
    /\ (k <> lit "lock" ->
        CacheItem.lookup self k
        = match CacheItem.lookup post k with
          | Some v => Some v
          | None => CacheItem.lookup d k
          end).
Proof.
  unfold CacheItem.init. rewrite set_all_app.
  destruct (set_all_accepted pre CacheItem.defaults Hpre) as (s1 & ->).
  cbn [CacheItem.set_all].
  change (CacheItem.setattr s1 (lit "__dict__") (CacheItem.PDict d))
    with (Py.Returns d).
  destruct (set_all_ordinary post d Hpost Hord) as (self' & -> & Hl & _).
  eexists; split; [reflexivity|]. split.
  - apply lookup_store_same.
  - intro Hk. rewrite lookup_store_other by congruence. apply Hl.
Qed.

Lemma X30_init_replaces_dict_witness :
  exists self,
    CacheItem.init
      ([(lit "file_name", CacheItem.PStr (lit "a.rpy"))]
       ++ (lit "__dict__",
           CacheItem.PDict [(lit "source_text", CacheItem.PStr (lit "Hi"))])
       :: [(lit "note", CacheItem.PNone)])
      [(lit "Ho", 2%nat)] = (Py.Returns self, [])
    /\ CacheItem.lookup self (lit "lock") = Some CacheItem.PLock
    /\ (lit "row_index" <> lit "lock" ->
        CacheItem.lookup self (lit "row_index")
        = match CacheItem.lookup [(lit "note", CacheItem.PNone)]
                  (lit "row_index") with
          | Some v => Some v
          | None =>
              CacheItem.lookup
                [(lit "source_text", CacheItem.PStr (lit "Hi"))]
                (lit "row_index")
          end).
Proof.
  apply X30_init_replaces_dict.
  - repeat constructor.
  - repeat (constructor; [vm_compute; intuition discriminate|]).
    constructor.
  - repeat constructor.
Defined.

(** The same, computed: the item holds the text of the dict, the note
    and its lock, and neither a row index nor the file name; with a value
    under [__dict__] that is no dict, and with the key [__class__],
    [__init__] raises and the token cache is kept. *)
Example init_special_names :
  CacheItem.init
    [(lit "file_name", CacheItem.PStr (lit "a.rpy"));
     (lit "__dict__",
      CacheItem.PDict [(lit "source_text", CacheItem.PStr (lit "Hi"))]);
     (lit "note", CacheItem.PNone)] [(lit "Ho", 2%nat)]
  = (Py.Returns [(lit "source_text", CacheItem.PStr (lit "Hi"));
                 (lit "note", CacheItem.PNone);
                 (lit "lock", CacheItem.PLock)], [])
  /\ CacheItem.init [(lit "__dict__", CacheItem.PInt 1)] [(lit "Ho", 2%nat)]
     = (Py.Raises Py.TypeError, [(lit "Ho", 2%nat)])
  /\ CacheItem.init [(lit "__class__", CacheItem.PNone)] [(lit "Ho", 2%nat)]
     = (Py.Raises Py.TypeError, [(lit "Ho", 2%nat)])
  /\ CacheItem.init [(lit "__weakref__", CacheItem.PNone)]
       [(lit "Ho", 2%nat)]
     = (Py.Raises Py.AttributeError, [(lit "Ho", 2%nat)]).
Proof. vm_compute. repeat split; reflexivity. Qed.


(** * Leading and trailing whitespace *)

Lemma pad_decomposition (l : str) :
  exists ws ws', all_space ws /\ all_space ws' /\ l = ws ++ strip l ++ ws'.
Proof.
  destruct (lstrip_split l) as (ws & Hl & Hws).
  destruct (rstrip_split (lstrip l)) as (ws' & Hr & Hws').
  exists ws, ws'. repeat split; try assumption.
  unfold strip. now rewrite <- Hr.
Qed.

Lemma extract_pad (ws c ws' : str) :
  all_space ws -> all_space ws' ->
  _extract_quoted_robust (ws ++ c ++ ws') = _extract_quoted_robust c.
Proof.
  intros Hws Hws'.
  assert (Hq : forall u v, all_space u -> ~ In dquote v ->
                           ~ In dquote (u ++ v)).
  { intros u v Hu Hv Hin. apply in_app_or in Hin as [Hin|Hin];
      [now apply (all_space_no_char u dquote Hu) | now apply Hv]. }
  assert (Hq' : forall u v, all_space u -> ~ In dquote v ->
                            ~ In dquote (v ++ u)).
  { intros u v Hu Hv Hin. apply in_app_or in Hin as [Hin|Hin];
      [now apply Hv | now apply (all_space_no_char u dquote Hu)]. }
  destruct (line_shapes c)
    as [Hn|[(pre & post & -> & Hpre & Hpost)
           |(pre & mid & post & -> & Hpre & Hpost)]].
  - rewrite !extract_no_quote; auto.
  - replace (ws ++ (pre ++ dquote :: post) ++ ws')
      with ((ws ++ pre) ++ dquote :: (post ++ ws'))
      by (now rewrite <- !app_assoc).
    rewrite !extract_one_quote; auto.
  - replace (ws ++ (pre ++ dquote :: mid ++ dquote :: post) ++ ws')
      with ((ws ++ pre) ++ dquote :: mid ++ dquote :: (post ++ ws')).
    + rewrite !extract_two_quotes; auto.
    + rewrite <- !app_assoc. cbn [app]. rewrite <- !app_assoc.
      reflexivity.
Qed.

Lemma extract_same_text (l l' : str) :
  same_text l l' -> _extract_quoted_robust l = _extract_quoted_robust l'.
Proof.
  unfold same_text. intro H.
  destruct (pad_decomposition l) as (a & a' & Ha & Ha' & El).
  destruct (pad_decomposition l') as (b & b' & Hb & Hb' & El').
  rewrite El, El', !extract_pad by assumption. now rewrite H.
Qed.

Lemma lstrip_pad (r ws : str) :
  all_space ws ->
  exists ws', all_space ws' /\ lstrip (r ++ ws) = lstrip r ++ ws'.
Proof.
  intro Hws. induction r as [|x r (ws' & Hws' & IH)]; cbn [app lstrip].
  - exists []. split; [constructor|].
    rewrite <- (app_nil_r ws), lstrip_all_space by exact Hws. reflexivity.
  - destruct (is_space x); [now exists ws'|]. now exists ws.
Qed.

Lemma startswith_pad (a ws p : str) :
  all_space ws -> Forall (fun c => is_space c = false) p ->
  startswith (a ++ ws) p = startswith a p.
Proof.
  intros Hws. revert p.
  induction a as [|y a IH]; intros p Hp; cbn [app].
  - destruct p as [|c p]; [now rewrite !startswith_nil|].
    inversion Hp as [|? ? Hc _]; subst.
    destruct ws as [|w ws]; [reflexivity|]. cbn [startswith].
    inversion Hws as [|? ? Hw _]; subst.
    destruct (Ascii.eqb_spec w c) as [->|_]; [congruence | reflexivity].
  - destruct p as [|c p]; [reflexivity|]. cbn [startswith].
    inversion Hp; subst. now rewrite IH.
Qed.

(** A text ending where [r ++ ws] does, with a last character that does
    not occur in [ws], ends inside [r]. *)
Lemma prefix_inside (p : str) (c : ascii) (rest r ws : str) :
  ~ In c ws -> p ++ c :: rest = r ++ ws ->
  exists rest', r = p ++ c :: rest' /\ rest = rest' ++ ws.
Proof.
  intro Hc. revert r.
  induction p as [|y p IH]; intros r E; cbn [app] in E.
  - destruct r as [|z r]; cbn [app] in E.
    + exfalso. apply Hc. rewrite <- E. now left.
    + injection E as -> ->. now exists r.
  - destruct r as [|z r]; cbn [app] in E.
    + exfalso. apply Hc. rewrite <- E. right.
      apply in_or_app; right; now left.
    + injection E as -> E. apply IH in E as (rest' & -> & ->).
      now exists rest'.
Qed.

Lemma TAG_PATTERN_pad (r ws : str) :
  all_space ws -> re_match TAG_PATTERN (r ++ ws) = re_match TAG_PATTERN r.
Proof.
  intro Hws.
  destruct (re_match TAG_PATTERN r) as [m|] eqn:E.
  - apply TAG_PATTERN_sound in E as E'.
    destruct E' as (a & x & w & sp & sps & rest & -> & Ha & Hx & Hw & Hsp
                    & Hsps & ->).
    destruct (separator_last w sp sps Hw Hsp Hsps)
      as (u & sp' & Eu & Hu & Hsp').
    assert (Eshape : forall tail,
               a ++ x :: w ++ sp :: sps ++ dquote :: tail
               = a ++ x :: u ++ sp' :: dquote :: tail).
    { intro tail. do 2 f_equal.
      change (sp :: sps ++ dquote :: tail)
        with ((sp :: sps) ++ dquote :: tail).
      rewrite app_assoc, Eu, <- app_assoc. reflexivity. }
    rewrite Eshape in E.
    rewrite TAG_PATTERN_complete in E by assumption.
    replace ((a ++ x :: w ++ sp :: sps ++ dquote :: rest) ++ ws)
      with (a ++ x :: w ++ sp :: sps ++ dquote :: (rest ++ ws))
      by (rewrite <- !app_assoc; cbn [app]; rewrite <- !app_assoc;
          cbn [app]; now rewrite <- !app_assoc).
    rewrite Eshape, TAG_PATTERN_complete by assumption. exact E.
  - destruct (re_match TAG_PATTERN (r ++ ws)) as [m|] eqn:E2;
      [exfalso|reflexivity].
    apply TAG_PATTERN_sound in E2
      as (a & x & w & sp & sps & rest & E2 & Ha & Hx & Hw & Hsp & Hsps & _).
    assert (E3 : (a ++ x :: w ++ sp :: sps) ++ dquote :: rest = r ++ ws).
    { rewrite E2. rewrite <- !app_assoc. cbn [app].
      rewrite <- !app_assoc. reflexivity. }
    apply prefix_inside in E3 as (rest' & Er & _);
      [|now apply all_space_no_char].
    destruct (tagged_text_of_shape a x w sp sps rest' Ha Hx Hw Hsp Hsps)
      as (g & Hg).
    apply tagged_text_matches in Hg.
    replace (a ++ x :: w ++ sp :: sps ++ dquote :: rest') with r in Hg.
    + congruence.
    + rewrite Er. rewrite <- !app_assoc. cbn [app].
      rewrite <- !app_assoc. reflexivity.
Qed.

Lemma lstrip_strip (l : str) : lstrip (strip l) = strip l.
Proof.
  unfold strip. destruct (lstrip l) as [|x t] eqn:E; [reflexivity|].
  apply lstrip_head in E.
  destruct (strip_keeps_head x t E) as (w' & tl & Hs & _).
  unfold strip in Hs. rewrite lstrip_nonspace in Hs by exact E.
  rewrite Hs. now apply lstrip_nonspace.
Qed.

Lemma COMMENT_PATTERN_shape (s : str) :
  matches COMMENT_TRANSLATION_START_PATTERN s = true ->
  exists ws rest, all_space ws /\ s = ws ++ hash :: rest.
Proof.
  unfold matches, re_match, COMMENT_TRANSLATION_START_PATTERN.
  cbn [seq run Nat.eqb].
  destruct (star _ _ _ _ _) as [v|] eqn:H; [intros _|discriminate].
  apply star_split in H as (n & _ & Hws & H). cbn [run] in H.
  destruct (skipn n s) as [|y rest] eqn:Hs; [discriminate|].
  destruct (is_char hash y) eqn:Hy; [|discriminate].
  apply Ascii.eqb_eq in Hy; subst y.
  exists (firstn n s), rest. split; [exact Hws|].
  now rewrite <- Hs, firstn_skipn.
Qed.

(** The text after the hash sign of a comment line: that of its stripped
    text, and the trailing whitespace of the line. *)
Lemma comment_rest (l : str) :
  is_comment_line l = true ->
  exists r a,
    strip l = hash :: r /\ all_space a /\ split1_last hash l = r ++ a.
Proof.
  unfold is_comment_line. intro H.
  apply COMMENT_PATTERN_shape in H as (ws & rest & Hws & Hs).
  assert (Hcore : strip l = hash :: rest).
  { rewrite <- lstrip_strip, Hs. now apply lstrip_to_core. }
  destruct (pad_decomposition l) as (a & a' & Ha & Ha' & El).
  exists rest, a'. split; [exact Hcore|]. split; [exact Ha'|].
  rewrite El, Hcore. cbn [app]. now apply split1_last_hash.
Qed.

Lemma comment_rest_same (l l' : str) :
  same_text l l' -> is_comment_line l = true ->
  re_match TAG_PATTERN (split1_last hash l)
  = re_match TAG_PATTERN (split1_last hash l')
  /\ forall p, Forall (fun c => is_space c = false) p ->
               startswith (lstrip (split1_last hash l)) p
               = startswith (lstrip (split1_last hash l')) p.
Proof.
  intros Hsame Hc.
  assert (Hc' : is_comment_line l' = true)
    by (unfold is_comment_line in *; now rewrite <- Hsame).
  destruct (comment_rest l Hc) as (r & a & Hs & Ha & ->).
  destruct (comment_rest l' Hc') as (r' & a' & Hs' & Ha' & ->).
  assert (r' = r) by (unfold same_text in Hsame; congruence). subst r'.
  split; [now rewrite !TAG_PATTERN_pad|].
  intros p Hp.
  destruct (lstrip_pad r a Ha) as (b & Hb & ->).
  destruct (lstrip_pad r a' Ha') as (b' & Hb' & ->).
  now rewrite !startswith_pad.
Qed.

Lemma scan_new_same_text (rest rest' : list str) :
  Forall2 same_text rest rest' ->
  forall j, scan_new rest j = scan_new rest' j.
Proof.
  induction 1 as [|l l' rest rest' Hl _ IH]; intro j; [reflexivity|].
  cbn [scan_new]. rewrite <- (extract_same_text l l' Hl).
  unfold same_text in Hl. rewrite <- Hl, IH. reflexivity.
Qed.

Lemma find_next_from_same_text (rest rest' : list str) :
  Forall2 same_text rest rest' ->
  forall i,
    match find_next_from rest i, find_next_from rest' i with
    | Some (k, l), Some (k', l') => k = k' /\ same_text l l'
    | None, None => True
    | _, _ => False
    end.
Proof.
  induction 1 as [|l l' rest rest' Hl _ IH]; intro i; [exact I|].
  cbn [find_next_from]. pose proof Hl as Hl'. unfold same_text in Hl'.
  rewrite <- Hl'.
  destruct (startswith (strip l) (lit "translate ")); [exact I|].
  destruct (matches CODE_TRANSLATION_START_PATTERN (strip l));
    [now split | apply IH].
Qed.

Lemma Forall2_skipn {A B : Type} (R : A -> B -> Prop) (n : nat) :
  forall (l : list A) (l' : list B),
    Forall2 R l l' -> Forall2 R (skipn n l) (skipn n l').
Proof.
  induction n as [|n IH]; intros l l' H; [exact H|].
  destruct H; cbn [skipn]; [constructor | now apply IH].
Qed.

Lemma Forall2_nth_error {A B : Type} (R : A -> B -> Prop) (l : list A)
  (l' : list B) :
  Forall2 R l l' ->
  forall n,
    match nth_error l n, nth_error l' n with
    | Some x, Some y => R x y
    | None, None => True
    | _, _ => False
    end.
Proof.
  induction 1 as [|x y l l' Hxy _ IH]; intros [|n]; cbn [nth_error];
    try exact I; [exact Hxy | apply IH].
Qed.

(** A turn of the loop sees of each line only its stripped text. *)
Lemma loop_body_same_text (lines lines' : list str) (i : nat)
  (line line' : str) (entries : list Entry) :
  Forall2 same_text lines lines' -> same_text line line' ->
  loop_body lines i line entries = loop_body lines' i line' entries.
Proof.
  intros Hlines Hline. unfold loop_body, comment_source_of.
  rewrite <- (extract_same_text line line' Hline).
  pose proof Hline as Hs. unfold same_text in Hs. rewrite <- Hs.
  destruct (startswith (strip line) (lit "old ")).
  - rewrite (scan_new_same_text _ _
               (Forall2_skipn same_text (i + 1) _ _ Hlines)).
    reflexivity.
  - destruct (matches COMMENT_TRANSLATION_START_PATTERN (strip line))
      eqn:Hc; [|reflexivity].
    destruct (comment_rest_same line line' Hline Hc) as [Htag Hstart].
    pose proof (find_next_from_same_text _ _
                  (Forall2_skipn same_text (i + 1) _ _ Hlines) (i + 1))
      as Hnext.
    unfold _find_next_relevant_line.
    destruct (find_next_from (skipn (i + 1) lines) (i + 1)) as [[k cl]|];
      destruct (find_next_from (skipn (i + 1) lines') (i + 1))
        as [[k' cl']|]; try contradiction; [|reflexivity].
    destruct Hnext as [<- Hcl].
    rewrite <- (extract_same_text cl cl' Hcl).
    unfold same_text in Hcl. rewrite <- Hcl.
    unfold classify.
    rewrite <- (Hstart (lit "game/")), <- (Hstart (lit "renpy/")),
      <- (Hstart [dquote])
      by (cbv [lit list_ascii_of_string];
          repeat first [apply Forall_nil
                       | apply Forall_cons; [reflexivity|]]).
    rewrite <- Htag. reflexivity.
Qed.

Lemma while_loop_same_text (lines lines' : list str) (fuel : nat) :
  Forall2 same_text lines lines' ->
  forall i entries,
    while_loop fuel lines i entries = while_loop fuel lines' i entries.
Proof.
  intro Hlines. induction fuel as [|fuel IH]; intros i entries;
    cbn [while_loop]; pose proof (Forall2_nth_error _ _ _ Hlines i) as Hn;
    destruct (nth_error lines i) as [line|];
    destruct (nth_error lines' i) as [line'|]; try contradiction;
    try reflexivity.
  rewrite (loop_body_same_text lines lines' i line line' entries Hlines Hn).
  destruct (loop_body lines' i line' entries) as [st| |]; cbn [bind];
    [apply IH | reflexivity | reflexivity].
Qed.

(** X27. The parse sees of each line only its stripped text: two inputs
    whose lines differ in leading and trailing whitespace only have the
    same entries. *)
Theorem X27_indentation_is_inert (lines lines' : list str)
  (H : Forall2 same_text lines lines') :
  read_entries lines = read_entries lines'.
Proof.
  unfold read_entries. rewrite (Forall2_length H).
  now apply while_loop_same_text.
Qed.

Lemma X27_indentation_is_inert_witness :
  read_entries [lit "    # e " ++ quoted "Hi"; lit "    e " ++ quoted "Ho"]
  = read_entries [lit "# e " ++ quoted "Hi" ++ lit "  ";
                  lit "  e " ++ quoted "Ho"].
Proof.
  apply X27_indentation_is_inert. repeat constructor.
Defined.

(** * Whole translation files *)

Lemma parse_from_functional (lines : list str) (i : nat)
  (r1 r2 : list Entry) :
  parse_from lines i r1 -> parse_from lines i r2 -> r1 = r2.
Proof.
  intro H1. revert r2.
  induction H1 as [i Hnone|i line i' new rest Hline Hb _ IH]; intros r2 H2;
    inversion H2 as [? Hnone2|? line2 i2 new2 rest2 Hline2 Hb2 Hrest2];
    subst; try congruence.
  rewrite Hline in Hline2. injection Hline2 as <-.
  rewrite Hb in Hb2. injection Hb2 as <- <-.
  f_equal. now apply IH.
Qed.

Lemma read_entries_of_trace (lines : list str) (r : list Entry) :
  parse_from lines 0 r -> read_entries lines = Ok r.
Proof.
  intro H. destruct (read_entries_trace lines) as (r' & Hr & Htr).
  now rewrite (parse_from_functional lines 0 r r' H Htr).
Qed.

Lemma at_offset (pre l : list str) (k : nat) :
  nth_error (pre ++ l) (k + List.length pre) = nth_error l k
  /\ skipn (k + List.length pre) (pre ++ l) = skipn k l.
Proof.
  split.
  - rewrite nth_error_app2 by lia. f_equal; lia.
  - rewrite skipn_app.
    replace (k + List.length pre - List.length pre) with k by lia.
    rewrite skipn_all2 by lia. reflexivity.
Qed.

Lemma quiet_step (lines : list str) (i : nat) (l : str) (r : list Entry) :
  nth_error lines i = Some l ->
  loop_body lines i l [] = Ok (i + 1, []) ->
  parse_from lines (S i) r -> parse_from lines i r.
Proof.
  intros Hl Hb Hr. rewrite <- Nat.add_1_r in Hr.
  exact (parse_turn lines i l (i + 1) [] r Hl Hb Hr).
Qed.

Lemma inert_turn (lines : list str) (i : nat) (l : str)
  (entries : list Entry) :
  inert l -> loop_body lines i l entries = Ok (i + 1, entries).
Proof.
  unfold inert, is_old_line, is_comment_line. intros [Ho Hc].
  unfold loop_body. now rewrite Ho, Hc.
Qed.

Lemma metadata_turn (lines : list str) (i : nat) (c : str)
  (entries : list Entry) :
  is_old_line c = false -> is_metadata_comment c = true ->
  loop_body lines i c entries = Ok (i + 1, entries).
Proof.
  unfold is_old_line, is_metadata_comment. intros Ho Hm.
  unfold loop_body, comment_source_of. rewrite Ho, Hm. cbn [negb].
  destruct (matches COMMENT_TRANSLATION_START_PATTERN (strip c));
    [|reflexivity].
  now destruct (_find_next_relevant_line lines (i + 1)) as [[k cl]|].
Qed.

Lemma place_turn (lines : list str) (i : nat) (c h : str)
  (rest : list str) (entries : list Entry) :
  is_old_line c = false -> is_boundary h = true ->
  skipn (i + 1) lines = h :: rest ->
  loop_body lines i c entries = Ok (i + 1, entries).
Proof.
  unfold is_old_line, is_boundary. intros Ho Hb Hs.
  unfold loop_body, _find_next_relevant_line. rewrite Ho, Hs.
  cbn [find_next_from]. rewrite Hb.
  now destruct (matches COMMENT_TRANSLATION_START_PATTERN (strip c)).
Qed.

Lemma startswith_prefix (s p : str) :
  startswith s p = true -> exists r, s = p ++ r.
Proof.
  revert s; induction p as [|c p IH]; intros s H; [now exists s|].
  destruct s as [|y s]; [discriminate|]. cbn [startswith] in H.
  apply andb_true_iff in H as [Hc H]. apply Ascii.eqb_eq in Hc; subst y.
  apply IH in H as (r & ->). now exists r.
Qed.

Lemma boundary_inert (l : str) : is_boundary l = true -> inert l.
Proof.
  unfold is_boundary, inert, is_old_line, is_comment_line. intro H.
  apply startswith_prefix in H as (r & ->). split; reflexivity.
Qed.

Lemma said_turn (lines : list str) (i : nat) (s : said) (rest : list str) :
  said_ok s -> skipn (i + 1) lines = said_code s :: rest ->
  loop_body lines i (said_comment s) []
  = Ok (i + 1 + 1, [said_entry s (i + 1)]).
Proof.
  intros Hok Hs.
  destruct s as [tg ws1 wsm sps1 sp1 a ws1' ws2 sps2 sp2 b ws2'
                |ws1 wsm a ws1' ws2 b ws2'];
    cbn [said_ok said_comment said_code said_entry] in *.
  - destruct Hok as (Ht & H1 & H2 & H3 & H4 & H5 & H6 & H7 & H8 & H9 & Hb).
    rewrite (tagged_comment_turn lines i tg ws1 wsm sps1 sp1 a ws1' []
               ws2 sps2 sp2 b ws2' rest []);
      try assumption; [|constructor].
    cbn [List.length app]. now rewrite !Nat.add_0_r.
  - destruct Hok as (H1 & H2 & H3 & H4 & H5).
    rewrite (plain_comment_turn lines i ws1 wsm a ws1' [] ws2 b ws2'
               rest []);
      try assumption; [|constructor].
    cbn [List.length app]. now rewrite !Nat.add_0_r.
Qed.

Lemma said_step (lines : list str) (i : nat) (s : said) (rest : list str)
  (r : list Entry) :
  nth_error lines i = Some (said_comment s) -> said_ok s ->
  skipn (S i) lines = said_code s :: rest ->
  parse_from lines (S (S i)) r ->
  parse_from lines i (said_entry s (S i) :: r).
Proof.
  intros Hl Hok Hs Hr. rewrite <- Nat.add_1_r in Hs.
  pose proof (said_turn lines i s rest Hok Hs) as Hb.
  replace (S (S i)) with (i + 1 + 1) in Hr by lia.
  rewrite <- (Nat.add_1_r i).
  exact (parse_turn lines i _ (i + 1 + 1) [said_entry s (i + 1)] r
           Hl Hb Hr).
Qed.

Lemma pair_step (lines : list str) (i : nat) (b : strings_block)
  (rest : list str) (r : list Entry) :
  nth_error lines i
  = Some (framed (s_old_indent b) (lit "old ") (s_source b)
            (s_old_trail b)) ->
  strings_ok b ->
  skipn (S i) lines
  = framed (s_new_indent b) (lit "new ") (s_translated b) (s_new_trail b)
    :: rest ->
  parse_from lines (S (S (S i))) r ->
  parse_from lines i
    (mkEntry (s_source b) (s_translated b) (S i) fmt_old_new None :: r).
Proof.
  intros Hl (_ & _ & _ & _ & H1 & H2 & H3 & H4) Hs Hr.
  rewrite <- Nat.add_1_r in Hs.
  pose proof (old_new_turn lines i _ (s_source b) _ [] _ (s_translated b)
                _ rest [] H1 H2 H3 H4 Hs (Forall_nil _)) as Hb.
  cbn [List.length app] in Hb. rewrite !Nat.add_0_r in Hb.
  replace (S (S (S i))) with (i + 1 + 1 + 1) in Hr by lia.
  rewrite <- (Nat.add_1_r i).
  exact (parse_turn lines i _ (i + 1 + 1 + 1) [_] r Hl Hb Hr).
Qed.

(** The run of the loop through the dialogue blocks. *)
Lemma dialogue_run (ds : list dialogue_block) :
  forall (pre post : list str) (r : list Entry),
    Forall dialogue_ok ds ->
    parse_from (pre ++ List.concat (map dialogue_lines ds) ++ post)
      (6 * List.length ds + List.length pre) r ->
    parse_from (pre ++ List.concat (map dialogue_lines ds) ++ post)
      (List.length pre) (dialogue_entries (List.length pre) ds ++ r).
Proof.
  induction ds as [|d ds IH]; intros pre post r Hok H; [exact H|].
  inversion Hok as [|? ? (Hplace & Hhead & Hblank & Hsaid & Hend) Hok'];
    subst.
  cbn [map List.concat dialogue_entries app].
  set (tail := List.concat (map dialogue_lines ds) ++ post).
  assert (Elines : pre ++ (dialogue_lines d
                           ++ List.concat (map dialogue_lines ds)) ++ post
                   = pre ++ d_place d :: d_header d :: d_blank d
                       :: said_comment (d_said d) :: said_code (d_said d)
                       :: d_end d :: tail).
  { unfold tail, dialogue_lines. now rewrite <- !app_assoc. }
  cbn [map List.concat] in H. rewrite Elines in *.
  set (lines := pre ++ _) in *.
  assert (Hat : forall k, nth_error lines (k + List.length pre)
                          = nth_error (d_place d :: d_header d :: d_blank d
                                         :: said_comment (d_said d)
                                         :: said_code (d_said d)
                                         :: d_end d :: tail) k
                          /\ skipn (k + List.length pre) lines
                             = skipn k (d_place d :: d_header d :: d_blank d
                                          :: said_comment (d_said d)
                                          :: said_code (d_said d)
                                          :: d_end d :: tail))
    by (intro k; apply at_offset).
  apply (quiet_step lines (0 + List.length pre) (d_place d));
    [apply (Hat 0) | |].
  { apply (place_turn _ _ _ (d_header d)
             (d_blank d :: said_comment (d_said d) :: said_code (d_said d)
                :: d_end d :: tail)); try assumption.
    rewrite Nat.add_1_r. apply (Hat 1). }
  apply (quiet_step lines (1 + List.length pre) (d_header d));
    [apply (Hat 1) | now apply inert_turn, boundary_inert |].
  apply (quiet_step lines (2 + List.length pre) (d_blank d));
    [apply (Hat 2) | now apply inert_turn |].
  replace (List.length pre + 4) with (S (3 + List.length pre)) by lia.
  apply (said_step lines (3 + List.length pre) (d_said d) (d_end d :: tail));
    [apply (Hat 3) | exact Hsaid | apply (Hat 4) |].
  apply (quiet_step lines (5 + List.length pre) (d_end d));
    [apply (Hat 5) | now apply inert_turn |].
  specialize (IH (pre ++ dialogue_lines d) post r Hok').
  rewrite <- app_assoc in IH.
  replace (dialogue_lines d ++ List.concat (map dialogue_lines ds) ++ post)
    with (d_place d :: d_header d :: d_blank d
            :: said_comment (d_said d) :: said_code (d_said d)
            :: d_end d :: tail) in IH by reflexivity.
  fold lines in IH.
  replace (List.length (pre ++ dialogue_lines d))
    with (6 + List.length pre) in IH
    by (rewrite length_app; cbn [dialogue_lines List.length]; lia).
  replace (List.length pre + 6) with (6 + List.length pre) by lia.
  apply IH.
  replace (6 * List.length ds + (6 + List.length pre))
    with (6 * List.length (d :: ds) + List.length pre)
    by (cbn [List.length]; lia).
  exact H.
Qed.

(** The run of the loop through the blocks of the strings part, from the
    second line of the first block. *)
Lemma strings_run (bs : list strings_block) :
  forall pre : list str,
    Forall strings_ok bs ->
    parse_from (pre ++ List.concat (map strings_lines bs))
      (1 + List.length pre) (strings_entries (List.length pre) bs).
Proof.
  induction bs as [|b bs IH]; intros pre Hok.
  - cbn [map List.concat strings_entries]. constructor.
    apply nth_error_None. rewrite app_nil_r. lia.
  - inversion Hok as [|? ? Hb Hok']; subst.
    pose proof Hb as (_ & Ho & _ & Hm & _).
    cbn [map List.concat strings_entries].
    set (old := framed (s_old_indent b) (lit "old ") (s_source b)
                  (s_old_trail b)).
    set (new := framed (s_new_indent b) (lit "new ") (s_translated b)
                  (s_new_trail b)).
    set (tail := List.concat (map strings_lines bs)).
    change (strings_lines b ++ tail)
      with (s_blank b :: s_place b :: old :: new :: tail).
    set (lines := pre ++ _).
    assert (Hat : forall k, nth_error lines (k + List.length pre)
                            = nth_error (s_blank b :: s_place b :: old
                                           :: new :: tail) k
                            /\ skipn (k + List.length pre) lines
                               = skipn k (s_blank b :: s_place b :: old
                                            :: new :: tail))
      by (intro k; apply at_offset).
    apply (quiet_step lines (1 + List.length pre) (s_place b));
      [apply (Hat 1) | now apply metadata_turn |].
    replace (List.length pre + 3) with (S (2 + List.length pre)) by lia.
    apply (pair_step lines (2 + List.length pre) b tail);
      [apply (Hat 2) | exact Hb | apply (Hat 3) |].
    specialize (IH (pre ++ strings_lines b) Hok').
    rewrite <- app_assoc in IH.
    change (strings_lines b ++ List.concat (map strings_lines bs))
      with (s_blank b :: s_place b :: old :: new :: tail) in IH.
    fold lines in IH.
    replace (List.length (pre ++ strings_lines b))
      with (4 + List.length pre) in IH
      by (rewrite length_app; cbn [strings_lines List.length]; lia).
    replace (List.length pre + 4) with (4 + List.length pre) by lia.
    exact IH.
Qed.

(** X28. On a translation file as Ren'Py writes it (dialogue blocks,
    each a place comment, a [translate] header, a blank line, the
    commented source line, the code line and a blank line; then the
    header of the strings part and its blocks, each a blank line, a
    metadata comment, an [old] line and a [new] line) the parse returns
    one entry for each block, in order: source and translation are the
    two quoted texts of the block, the target is its code line or its
    [new] line, and the format and tag are those of the block. *)
Theorem X28_translation_file (ds : list dialogue_block) (header : str)
  (bs : list strings_block)
  (Hds : Forall dialogue_ok ds) (Hheader : inert header)
  (Hbs : Forall strings_ok bs) :
  read_entries (translation_file ds header bs)
  = Ok (dialogue_entries 0 ds
        ++ strings_entries (6 * List.length ds + 1) bs).
Proof.
  apply read_entries_of_trace. unfold translation_file.
  apply (dialogue_run ds [] _ _ Hds). cbn [app List.length].
  rewrite Nat.add_0_r.
  set (pre := List.concat (map dialogue_lines ds)).
  assert (Hlen : List.length pre = 6 * List.length ds).
  { unfold pre. clear. induction ds as [|d ds IH]; [reflexivity|].
    cbn [map List.concat]. rewrite length_app, IH.
    cbn [dialogue_lines List.length]. lia. }
  rewrite <- Hlen.
  destruct (at_offset pre (header :: List.concat (map strings_lines bs)) 0)
    as [Hh _].
  apply (quiet_step _ (List.length pre) header);
    [exact Hh | now apply inert_turn |].
  replace (pre ++ header :: List.concat (map strings_lines bs))
    with ((pre ++ [header]) ++ List.concat (map strings_lines bs))
    by (now rewrite <- app_assoc).
  replace (List.length pre + 1) with (List.length (pre ++ [header]))
    by (rewrite length_app; reflexivity).
  destruct bs as [|b bs].
  - cbn [map List.concat strings_entries]. constructor.
    apply nth_error_None. rewrite app_nil_r, length_app. simpl. lia.
  - inversion Hbs as [|? ? Hb _]; subst.
    destruct (at_offset (pre ++ [header])
                (List.concat (map strings_lines (b :: bs))) 0) as [Hb0 _].
    replace (S (List.length pre)) with (0 + List.length (pre ++ [header]))
      by (rewrite length_app; simpl; lia).
    apply (quiet_step _ _ (s_blank b));
      [exact Hb0 | apply inert_turn, Hb |].
    now apply strings_run.
Qed.

Lemma X28_translation_file_witness :
  read_entries
    (translation_file example_dialogue (lit "translate french strings:")
       example_strings)
  = Ok [mkEntry (lit "Hello!") (lit "Bonjour !") 4 fmt_comment_tag
          (Some (lit "e happy"));
        mkEntry (lit "It rains.") (lit "Il pleut.") 10 fmt_comment_no_tag
          None;
        mkEntry (lit "Start") (lit "Commencer") 16 fmt_old_new None].
Proof.
  apply (X28_translation_file example_dialogue
           (lit "translate french strings:") example_strings).
  - repeat constructor.
    eexists _, _; split; [reflexivity|]. split; [reflexivity|].
    repeat constructor.
  - split; reflexivity.
  - repeat constructor.
Defined.
